(** * gowatch: the debounce scheduler, the watch tree manager and the command runner

    A shallow embedding of the core of gowatch (packages [config], [runner]
    and [watcher], and the configuration part of [main]) together with the
    properties its specification states about it.

    Conventions.
    - Go strings are byte sequences; they are modelled by [string]
      (a list of 8-bit [ascii] characters).
    - Go [int] and [time.Duration] values are modelled by [Z].
    - Functions of the Go standard library that the code calls are modelled
      after their documented behaviour in the modules [strings] and
      [filepath]; everything that depends on the platform or on the outside
      world (the operating system, the clock, the file system, fsnotify) is
      an explicit parameter.
    - Calls to the logger only print; they change neither a return value
      nor any state the properties speak about, and are left out.
    - Goroutines are interleaved: the parallel branch of the runner, the
      timers of the debouncer and the loop of the watcher are transition
      systems whose steps are the atomic moves of the code (a channel
      operation, the body of a function that runs under a mutex, a call
      made once the mutex is released).  Time is a clock value carried by
      the events of the debouncer. *)

From Stdlib Require Import ZArith Ascii String List Lia Bool.
From stdpp Require Import base option list gmap strings.

(* ===================================================================== *)
(** * Part I: the model                                                   *)
(* ===================================================================== *)

(** ** Package [strings] of the Go standard library (byte-string fragment) *)

Module strings.

(** [s[n:]] *)
Fixpoint slice_from (n : nat) (s : string) : string :=
  match n, s with
  | O, _ => s
  | S n', String _ s' => slice_from n' s'
  | S _, EmptyString => EmptyString
  end.

(** [s[:n]] *)
Fixpoint slice_to (n : nat) (s : string) : string :=
  match n, s with
  | O, _ => EmptyString
  | S n', String c s' => String c (slice_to n' s')
  | S _, EmptyString => EmptyString
  end.

(** [strings.HasPrefix(s, prefix)] *)
Fixpoint HasPrefix (s p : string) {struct p} : bool :=
  match p, s with
  | EmptyString, _ => true
  | String _ _, EmptyString => false
  | String b p', String a s' => Ascii.eqb a b && HasPrefix s' p'
  end.

(** [strings.HasSuffix(s, suffix)]:
    [len(s) >= len(suffix) && s[len(s)-len(suffix):] == suffix] *)
Definition HasSuffix (s suf : string) : bool :=
  (String.length suf <=? String.length s)%nat
  && String.eqb (slice_from (String.length s - String.length suf) s) suf.

(** [strings.Contains(s, substr)] *)
Fixpoint Contains (s sub : string) : bool :=
  HasPrefix s sub
  || match s with
     | EmptyString => false
     | String _ s' => Contains s' sub
     end.

(** [strings.TrimPrefix(s, prefix)] *)
Definition TrimPrefix (s p : string) : string :=
  if HasPrefix s p then slice_from (String.length p) s else s.

(** [strings.TrimSuffix(s, suffix)] *)
Definition TrimSuffix (s suf : string) : string :=
  if HasSuffix s suf then slice_to (String.length s - String.length suf) s else s.

(** [strings.Join(elems, sep)] *)
Fixpoint Join (elems : list string) (sep : string) : string :=
  match elems with
  | [] => EmptyString
  | [x] => x
  | x :: rest => x +:+ sep +:+ Join rest sep
  end.

(** The scan shared by [Split] and [ReplaceAll]: occurrences of the
    separator are found from the left and do not overlap.  [skip] counts
    the bytes of the current occurrence still to be passed over. *)
Fixpoint split_scan (sep s : string) (skip : nat) (cur : string) : list string :=
  match s with
  | EmptyString => [cur]
  | String c s' =>
      match skip with
      | S k => split_scan sep s' k cur
      | O =>
          if HasPrefix s sep
          then cur :: split_scan sep s' (String.length sep - 1) EmptyString
          else split_scan sep s' 0 (cur +:+ String c EmptyString)
      end
  end.

(** One string per byte: what [Split] and [ReplaceAll] fall back to for an
    empty separator (Go cuts at UTF-8 sequences; on ASCII text these are
    the bytes). *)
Fixpoint explode (s : string) : list string :=
  match s with
  | EmptyString => []
  | String c s' => String c EmptyString :: explode s'
  end.

(** [strings.Split(s, sep)] *)
Definition Split (s sep : string) : list string :=
  match sep with
  | EmptyString => explode s
  | String _ _ => split_scan sep s 0 EmptyString
  end.

Fixpoint replace_scan (old new s : string) (skip : nat) : string :=
  match s with
  | EmptyString => EmptyString
  | String c s' =>
      match skip with
      | S k => replace_scan old new s' k
      | O =>
          if HasPrefix s old
          then new +:+ replace_scan old new s' (String.length old - 1)
          else String c (replace_scan old new s' 0)
      end
  end.

(** [strings.ReplaceAll(s, old, new)]: every non-overlapping instance of
    [old], found from the left, is replaced by [new]; an empty [old]
    matches before every byte and at the end. *)
Definition ReplaceAll (s old new : string) : string :=
  match old with
  | EmptyString =>
      fold_right (fun c acc => new +:+ c +:+ acc) new (explode s)
  | String _ _ => replace_scan old new s 0
  end.

Definition lower_byte (c : ascii) : ascii :=
  let n := nat_of_ascii c in
  if ((65 <=? n) && (n <=? 90))%nat then ascii_of_nat (n + 32) else c.

(** [strings.ToLower(s)] on the ASCII letters.  (No code point outside
    ASCII lowers to one of the letters used by the shell names this
    repository compares against.) *)
Fixpoint ToLower (s : string) : string :=
  match s with
  | EmptyString => EmptyString
  | String c s' => String (lower_byte c) (ToLower s')
  end.

End strings.

(** ** Package [path/filepath] of the Go standard library *)

Module filepath.

Import strings.

(** What the code uses of [path/filepath]; the functions differ between
    platforms (separator, volume names), so the code is modelled over any
    implementation of them.  [Match pattern name] is [Some matched] when
    the pattern is well formed and [None] for [ErrBadPattern]. *)
Record Platform := {
  GOOS : string;                           (* runtime.GOOS *)
  ToSlash : string -> string;
  Base : string -> string;
  Match : string -> string -> option bool;
}.

Definition windows (pf : Platform) : bool := String.eqb (GOOS pf) "windows".

Definition is_slash (c : ascii) : bool := Ascii.eqb c "/".

(** *** The Unix implementation *)

Fixpoint strip_trailing_slashes (s : string) : string :=
  match s with
  | EmptyString => EmptyString
  | String c s' =>
      let r := strip_trailing_slashes s' in
      if is_slash c && String.eqb r EmptyString then EmptyString else String c r
  end.

Fixpoint last_element (s cur : string) : string :=
  match s with
  | EmptyString => cur
  | String c s' =>
      if is_slash c then last_element s' EmptyString
      else last_element s' (cur +:+ String c EmptyString)
  end.

(** [filepath.Base]: the last element of the path, trailing slashes
    removed; ["."] for the empty path, ["/"] for a path of slashes. *)
Definition unix_Base (path : string) : string :=
  if String.eqb path EmptyString then "."
  else
    let p := last_element (strip_trailing_slashes path) EmptyString in
    if String.eqb p EmptyString then "/" else p.

(** [scanChunk]: the index at which the chunk that starts the pattern
    ends, that is the first star outside a character class. *)
Fixpoint chunk_end (p : string) (inrange : bool) : nat :=
  match p with
  | EmptyString => O
  | String c p' =>
      if Ascii.eqb c "\" then
        match p' with
        | EmptyString => 1
        | String _ p'' => S (S (chunk_end p'' inrange))
        end
      else if Ascii.eqb c "[" then S (chunk_end p' true)
      else if Ascii.eqb c "]" then S (chunk_end p' false)
      else if Ascii.eqb c "*" then
        if inrange then S (chunk_end p' inrange) else O
      else S (chunk_end p' inrange)
  end.

Fixpoint strip_stars (p : string) : bool * string :=
  match p with
  | String c p' =>
      if Ascii.eqb c "*" then (true, snd (strip_stars p')) else (false, p)
  | EmptyString => (false, p)
  end.

Definition scanChunk (pattern : string) : bool * string * string :=
  let '(star, p) := strip_stars pattern in
  let i := chunk_end p false in
  (star, slice_to i p, slice_from i p).

(** [getEsc]: a possibly escaped character of a character class;
    [None] is [ErrBadPattern]. *)
Definition getEsc (chunk : string) : option (ascii * string) :=
  match chunk with
  | EmptyString => None
  | String c rest =>
      if Ascii.eqb c "-" || Ascii.eqb c "]" then None
      else
        match (if Ascii.eqb c "\" then rest else chunk) with
        | EmptyString => None
        | String r EmptyString => None
        | String r nchunk => Some (r, nchunk)
        end
  end.

Definition byte_le (a b : ascii) : bool :=
  (nat_of_ascii a <=? nat_of_ascii b)%nat.

(** The ranges of a character class up to the closing bracket: whether
    [r] is in one of them, and the rest of the chunk. *)
Fixpoint class_ranges (fuel : nat) (chunk : string) (r : ascii)
         (matched : bool) (nrange : nat) : option (bool * string) :=
  match fuel with
  | O => None
  | S fuel' =>
      match chunk, nrange with
      | String "]" chunk', S _ => Some (matched, chunk')
      | _, _ =>
          match getEsc chunk with
          | None => None
          | Some (lo, chunk1) =>
              match chunk1 with
              | String "-" chunk2 =>
                  match getEsc chunk2 with
                  | None => None
                  | Some (hi, chunk3) =>
                      class_ranges fuel' chunk3 r
                        (matched || (byte_le lo r && byte_le r hi)) (S nrange)
                  end
              | _ =>
                  class_ranges fuel' chunk1 r
                    (matched || (byte_le lo r && byte_le r lo)) (S nrange)
              end
          end
      end
  end.

(** [matchChunk chunk s]: [None] is [ErrBadPattern], [Some None] no match,
    [Some (Some rest)] a match of a prefix of [s] that leaves [rest].
    After the match has failed the chunk is still read to its end, to
    report a malformed pattern. *)
Fixpoint matchChunk_loop (fuel : nat) (chunk s : string) (failed : bool)
  : option (option string) :=
  match fuel with
  | O => None
  | S fuel' =>
      match chunk with
      | EmptyString => if failed then Some None else Some (Some s)
      | String c chunk' =>
          let failed := failed || String.eqb s EmptyString in
          if Ascii.eqb c "[" then
            let '(r, s1) :=
              match failed, s with
              | false, String r s1 => (r, s1)
              | _, _ => (zero, s)
              end in
            let '(negated, chunk1) :=
              match chunk' with
              | String "^" chunk1 => (true, chunk1)
              | _ => (false, chunk')
              end in
            match class_ranges (S (String.length chunk1)) chunk1 r false 0 with
            | None => None
            | Some (matched, chunk2) =>
                matchChunk_loop fuel' chunk2 s1
                  (failed || Bool.eqb matched negated)
            end
          else if Ascii.eqb c "?" then
            match failed, s with
            | false, String a s1 => matchChunk_loop fuel' chunk' s1 (is_slash a)
            | _, _ => matchChunk_loop fuel' chunk' s failed
            end
          else
            (* a backslash escapes the next byte, which is then a literal *)
            let lit :=
              if Ascii.eqb c "\" then
                match chunk' with
                | EmptyString => None
                | String c1 chunk1 => Some (c1, chunk1)
                end
              else Some (c, chunk') in
            match lit with
            | None => None
            | Some (c1, chunk1) =>
                match failed, s with
                | false, String a s1 =>
                    matchChunk_loop fuel' chunk1 s1 (negb (Ascii.eqb c1 a))
                | _, _ => matchChunk_loop fuel' chunk1 s failed
                end
            end
      end
  end.

Definition matchChunk (chunk s : string) : option (option string) :=
  matchChunk_loop (S (String.length chunk)) chunk s false.

(** The retry loop of a chunk preceded by a star: skip [i+1] bytes of the
    name, never a slash. *)
Fixpoint star_loop (chunk : string) (last : bool) (name : string)
  : option (option string) :=
  match name with
  | EmptyString => Some None
  | String c name' =>
      if is_slash c then Some None
      else
        match matchChunk chunk name' with
        | None => None
        | Some (Some t) =>
            if last && negb (String.eqb t EmptyString)
            then star_loop chunk last name'
            else Some (Some t)
        | Some None => star_loop chunk last name'
        end
  end.

(** The syntax check of the rest of the pattern made before reporting
    "no match". *)
Fixpoint rest_well_formed (fuel : nat) (pattern : string) : bool :=
  match fuel with
  | O => true
  | S fuel' =>
      if String.eqb pattern EmptyString then true
      else
        let '(_, chunk, rest) := scanChunk pattern in
        match matchChunk chunk EmptyString with
        | None => false
        | Some _ => rest_well_formed fuel' rest
        end
  end.

Fixpoint Match_loop (fuel : nat) (pattern name : string) : option bool :=
  match fuel with
  | O => None
  | S fuel' =>
      if String.eqb pattern EmptyString
      then Some (String.eqb name EmptyString)
      else
        let '(star, chunk, rest) := scanChunk pattern in
        if star && String.eqb chunk EmptyString
        then Some (negb (Contains name "/"))
        else
          let last := String.eqb rest EmptyString in
          let fallback (_ : unit) :=
            if rest_well_formed (S (String.length rest)) rest
            then Some false else None in
          let retry (_ : unit) :=
            if star then
              match star_loop chunk last name with
              | None => None
              | Some (Some t) => Match_loop fuel' rest t
              | Some None => fallback tt
              end
            else fallback tt in
          match matchChunk chunk name with
          | Some (Some t) =>
              if String.eqb t EmptyString || negb last
              then Match_loop fuel' rest t
              else retry tt
          | None => None
          | Some None => retry tt
          end
  end.

(** [filepath.Match] with [/] as the separator, for names and patterns of
    ASCII characters: a byte stands for a character, where Go reads a
    UTF-8 rune for [?] and in a character class; and a malformed pattern
    is [None] as soon as the scan meets it, where Go may report no match
    first.  The theorems evaluate it on well-formed ASCII patterns. *)
Definition unix_Match (pattern name : string) : option bool :=
  Match_loop (S (String.length pattern)) pattern name.

Definition unix : Platform :=
  {| GOOS := "linux";
     ToSlash := fun path => path;
     Base := unix_Base;
     Match := unix_Match |}.

End filepath.

(** ** Package [config] *)

Module config.

Import strings.

Record WatchPath := {
  Path : string;
  Recursive : bool;
  Ignore : list string;
}.

Record Command := {
  Cmd : list string;
  Run : string;
  Timeout : string;
}.

Record OnChange := {
  Commands : list Command;
}.

Record Config := {
  Watch : list WatchPath;
  Config_OnChange : OnChange;
  Debounce : string;
  MaxConcurrency : Z;
}.

Section ShouldIgnore.

Variable pf : filepath.Platform.

(** [err == nil && matched] *)
Definition matches (pattern name : string) : bool :=
  match filepath.Match pf pattern name with
  | Some true => true
  | _ => false
  end.

(** The check of a pattern that contains [**]: the pattern is cut at
    [**] and, when that gives exactly two parts, compared by prefix and
    by suffix or substring. *)
Definition doublestar_rule (pattern path : string) : bool :=
  if Contains pattern "**" then
    match Split pattern "**" with
    | [part0; part1] =>
        let prefix := TrimSuffix part0 "/" in
        let suffix := TrimPrefix part1 "/" in
        (String.eqb prefix "" || HasPrefix path prefix)
        && (String.eqb suffix "" || HasSuffix path suffix || Contains path suffix)
    | _ => false
    end
  else false.

(** The check of a directory pattern, one that ends in a slash. *)
Definition directory_rule (pattern path : string) : bool :=
  if HasSuffix pattern "/" then
    let dirPattern := TrimSuffix pattern "/" in
    HasPrefix path (dirPattern +:+ "/") || String.eqb path dirPattern
  else false.

(** The body of the inner loop of [ShouldIgnore]: the four checks made
    for one pattern, each of which returns true from the function. *)
Definition pattern_ignores (path base pattern : string) : bool :=
  let pattern := filepath.ToSlash pf pattern in
  if matches pattern base then true
  else if matches pattern path then true
  else if doublestar_rule pattern path then true
  else directory_rule pattern path.

(** [(c *Config) ShouldIgnore(path)] *)
Definition ShouldIgnore (c : Config) (path : string) : bool :=
  let path := filepath.ToSlash pf path in
  let base := filepath.Base pf path in
  existsb (fun w => existsb (pattern_ignores path base) (Ignore w)) (Watch c).

End ShouldIgnore.

End config.

(** ** Package [runner] *)

Module runner.

Import strings config.

(** *** The outside world *)

(** The [error] values a [RunResult] can carry. *)
Inductive error :=
| Errorf (msg : string)                  (* fmt.Errorf(msg) *)
| ErrorfWrap (msg : string) (cause : string)   (* fmt.Errorf(msg + ": %w", err) *)
| ExitError (code : Z)                   (* *exec.ExitError *)
| WaitError (cause : string).            (* any other error of Wait *)

(** What [Wait] returns. *)
Inductive WaitResult :=
| WaitNil
| WaitExitError (code : Z)
| WaitOther (cause : string).

(** The ways the preparation and the run of one process can go. *)
Inductive ProcOutcome :=
| StdoutPipeFailed (cause : string)
| StderrPipeFailed (cause : string)
| StartFailed (cause : string)
| Waited (r : WaitResult).

(** The operating system as the runner sees it, over a state [S] of its
    own: the clock, and the run of a command (argument vector and timeout)
    up to the return of [Wait] or to the first failure. *)
Record OS (S : Type) := {
  GOOS : string;
  ParseDuration : string -> option Z;
  Now : S -> Z * S;
  Exec : list string -> Z -> S -> ProcOutcome * S;
}.
Arguments GOOS {S}. Arguments ParseDuration {S}.
Arguments Now {S}. Arguments Exec {S}.

(** The state threaded through the runner: the state of the operating
    system and, as a record of what was done, the argument vector of every
    [exec.CommandContext] made so far, oldest first. *)
Record World (S : Type) := {
  os_state : S;
  prepared : list (list string);
}.
Arguments os_state {S}. Arguments prepared {S}.

Definition M (S A : Type) : Type := World S -> A * World S.

Definition ret {S A} (a : A) : M S A := fun w => (a, w).

Definition bind {S A B} (m : M S A) (k : A -> M S B) : M S B :=
  fun w => let '(a, w') := m w in k a w'.

Notation "'do' x <- m ; k" := (bind m (fun x => k))
  (at level 10, x name, m at level 100, k at level 200).

(** *** The runner *)

Record RunResult := {
  Command_ : list string;
  ExitCode : Z;
  Duration : Z;
  Error : option error;
}.

(** The zero value of [RunResult]. *)
Definition zeroRunResult : RunResult :=
  {| Command_ := []; ExitCode := 0; Duration := 0; Error := None |}.

Record Runner := {
  cfg : Config;
  sequential : bool;
  dryRun : bool;
}.

Definition New (cfg : Config) (sequential dryRun : bool) : Runner :=
  {| cfg := cfg; sequential := sequential; dryRun := dryRun |}.

(** The loop of [replacePlaceholders]: [result[i] = part]. *)
Fixpoint replace_loop (i : nat) (rest : list string) (path event : string)
         (result : list string) : list string :=
  match rest with
  | [] => result
  | part :: rest' =>
      let part := ReplaceAll part "{path}" path in
      let part := ReplaceAll part "{event}" event in
      replace_loop (S i) rest' path event (<[i := part]> result)
  end.

Definition replacePlaceholders (cmd : list string) (path event : string)
  : list string :=
  replace_loop 0 cmd path event (replicate (length cmd) EmptyString).

(** What the body of that loop makes of one token. *)
Definition resolve (path event part : string) : string :=
  ReplaceAll (ReplaceAll part "{path}" path) "{event}" event.

Definition shellCommands : gmap string bool :=
  <["sh" := true]> (<["bash" := true]> (<["powershell" := true]>
    (<["pwsh" := true]> ∅))).

Definition shellOperators : list string :=
  ["|"; ">"; "<"; ">>"; "&&"; "||"; "&"].

(** [needsShell]: whether a command needs shell interpretation on Windows. *)
Definition needsShell (cmd : list string) : bool :=
  match cmd with
  | [] => false
  | first :: _ =>
      let firstCmd := ToLower first in
      if default false (shellCommands !! firstCmd) then true
      else
        let fullCmd := Join cmd " " in
        existsb (fun op => Contains fullCmd op) shellOperators
  end.

Definition second : Z := 1000000000.

Section Run.

Context {S : Type} (os : OS S).

Definition now : M S Z :=
  fun w =>
    let '(t, s) := Now os (os_state w) in
    (t, {| os_state := s; prepared := prepared w |}).

(** [time.Since(start)] *)
Definition since (start : Z) : M S Z :=
  do t <- now ; ret (t - start)%Z.

(** [exec.CommandContext(cmdCtx, name, args...)] and what is done with
    the command: the two pipes, [Start], the draining of the output and
    [Wait]. *)
Definition run_process (argv : list string) (timeout : Z) : M S ProcOutcome :=
  fun w =>
    let '(out, s) := Exec os argv timeout (os_state w) in
    (out, {| os_state := s; prepared := (prepared w ++ [argv]) |}).

Definition executeCommand (r : Runner) (cmd : Command)
           (eventPath eventType : string) : M S RunResult :=
  let cmdWithPlaceholders := replacePlaceholders (Cmd cmd) eventPath eventType in
  if dryRun r then
    ret {| Command_ := cmdWithPlaceholders; ExitCode := 0;
           Duration := 0; Error := None |}
  else
    let timeout :=
      if String.eqb (Timeout cmd) "" then (60 * second)%Z
      else match ParseDuration os (Timeout cmd) with
           | Some d => d
           | None => (60 * second)%Z
           end in
    do start <- now ;
    if (length cmdWithPlaceholders =? 0)%nat then
      do d <- since start ;
      ret {| Command_ := cmdWithPlaceholders; ExitCode := -1;
             Duration := d; Error := Some (Errorf "empty command") |}
    else
      let argv :=
        if String.eqb (GOOS os) "windows" then
          if needsShell cmdWithPlaceholders
          then ["cmd.exe"; "/C"; Join cmdWithPlaceholders " "]
          else cmdWithPlaceholders
        else cmdWithPlaceholders in
      do out <- run_process argv timeout ;
      do d <- since start ;
      match out with
      | StdoutPipeFailed e =>
          ret {| Command_ := cmdWithPlaceholders; ExitCode := -1; Duration := d;
                 Error := Some (ErrorfWrap "failed to get stdout pipe" e) |}
      | StderrPipeFailed e =>
          ret {| Command_ := cmdWithPlaceholders; ExitCode := -1; Duration := d;
                 Error := Some (ErrorfWrap "failed to get stderr pipe" e) |}
      | StartFailed e =>
          ret {| Command_ := cmdWithPlaceholders; ExitCode := -1; Duration := d;
                 Error := Some (ErrorfWrap "failed to start command" e) |}
      | Waited WaitNil =>
          ret {| Command_ := cmdWithPlaceholders; ExitCode := 0; Duration := d;
                 Error := None |}
      | Waited (WaitExitError code) =>
          ret {| Command_ := cmdWithPlaceholders; ExitCode := code; Duration := d;
                 Error := Some (ExitError code) |}
      | Waited (WaitOther e) =>
          ret {| Command_ := cmdWithPlaceholders; ExitCode := -1; Duration := d;
                 Error := Some (WaitError e) |}
      end.

(** The loop of the sequential branch of [Run]. *)
Fixpoint run_sequential (r : Runner) (commands : list Command)
         (eventPath eventType : string) (results : list RunResult)
  : M S (list RunResult) :=
  match commands with
  | [] => ret results
  | cmd :: rest =>
      do result <- executeCommand r cmd eventPath eventType ;
      let results := (results ++ [result]) in
      if bool_decide (Error result ≠ None) && negb (ExitCode result =? 0)%Z
      then ret results
      else run_sequential r rest eventPath eventType results
  end.

(** *** The parallel branch: goroutines as a transition system *)

(** The goroutines of [executeParallel] are interleaved: a state holds
    where each of them is, the shared slice, the channel used as a
    semaphore and the context, and a step is the move of one goroutine or
    the cancellation of the context.  A command executes from the
    acquisition of its slot to the return of its [executeCommand]; what the
    call does to the world is taken at its return.  (With a capacity of
    zero no send succeeds.  A negative capacity makes [make] panic before
    any goroutine is started, which the transition system does not show:
    there it behaves as with a capacity of zero.  The configuration is
    validated to have a maximum of at least one.) *)

(** Where the goroutine of one command is: before the [select], between
    the acquisition of a slot and the return of [executeCommand], or
    returned, with [nil] or with [gctx.Err()]. *)
Inductive goroutine := Waiting | Running | Finished | Abandoned.

Record ParState := {
  goroutines : list goroutine;
  results : list RunResult;      (* the shared slice *)
  sem : nat;                     (* values held by the channel [sem] *)
  gctx_done : bool;              (* [gctx.Done()] is closed *)
  world : World S;
}.

(** The state after the loop of [g.Go] calls. *)
Definition par_init (commands : list Command) (w : World S) : ParState :=
  {| goroutines := replicate (length commands) Waiting;
     results := replicate (length commands) zeroRunResult;
     sem := 0;
     gctx_done := false;
     world := w |}.

Inductive par_step (r : Runner) (commands : list Command)
          (eventPath eventType : string) : ParState -> ParState -> Prop :=
| step_cancel st :
    (* the context is cancelled *)
    par_step r commands eventPath eventType st
      {| goroutines := goroutines st; results := results st; sem := sem st;
         gctx_done := true; world := world st |}
| step_acquire st i :
    (* [case sem <- struct{}{}]: the send succeeds while the buffer has room *)
    goroutines st !! i = Some Waiting ->
    (Z.of_nat (sem st) < MaxConcurrency (cfg r))%Z ->
    par_step r commands eventPath eventType st
      {| goroutines := <[i := Running]> (goroutines st); results := results st;
         sem := Datatypes.S (sem st); gctx_done := gctx_done st; world := world st |}
| step_abandon st i :
    (* [case <-gctx.Done(): return gctx.Err()] *)
    goroutines st !! i = Some Waiting ->
    gctx_done st = true ->
    par_step r commands eventPath eventType st
      {| goroutines := <[i := Abandoned]> (goroutines st); results := results st;
         sem := sem st; gctx_done := true; world := world st |}
| step_finish st i cmd res w' :
    (* [results[i] = r.executeCommand(...)], then the deferred [<-sem] *)
    goroutines st !! i = Some Running ->
    commands !! i = Some cmd ->
    executeCommand r cmd eventPath eventType (world st) = (res, w') ->
    par_step r commands eventPath eventType st
      {| goroutines := <[i := Finished]> (goroutines st);
         results := <[i := res]> (results st);
         sem := pred (sem st); gctx_done := gctx_done st; world := w' |}.

(** The number of commands between the acquisition of a slot and the
    return of their [executeCommand]. *)
Fixpoint count_running (gs : list goroutine) : nat :=
  match gs with
  | [] => 0
  | Running :: gs' => Datatypes.S (count_running gs')
  | _ :: gs' => count_running gs'
  end.

Definition running (st : ParState) : nat := count_running (goroutines st).

(** [g.Wait()] returns once every goroutine has returned. *)
Definition par_done (st : ParState) : Prop :=
  Forall (fun g => g = Finished \/ g = Abandoned) (goroutines st).

(** [executeParallel] returns from the state [st]: it returns the slice
    [results st] and leaves the world [world st]. *)
Definition executeParallel (r : Runner) (commands : list Command)
           (eventPath eventType : string) (w : World S) (st : ParState) : Prop :=
  rtc (par_step r commands eventPath eventType) (par_init commands w) st
  /\ par_done st.

(** *** The invariant of the parallel branch *)

Definition is_running (g : goroutine) : nat :=
  match g with Running => 1 | _ => 0 end.

(** What holds of the slot of command [i] when its goroutine is [g]:
    the slot of a finished command holds the result of a call of
    [executeCommand] for that command, every other slot the zero
    value. *)
Definition slot_ok (r : Runner) (commands : list Command)
           (eventPath eventType : string)
           (st : ParState) (i : nat) (g : goroutine) : Prop :=
  match g with
  | Finished =>
      exists cmd w0,
        commands !! i = Some cmd
        /\ results st !! i = Some (executeCommand r cmd eventPath eventType w0).1
  | Abandoned =>
      gctx_done st = true /\ results st !! i = Some zeroRunResult
  | Waiting | Running =>
      results st !! i = Some zeroRunResult
  end.

Record par_inv (r : Runner) (commands : list Command)
       (eventPath eventType : string) (st : ParState) : Prop := {
  inv_goroutines : length (goroutines st) = length commands;
  inv_results : length (results st) = length commands;
  inv_sem : sem st = running st;
  inv_slots :
    forall i g, goroutines st !! i = Some g ->
                slot_ok r commands eventPath eventType st i g;
}.

(** How far a run of the parallel branch is from its end: a waiting
    goroutine has two steps to make, a running one has one. *)
Definition weight (g : goroutine) : nat :=
  match g with Waiting => 2 | Running => 1 | _ => 0 end.

Fixpoint remaining (gs : list goroutine) : nat :=
  match gs with
  | [] => 0
  | g :: gs' => weight g + remaining gs'
  end.

(** [Run]: the result list returned and the world left behind. *)
Inductive Run (r : Runner) (eventPath eventType : string) (w : World S)
  : list RunResult -> World S -> Prop :=
| Run_no_commands :
    Commands (Config_OnChange (cfg r)) = [] ->
    Run r eventPath eventType w [] w
| Run_sequential res w' :
    Commands (Config_OnChange (cfg r)) <> [] ->
    sequential r = true ->
    run_sequential r (Commands (Config_OnChange (cfg r))) eventPath eventType [] w
      = (res, w') ->
    Run r eventPath eventType w res w'
| Run_parallel st :
    Commands (Config_OnChange (cfg r)) <> [] ->
    sequential r = false ->
    executeParallel r (Commands (Config_OnChange (cfg r))) eventPath eventType w st ->
    Run r eventPath eventType w (results st) (world st).

End Run.

End runner.

(** ** Package [watcher] *)

Module watcher.

Import strings config.

(** *** The debouncer *)

Section Debouncer.

(** The actions, [func()] in the code. *)
Context {A : Type}.

(** A timer made by [time.AfterFunc]: its function has captured the key,
    and the runtime starts it once the expiry time is reached. *)
Record Timer := {
  timer_key : string;
  expiry : Z;
}.

(** The fields of [Debouncer] and, below them, what the Go runtime and
    the clock hold: the timers that wait for their expiry, the timers
    that have expired and whose function has been started in its own
    goroutine but has not taken the lock yet, the number of the next
    timer, the time, and the actions that timer functions have taken from
    [pending] to call them, each with its key, in the order of the locked
    sections that took them.  The call itself comes when the lock is
    released, in the goroutine of the timer function: the order of the
    calls is followed in [debounce.Calls].  A [*time.Timer] is identified
    by a number. *)
Record Debouncer := {
  delay : Z;
  timers : gmap string nat;
  pending : gmap string A;
  armed : gmap nat Timer;
  started : gmap nat string;
  next_timer : nat;
  clock : Z;
  executed : list (string * A);
}.

Definition NewDebouncer (delay : Z) : Debouncer :=
  {| delay := delay; timers := ∅; pending := ∅;
     armed := ∅; started := ∅; next_timer := 0; clock := 0; executed := [] |}.

(** [timer.Stop()]: a timer that waits is removed; one that has expired
    already is not affected. *)
Definition Stop (id : nat) (armed : gmap nat Timer) : gmap nat Timer :=
  delete id armed.

(** [(d *Debouncer) Add(key, fn)], at the time of the clock. *)
Definition Add (d : Debouncer) (key : string) (fn : A) : Debouncer :=
  let armed1 :=
    match timers d !! key with
    | Some timer => Stop timer (armed d)
    | None => armed d
    end in
  let timer := next_timer d in
  {| delay := delay d;
     timers := <[key := timer]> (timers d);
     pending := <[key := fn]> (pending d);
     armed := <[timer := {| timer_key := key; expiry := (clock d + delay d)%Z |}]> armed1;
     started := started d;
     next_timer := S timer;
     clock := clock d;
     executed := executed d |}.

(** The function given to [time.AfterFunc], run for [key]: its locked
    section, in which the pending action is taken and both entries of the
    key are deleted.  The action taken, if there is one, is recorded in
    [executed]: the function calls it once it has released the lock. *)
Definition timer_func (d : Debouncer) (key : string) : Debouncer :=
  let fn := pending d !! key in
  {| delay := delay d;
     timers := delete key (timers d);
     pending := delete key (pending d);
     armed := armed d;
     started := started d;
     next_timer := next_timer d;
     clock := clock d;
     executed :=
       match fn with
       | Some f => executed d ++ [(key, f)]
       | None => executed d
       end |}.

Definition set_clock (d : Debouncer) (t : Z) : Debouncer :=
  {| delay := delay d; timers := timers d; pending := pending d;
     armed := armed d; started := started d; next_timer := next_timer d;
     clock := t; executed := executed d |}.

(** What happens to a debouncer, each with the time at which it does:
    a call of [Add]; the runtime finding a timer expired and starting
    its function; that function taking the lock and going through its
    locked section. *)
Inductive DEvent :=
| EvAdd (t : Z) (key : string) (fn : A)
| EvExpire (t : Z) (timer : nat)
| EvRun (t : Z) (timer : nat).

Definition event_time (e : DEvent) : Z :=
  match e with
  | EvAdd t _ _ => t
  | EvExpire t _ => t
  | EvRun t _ => t
  end.

(** One event; [None] when it cannot happen: time does not go back, a
    timer expires only if it waits and its expiry time is reached, a
    function runs only if it was started. *)
Definition dstep (d : Debouncer) (e : DEvent) : option Debouncer :=
  if (event_time e <? clock d)%Z then None
  else
    let d := set_clock d (event_time e) in
    match e with
    | EvAdd _ key fn => Some (Add d key fn)
    | EvExpire t timer =>
        match armed d !! timer with
        | Some tm =>
            if (expiry tm <=? t)%Z then
              Some {| delay := delay d; timers := timers d; pending := pending d;
                      armed := delete timer (armed d);
                      started := <[timer := timer_key tm]> (started d);
                      next_timer := next_timer d; clock := clock d;
                      executed := executed d |}
            else None
        | None => None
        end
    | EvRun _ timer =>
        match started d !! timer with
        | Some key =>
            Some (timer_func
                    {| delay := delay d; timers := timers d; pending := pending d;
                       armed := armed d; started := delete timer (started d);
                       next_timer := next_timer d; clock := clock d;
                       executed := executed d |} key)
        | None => None
        end
    end.

Fixpoint drun (d : Debouncer) (trace : list DEvent) : option Debouncer :=
  match trace with
  | [] => Some d
  | e :: rest =>
      match dstep d e with
      | Some d' => drun d' rest
      | None => None
      end
  end.

(** The calls of [Add] for a key in a trace: time and action. *)
Fixpoint adds_of (key : string) (trace : list DEvent) : list (Z * A) :=
  match trace with
  | [] => []
  | EvAdd t k fn :: rest =>
      if String.eqb k key then (t, fn) :: adds_of key rest else adds_of key rest
  | _ :: rest => adds_of key rest
  end.

(** The actions taken for a key, to be called. *)
Definition executed_for (key : string) (d : Debouncer) : list A :=
  map snd (filter (fun p => fst p = key) (executed d)).

(** Each call arrives before the delay has elapsed since the one before. *)
Fixpoint within_delay (delay : Z) (adds : list (Z * A)) : Prop :=
  match adds with
  | (t1, _) :: (((t2, _) :: _) as rest) =>
      (t2 < t1 + delay)%Z /\ within_delay delay rest
  | _ => True
  end.

(** *** The invariant of the debouncer *)

(** A timer that waits, or a started function, belongs to [key]. *)
Definition armed_for (key : string) (d : Debouncer) (timer : nat) : Prop :=
  exists tm, armed d !! timer = Some tm /\ timer_key tm = key.

Definition started_for (key : string) (d : Debouncer) (timer : nat) : Prop :=
  started d !! timer = Some key.

(** Timers are numbered in the order they are made, a timer is in the table
    under the key it was made for, and no timer both waits and has
    expired. *)
Record timers_ok (d : Debouncer) : Prop := {
  ok_table :
    forall k timer tm,
      timers d !! k = Some timer -> armed d !! timer = Some tm -> timer_key tm = k;
  ok_table_fresh : forall k timer, timers d !! k = Some timer -> timer < next_timer d;
  ok_armed_fresh : forall timer tm, armed d !! timer = Some tm -> timer < next_timer d;
  ok_started_fresh : forall timer k, started d !! timer = Some k -> timer < next_timer d;
  ok_disjoint : forall timer tm, armed d !! timer = Some tm -> started d !! timer = None;
}.

(** What concerns [key] is the same in [d'] as in [d]; time may have
    passed. *)
Record same_view (key : string) (d d' : Debouncer) : Prop := {
  view_timers : timers d' !! key = timers d !! key;
  view_pending : pending d' !! key = pending d !! key;
  view_armed :
    forall timer tm,
      timer_key tm = key ->
      (armed d' !! timer = Some tm <-> armed d !! timer = Some tm);
  view_started :
    forall timer, started d' !! timer = Some key <-> started d !! timer = Some key;
  view_executed : executed_for key d' = executed_for key d;
  view_delay : delay d' = delay d;
  view_clock : (clock d <= clock d')%Z;
}.

(** Where a key is, given the calls of [Add] made for it since a moment
    at which no timer was left for it and [base] were the actions taken for
    it: not added since; added, with the timer of the last call waiting;
    that timer expired and its function started; or the action of the last
    call taken, after those of [base]. *)
Inductive key_state (key : string) (base : list A) (d : Debouncer)
  : list (Z * A) -> Prop :=
| key_idle :
    (forall timer, ~ armed_for key d timer) ->
    (forall timer, ~ started_for key d timer) ->
    executed_for key d = base ->
    key_state key base d []
| key_waiting adds t fn timer :
    timers d !! key = Some timer ->
    pending d !! key = Some fn ->
    armed d !! timer = Some {| timer_key := key; expiry := (t + delay d)%Z |} ->
    (forall timer', armed_for key d timer' -> timer' = timer) ->
    (forall timer', ~ started_for key d timer') ->
    executed_for key d = base ->
    key_state key base d (adds ++ [(t, fn)])
| key_started adds t fn timer :
    timers d !! key = Some timer ->
    pending d !! key = Some fn ->
    started d !! timer = Some key ->
    (forall timer', ~ armed_for key d timer') ->
    (forall timer', started_for key d timer' -> timer' = timer) ->
    executed_for key d = base ->
    (t + delay d <= clock d)%Z ->
    key_state key base d (adds ++ [(t, fn)])
| key_done adds t fn :
    timers d !! key = None ->
    pending d !! key = None ->
    (forall timer, ~ armed_for key d timer) ->
    (forall timer, ~ started_for key d timer) ->
    executed_for key d = base ++ [fn] ->
    (t + delay d <= clock d)%Z ->
    key_state key base d (adds ++ [(t, fn)]).

End Debouncer.

Arguments Debouncer : clear implicits.
Arguments DEvent : clear implicits.

(** *** The watcher *)

Record FileInfo := { IsDir : bool }.

(** [fsnotify.Op], a bit mask. *)
Definition Create : Z := 1.
Definition Write : Z := 2.
Definition Remove : Z := 4.
Definition Rename : Z := 8.
Definition Chmod : Z := 16.

(** [fsnotify.Event] *)
Record FsEvent := { Name : string; Op : Z }.

(** The function that [processEvents] hands to the debouncer: it has
    captured the notification; when it is called it makes the [Event] and
    selects between sending it on [output] and [<-ctx.Done()].  What a
    call comes to is followed in [debounce.Loop]. *)
Inductive Action := Emit (event : FsEvent).

Inductive error :=
| ErrAbs (cause : string)                 (* failed to get absolute path *)
| ErrStat (path cause : string)           (* failed to stat path *)
| ErrWatch (path cause : string)          (* failed to watch *)
| ErrWalk (cause : string).               (* an error filepath.Walk met *)

(** What [filepath.Walk] finds below a root: a file, a directory with the
    outcome of reading its names and its entries in lexical order, or an
    entry whose [Lstat] fails. *)
Inductive Tree :=
| File
| Dir (readErr : option string) (entries : Entries)
| Broken (cause : string)
with Entries :=
| NoEntry
| Entry (name : string) (t : Tree) (rest : Entries).

Scheme Tree_mut := Induction for Tree Sort Prop
  with Entries_mut := Induction for Entries Sort Prop.

Definition is_dir (t : Tree) : bool :=
  match t with Dir _ _ => true | _ => false end.

(** The file system and the notification facility, as the watcher meets
    them at one moment. *)
Record Sys := {
  pf : filepath.Platform;
  Abs : string -> string + string;          (* the path, or the error *)
  Clean : string -> string;
  Join2 : string -> string -> string;       (* filepath.Join(dir, name) *)
  Stat : string -> FileInfo + string;
  Lstat : string -> Tree;                   (* what is at a root *)
  fsnotify_Add : string -> list string -> option string;
    (* the error of fsWatcher.Add(path), given the earlier calls *)
}.

(** The fields of [Watcher] that change, and the calls of
    [fsWatcher.Add] made so far, oldest first. *)
Record Watcher := {
  cfg : Config;
  watched : gmap string bool;
  fs_adds : list string;
  fs_closed : bool;
  debouncer : Debouncer Action;
}.

Definition New (cfg : Config) (debounce : Z) : Watcher :=
  {| cfg := cfg; watched := ∅; fs_adds := []; fs_closed := false;
     debouncer := NewDebouncer debounce |}.

Definition systemFolders : list string :=
  ["$RECYCLE.BIN"; "System Volume Information"; "$Recycle.Bin"].

(** [(w *Watcher) shouldIgnore(path)] *)
Definition shouldIgnore (pf : filepath.Platform) (cfg : Config) (path : string) : bool :=
  let base := filepath.Base pf path in
  if HasPrefix base "." && negb (String.eqb base ".") then true
  else if filepath.windows pf
            && (HasPrefix base "~$"
                || HasSuffix base ".lnk"
                || existsb (fun folder => Contains path folder) systemFolders)
  then true
  else if ShouldIgnore pf cfg path then true
  else false.

(** [(w *Watcher) addSingle(path)] *)
Definition addSingle (sys : Sys) (path : string) (w : Watcher) : option error * Watcher :=
  if default false (watched w !! path) then (None, w)
  else
    match fsnotify_Add sys path (fs_adds w) with
    | Some cause =>
        (Some (ErrWatch path cause),
         {| cfg := cfg w; watched := watched w; fs_adds := (fs_adds w ++ [path]);
            fs_closed := fs_closed w; debouncer := debouncer w |})
    | None =>
        (None,
         {| cfg := cfg w; watched := <[path := true]> (watched w);
            fs_adds := (fs_adds w ++ [path]);
            fs_closed := fs_closed w; debouncer := debouncer w |})
    end.

(** What a walk function returns besides [nil]. *)
Inductive WalkError :=
| SkipDir
| Failed (e : error).

(** The function [addRecursive] gives to [filepath.Walk]. *)
Definition walkFn (sys : Sys) (path : string) (info : option FileInfo)
           (err : option string) (w : Watcher) : option WalkError * Watcher :=
  match err, info with
  | Some cause, _ => (Some (Failed (ErrWalk cause)), w)
  | None, None => (None, w)
  | None, Some info =>
      if negb (IsDir info) then (None, w)
      else if shouldIgnore (pf sys) (cfg w) path then (Some SkipDir, w)
      else
        let '(e, w') := addSingle sys path w in
        (Failed <$> e, w')
  end.

(** [filepath.walk]: the function is called for the directory, then for
    its entries in order; [SkipDir] returned for a directory skips it. *)
Fixpoint walk (sys : Sys) (path : string) (t : Tree) (w : Watcher)
  : option WalkError * Watcher :=
  match t with
  | File => walkFn sys path (Some {| IsDir := false |}) None w
  | Broken cause => walkFn sys path None (Some cause) w
  | Dir readErr entries =>
      let '(err1, w1) := walkFn sys path (Some {| IsDir := true |}) readErr w in
      if bool_decide (readErr <> None) || bool_decide (err1 <> None) then (err1, w1)
      else walk_entries sys path entries w1
  end
with walk_entries (sys : Sys) (path : string) (entries : Entries) (w : Watcher)
  : option WalkError * Watcher :=
  match entries with
  | NoEntry => (None, w)
  | Entry name t' rest =>
      let filename := Join2 sys path name in
      match t' with
      | Broken cause =>
          let '(err, w') := walkFn sys filename None (Some cause) w in
          match err with
          | Some (Failed e) => (err, w')
          | _ => walk_entries sys path rest w'
          end
      | _ =>
          let '(err, w') := walk sys filename t' w in
          match err with
          | None => walk_entries sys path rest w'
          | Some SkipDir =>
              if is_dir t' then walk_entries sys path rest w' else (err, w')
          | Some (Failed e) => (err, w')
          end
      end
  end.

(** [filepath.Walk(root, fn)] *)
Definition Walk (sys : Sys) (root : string) (w : Watcher) : option error * Watcher :=
  let '(err, w') := walk sys root (Lstat sys root) w in
  match err with
  | Some (Failed e) => (Some e, w')
  | _ => (None, w')
  end.

(** [(w *Watcher) addRecursive(root)] *)
Definition addRecursive (sys : Sys) (root : string) (w : Watcher) : option error * Watcher :=
  Walk sys root w.

(** [(w *Watcher) addPath(wp)] *)
Definition addPath (sys : Sys) (wp : WatchPath) (w : Watcher) : option error * Watcher :=
  match Abs sys (Path wp) with
  | inr cause => (Some (ErrAbs cause), w)
  | inl absPath =>
      match Stat sys absPath with
      | inr cause => (Some (ErrStat absPath cause), w)
      | inl info =>
          if IsDir info then
            if Recursive wp then addRecursive sys absPath w
            else addSingle sys absPath w
          else addSingle sys absPath w
      end
  end.

(** The loop of [Start] over the configured watch paths. *)
Fixpoint add_paths (sys : Sys) (wps : list WatchPath) (w : Watcher)
  : option error * Watcher :=
  match wps with
  | [] => (None, w)
  | wp :: rest =>
      match addPath sys wp w with
      | (Some e, w') => (Some e, w')
      | (None, w') => add_paths sys rest w'
      end
  end.

(** [(w *Watcher) Start(ctx)], up to the start of [processEvents]. *)
Definition Start (sys : Sys) (w : Watcher) : option error * Watcher :=
  add_paths sys (Watch (cfg w)) w.

(** The loop over the watch paths made for a new directory. *)
Fixpoint watch_new_directory (sys : Sys) (event : FsEvent) (wps : list WatchPath)
         (w : Watcher) : Watcher :=
  match wps with
  | [] => w
  | wp :: rest =>
      let absWatchPath := match Abs sys (Path wp) with inl p => p | inr _ => "" end in
      let absEventPath := match Abs sys (Name event) with inl p => p | inr _ => "" end in
      let absWatchPath := Clean sys absWatchPath in
      let absEventPath := Clean sys absEventPath in
      if Recursive wp && HasPrefix absEventPath absWatchPath
      then watch_new_directory sys event rest (snd (addSingle sys (Name event) w))
      else watch_new_directory sys event rest w
  end.

Definition has_op (op flag : Z) : bool := (Z.land op flag =? flag)%Z.

(** One notification taken from [w.fsWatcher.Events], at time [t] (the
    clock does not go back). *)
Definition handle_event (sys : Sys) (t : Z) (event : FsEvent) (w : Watcher) : Watcher :=
  if shouldIgnore (pf sys) (cfg w) (Name event) then w
  else if has_op (Op event) Chmod then w
  else
    let w1 :=
      if has_op (Op event) Create then
        match Stat sys (Name event) with
        | inl info =>
            if IsDir info then watch_new_directory sys event (Watch (cfg w)) w else w
        | inr _ => w
        end
      else w in
    {| cfg := cfg w1; watched := watched w1; fs_adds := fs_adds w1;
       fs_closed := fs_closed w1;
       debouncer :=
         Add (set_clock (debouncer w1) (Z.max t (clock (debouncer w1))))
             (Name event) (Emit event) |}.

(** [(w *Watcher) Stop()], also what [processEvents] does when the context
    is done. *)
Definition Stop_watcher (w : Watcher) : Watcher :=
  {| cfg := cfg w; watched := watched w; fs_adds := fs_adds w;
     fs_closed := true; debouncer := debouncer w |}.

(** What the manager does in a run. *)
Inductive Operation :=
| OpStart (sys : Sys)
| OpAddSingle (sys : Sys) (path : string)
| OpAddRecursive (sys : Sys) (root : string)
| OpAddPath (sys : Sys) (wp : WatchPath)
| OpEvent (sys : Sys) (t : Z) (event : FsEvent)
| OpError (cause : string)          (* a value from [w.fsWatcher.Errors] *)
| OpTimer (e : DEvent Action)       (* a timer of the debouncer *)
| OpStop.

Definition perform (op : Operation) (w : Watcher) : Watcher :=
  match op with
  | OpStart sys => snd (Start sys w)
  | OpAddSingle sys path => snd (addSingle sys path w)
  | OpAddRecursive sys root => snd (addRecursive sys root w)
  | OpAddPath sys wp => snd (addPath sys wp w)
  | OpEvent sys t event => handle_event sys t event w
  | OpError _ => w
  | OpTimer e =>
      match dstep (debouncer w) e with
      | Some d =>
          {| cfg := cfg w; watched := watched w; fs_adds := fs_adds w;
             fs_closed := fs_closed w; debouncer := d |}
      | None => w
      end
  | OpStop => Stop_watcher w
  end.

(** The set of watched paths: the keys of [watched] mapped to true. *)
Definition is_watched (w : Watcher) (path : string) : Prop :=
  watched w !! path = Some true.

(** No watched path of [w] is missing from [w']. *)
Definition grows (w w' : Watcher) : Prop :=
  forall path, is_watched w path -> is_watched w' path.

(** A run of the manager: operations in the order they happen. *)
Definition perform_all (ops : list Operation) (w : Watcher) : Watcher :=
  foldl (fun w op => perform op w) w ops.

End watcher.

(** ** What a call of the runner starts *)

Module started.

(** The argument vector [executeCommand] hands to [exec.CommandContext]
    for the resolved tokens of a command. *)
Definition argv (goos : string) (tokens : list string) : list string :=
  if String.eqb goos "windows" && runner.needsShell tokens
  then ["cmd.exe"; "/C"; strings.Join tokens " "]
  else tokens.

(** The processes one call of [executeCommand] prepares: none in dry-run
    mode, none for a command without tokens, one otherwise. *)
Definition processes {S : Type} (os : runner.OS S) (r : runner.Runner)
           (path event : string) (cmd : config.Command) : list (list string) :=
  let tokens := runner.replacePlaceholders (config.Cmd cmd) path event in
  if runner.dryRun r then []
  else match tokens with
       | [] => []
       | _ :: _ => [argv (runner.GOOS os) tokens]
       end.

(** The result of a command in dry-run mode. *)
Definition dry_result (path event : string) (cmd : config.Command) : runner.RunResult :=
  {| runner.Command_ := runner.replacePlaceholders (config.Cmd cmd) path event;
     runner.ExitCode := 0;
     runner.Duration := 0;
     runner.Error := None |}.

(** The processes of the commands whose goroutine has returned from its
    [executeCommand], in the order of the command list. *)
Fixpoint processes_of_finished {S : Type} (os : runner.OS S) (r : runner.Runner)
         (path event : string) (gs : list runner.goroutine)
         (commands : list config.Command) : list (list string) :=
  match gs, commands with
  | g :: gs', cmd :: commands' =>
      match g with
      | runner.Finished => processes os r path event cmd
      | _ => []
      end ++ processes_of_finished os r path event gs' commands'
  | _, _ => []
  end.

End started.

(** ** Package [config]: loading and validating a configuration *)

Module configfile.

Import strings config.

(** The errors of [Load] and [Validate]; an index is the position of the
    watch path or of the command at fault. *)
Inductive error :=
| ErrRead (cause : string)                  (* failed to read config *)
| ErrUnmarshal (cause : string)             (* failed to unmarshal config *)
| ErrNoWatchPath                            (* at least one watch path is required *)
| ErrDebounce (value : string)              (* invalid debounce duration *)
| ErrPathEmpty (i : nat)                    (* watch path i: path is empty *)
| ErrPathInvalid (i : nat) (path cause : string)  (* watch path i: invalid path *)
| ErrPathMissing (i : nat) (absPath : string)     (* watch path i does not exist *)
| ErrNoCommand                              (* at least one command is required *)
| ErrCmdEmpty (i : nat)                     (* command i: cmd is empty *)
| ErrTimeout (i : nat) (value : string)     (* command i: invalid timeout *)
| ErrMaxConcurrency.                        (* max_concurrency must be at least 1 *)

(** What [viper] makes of a configuration file: [ReadInConfig] fails,
    [Unmarshal] fails, or the file is read into a [Config]. *)
Inductive Viper :=
| ReadFailed (cause : string)
| UnmarshalFailed (cause : string)
| Unmarshalled (cfg : Config).

Section Validate.

Context {I : Type}.

Variable ParseDuration : string -> option Z.     (* time.ParseDuration *)
Variable Abs : string -> string + string.        (* filepath.Abs: the path, or the error *)
Variable Stat : string -> I + string.            (* os.Stat: the info, or the error *)
Variable viper : string -> Viper.                (* the file at a path, as viper reads it *)

(** The loop of [Validate] over the watch paths, from index [i] on. *)
Fixpoint validate_watch (i : nat) (watch : list WatchPath) : option error :=
  match watch with
  | [] => None
  | w :: rest =>
      if String.eqb (Path w) "" then Some (ErrPathEmpty i)
      else
        match Abs (Path w) with
        | inr cause => Some (ErrPathInvalid i (Path w) cause)
        | inl absPath =>
            match Stat absPath with
            | inr _ => Some (ErrPathMissing i absPath)
            | inl _ => validate_watch (S i) rest
            end
        end
  end.

(** The loop of [Validate] over the commands, from index [i] on. *)
Fixpoint validate_commands (i : nat) (commands : list Command) : option error :=
  match commands with
  | [] => None
  | cmd :: rest =>
      if (length (Cmd cmd) =? 0)%nat then Some (ErrCmdEmpty i)
      else if String.eqb (Timeout cmd) "" then validate_commands (S i) rest
      else
        match ParseDuration (Timeout cmd) with
        | None => Some (ErrTimeout i (Timeout cmd))
        | Some _ => validate_commands (S i) rest
        end
  end.

(** [(c *Config) Validate()]; [None] is [nil]. *)
Definition Validate (c : Config) : option error :=
  if (length (Watch c) =? 0)%nat then Some ErrNoWatchPath
  else
    match ParseDuration (Debounce c) with
    | None => Some (ErrDebounce (Debounce c))
    | Some _ =>
        match validate_watch 0 (Watch c) with
        | Some e => Some e
        | None =>
            if (length (Commands (Config_OnChange c)) =? 0)%nat then Some ErrNoCommand
            else
              match validate_commands 0 (Commands (Config_OnChange c)) with
              | Some e => Some e
              | None =>
                  if (MaxConcurrency c <? 1)%Z then Some ErrMaxConcurrency
                  else None
              end
        end
    end.

(** [(c *Config) GetDebounceDuration()]: the error of the parse is
    dropped, which leaves the zero duration. *)
Definition GetDebounceDuration (c : Config) : Z :=
  match ParseDuration (Debounce c) with
  | Some d => d
  | None => 0%Z
  end.

(** What [Validate] asks of a watch path and of a command. *)
Definition watch_ok (w : WatchPath) : Prop :=
  Path w <> ""
  /\ exists absPath info, Abs (Path w) = inl absPath /\ Stat absPath = inl info.

Definition command_ok (cmd : Command) : Prop :=
  Cmd cmd <> []
  /\ (Timeout cmd = "" \/ is_Some (ParseDuration (Timeout cmd))).

(** [Load(configPath)] *)
Definition Load (configPath : string) : Config + error :=
  match viper configPath with
  | ReadFailed cause => inr (ErrRead cause)
  | UnmarshalFailed cause => inr (ErrUnmarshal cause)
  | Unmarshalled cfg =>
      let cfg :=
        if String.eqb (Debounce cfg) ""
        then {| Watch := Watch cfg; Config_OnChange := Config_OnChange cfg;
                Debounce := "250ms"; MaxConcurrency := MaxConcurrency cfg |}
        else cfg in
      let cfg :=
        if (MaxConcurrency cfg =? 0)%Z
        then {| Watch := Watch cfg; Config_OnChange := Config_OnChange cfg;
                Debounce := Debounce cfg; MaxConcurrency := 2 |}
        else cfg in
      match Validate cfg with
      | Some e => inr e
      | None => inl cfg
      end
  end.

End Validate.

End configfile.

(** ** Package [config]: project detection and the files of [init] *)

Module detect.

Import strings.

(** *** The file system *)

(** How a write to a path that can be reached ends. *)
Inductive WriteOutcome :=
| Written                                  (* the file holds the data *)
| NotOpened (cause : string)               (* the file was neither opened nor made *)
| Cut (cause : string) (written : string). (* opened and truncated, then the
                                              write failed: the file holds [written] *)

(** The operating system as the package meets it.  A path names a file,
    the same one for a relative path and for the absolute path it stands
    for; a path whose resolution fails can neither be examined nor
    written. *)
Record Os := {
  GOOS : string;                           (* runtime.GOOS *)
  Getwd : string;                          (* os.Getwd; the empty path when it fails *)
  Join : string -> string -> string;       (* filepath.Join(dir, name) *)
  resolve : string -> string;              (* the file a path names *)
  unreachable : string -> option string;   (* the error of resolving the path *)
  write : string -> string -> gmap string string -> WriteOutcome;
}.

(** The files that exist, with their contents. *)
Abbreviation Files := (gmap string string).

(** [os.Stat(path)] returns no error. *)
Definition Stat (os : Os) (files : Files) (path : string) : bool :=
  match unreachable os path with
  | Some _ => false
  | None => bool_decide (is_Some (files !! resolve os path))
  end.

(** [os.WriteFile(path, data, 0644)]: the error, if any, and the files
    left. *)
Definition WriteFile (os : Os) (path data : string) (files : Files)
  : option string * Files :=
  match unreachable os path with
  | Some cause => (Some cause, files)
  | None =>
      match write os path data files with
      | Written => (None, <[resolve os path := data]> files)
      | NotOpened cause => (Some cause, files)
      | Cut cause written => (Some cause, <[resolve os path := written]> files)
      end
  end.

(** *** The text constants *)

(** The constants hold double quotes; they are written here line by
    line with single quotes in their place (none of them holds a single
    quote), and [text] puts the double quotes back and ends every line. *)
Definition requote (c : ascii) : ascii :=
  if Ascii.eqb c "'" then ascii_of_nat 34 else c.

Fixpoint requoted (s : string) : string :=
  match s with
  | EmptyString => EmptyString
  | String c s' => String (requote c) (requoted s')
  end.

Definition newline : string := String (ascii_of_nat 10) EmptyString.

Fixpoint text (lines : list string) : string :=
  match lines with
  | [] => EmptyString
  | line :: rest => requoted line +:+ newline +:+ text rest
  end.

Definition goTemplate : string :=
  text [
    "# GoWatch Configuration for Go Project";
    "watch:";
    "  - path: './'";
    "    recursive: true";
    "    ignore:";
    "      - '**/vendor/**'";
    "      - '**/*.exe'";
    "      - '**/bin/**'";
    "      - '.git/**'";
    "";
    "on_change:";
    "  commands:";
    "    - cmd: ['go', 'fmt', './...']";
    "      timeout: '30s'";
    "    - cmd: ['go', 'test', '-v', './...']";
    "      timeout: '120s'";
    "    - cmd: ['go', 'build', './...']";
    "      timeout: '90s'";
    "";
    "debounce: '500ms'";
    "max_concurrency: 1"
  ].

Definition pythonTemplate : string :=
  text [
    "# GoWatch Configuration for Python Project";
    "watch:";
    "  - path: './'";
    "    recursive: true";
    "    ignore:";
    "      - '**/__pycache__/**'";
    "      - '**/venv/**'";
    "      - '**/env/**'";
    "      - '**/.pytest_cache/**'";
    "      - '.git/**'";
    "";
    "on_change:";
    "  commands:";
    "    - cmd: ['python', '-m', 'pytest', '-v']";
    "      timeout: '120s'";
    "";
    "debounce: '500ms'";
    "max_concurrency: 1"
  ].

Definition rustTemplate : string :=
  text [
    "# GoWatch Configuration for Rust Project";
    "watch:";
    "  - path: './src'";
    "    recursive: true";
    "  - path: 'Cargo.toml'";
    "";
    "ignore:";
    "  - '**/target/**'";
    "  - '.git/**'";
    "";
    "on_change:";
    "  commands:";
    "    - cmd: ['cargo', 'check']";
    "      timeout: '60s'";
    "    - cmd: ['cargo', 'test']";
    "      timeout: '180s'";
    "    - cmd: ['cargo', 'build']";
    "      timeout: '120s'";
    "";
    "debounce: '750ms'";
    "max_concurrency: 1"
  ].

Definition nodeTemplate : string :=
  text [
    "# GoWatch Configuration for Node.js/TypeScript Project";
    "watch:";
    "  - path: './src'";
    "    recursive: true";
    "";
    "ignore:";
    "  - '**/node_modules/**'";
    "  - '**/dist/**'";
    "  - '**/build/**'";
    "  - '.git/**'";
    "";
    "on_change:";
    "  commands:";
    "    - cmd: ['npm', 'run', 'lint']";
    "      timeout: '60s'";
    "    - cmd: ['npm', 'test']";
    "      timeout: '120s'";
    "    - cmd: ['npm', 'run', 'build']";
    "      timeout: '180s'";
    "";
    "debounce: '500ms'";
    "max_concurrency: 1"
  ].

Definition defaultTemplate : string :=
  text [
    "# GoWatch Configuration";
    "watch:";
    "  - path: './'";
    "    recursive: true";
    "    ignore:";
    "      - 'vendor/**'";
    "      - '.git/**'";
    "      - '**/*.tmp'";
    "";
    "on_change:";
    "  commands:";
    "    - cmd: ['echo', 'File changed: {path}']";
    "";
    "debounce: '250ms'";
    "max_concurrency: 2"
  ].

(** The text [WriteExampleIgnore] starts from. *)
Definition exampleIgnore : string :=
  text [
    "# GoWatch Ignore File";
    "# Similar to .gitignore - patterns to exclude from watching";
    "";
    "# Dependencies";
    "vendor/";
    "node_modules/";
    "";
    "# Version control";
    ".git/";
    ".svn/";
    "";
    "# Temp files";
    "*.tmp";
    "*.log";
    "*.swp";
    "*~";
    "";
    "# Build outputs";
    "*.exe";
    "*.dll";
    "*.so";
    "*.dylib";
    "dist/";
    "build/";
    "";
    "# IDE";
    ".idea/";
    ".vscode/";
    "*.iml";
    "";
    "# OS";
    ".DS_Store";
    "Thumbs.db";
    "Desktop.ini"
  ].

(** What [WriteExampleIgnore] adds to it on Windows. *)
Definition windowsIgnore : string :=
  text [
    "";
    "# Windows-specific";
    "~$*";
    "*.lnk";
    "$RECYCLE.BIN/";
    "System Volume Information/"
  ].

(** *** Project detection *)

Definition ProjectType := string.

Definition ProjectGo : ProjectType := "go".
Definition ProjectPython : ProjectType := "python".
Definition ProjectRust : ProjectType := "rust".
Definition ProjectNode : ProjectType := "node".
Definition ProjectTypeScript : ProjectType := "typescript".
Definition ProjectUnknown : ProjectType := "unknown".

Inductive error :=
| ErrExists (configPath : string)          (* config file already exists *)
| ErrWrite (cause : string)                (* failed to write config *)
| ErrWriteIgnore (cause : string).         (* failed to write example ignore file *)

Section Detect.

Variable os : Os.

(** [fileExists(path)] *)
Definition fileExists (files : Files) (path : string) : bool := Stat os files path.

(** [DetectProjectType(path)] *)
Definition DetectProjectType (files : Files) (path : string) : ProjectType :=
  if fileExists files (Join os path "go.mod") then ProjectGo
  else if fileExists files (Join os path "Cargo.toml") then ProjectRust
  else if fileExists files (Join os path "pyproject.toml")
          || fileExists files (Join os path "setup.py")
          || fileExists files (Join os path "requirements.txt")
          || fileExists files (Join os path "Pipfile")
          || fileExists files (Join os path "poetry.lock")
  then ProjectPython
  else if fileExists files (Join os path "package.json") then
    if fileExists files (Join os path "tsconfig.json") then ProjectTypeScript
    else ProjectNode
  else ProjectUnknown.

(** [GetTemplateForType(projectType)] *)
Definition GetTemplateForType (projectType : ProjectType) : string :=
  if String.eqb projectType ProjectGo then goTemplate
  else if String.eqb projectType ProjectPython then pythonTemplate
  else if String.eqb projectType ProjectRust then rustTemplate
  else if String.eqb projectType ProjectNode
          || String.eqb projectType ProjectTypeScript
  then nodeTemplate
  else defaultTemplate.

(** [GetProjectTypeName(pt)] *)
Definition GetProjectTypeName (pt : ProjectType) : string :=
  if String.eqb pt ProjectGo then "Go"
  else if String.eqb pt ProjectPython then "Python"
  else if String.eqb pt ProjectRust then "Rust"
  else if String.eqb pt ProjectNode then "Node.js"
  else if String.eqb pt ProjectTypeScript then "TypeScript"
  else "Unknown".

(** [WriteTemplateForProject(path)] *)
Definition WriteTemplateForProject (path : string) (files : Files)
  : option error * Files :=
  let projectType := DetectProjectType files path in
  let template := GetTemplateForType projectType in
  let configPath := Join os path "gowatch.yaml" in
  if Stat os files configPath then (Some (ErrExists configPath), files)
  else
    match WriteFile os configPath template files with
    | (Some cause, files') => (Some (ErrWrite cause), files')
    | (None, files') => (None, files')
    end.

(** [WriteExampleIgnore(path)] *)
Definition WriteExampleIgnore (path : string) (files : Files)
  : option error * Files :=
  let exampleIgnore :=
    if String.eqb (GOOS os) "windows" then exampleIgnore +:+ windowsIgnore
    else exampleIgnore in
  match WriteFile os path exampleIgnore files with
  | (Some cause, files') => (Some (ErrWriteIgnore cause), files')
  | (None, files') => (None, files')
  end.

End Detect.

End detect.

(** ** Package [main]: the commands [run] and [init] *)

Module main.

Import strings config.

(** The flags of the [run] command. *)
Record Flags := {
  cfgFile : string;
  watchPath : string;
  command : string;
  debounce : string;
  dryRun : bool;
  verbose : bool;
  sequential : bool;
  noColor : bool;
  timeout : string;
  maxConcur : Z;
}.

(** The package variables as they are declared: zero values. *)
Definition zero_flags : Flags :=
  {| cfgFile := ""; watchPath := ""; command := ""; debounce := "";
     dryRun := false; verbose := false; sequential := false; noColor := false;
     timeout := ""; maxConcur := 0 |}.

(** A value stored in the variable of a flag: by [StringVarP], [BoolVar]
    or [IntVar], which store the default of the flag when they bind it, or
    by the command line when the flag is given there. *)
Inductive FlagValue :=
| ConfigFlag (v : string)             (* --config, -c *)
| PathFlag (v : string)               (* --path, -p *)
| CmdFlag (v : string)                (* --cmd *)
| DebounceFlag (v : string)           (* --debounce, -d *)
| DryRunFlag (v : bool)               (* --dry-run *)
| VerboseFlag (v : bool)              (* --verbose, -v *)
| SequentialFlag (v : bool)           (* --sequential *)
| NoColorFlag (v : bool)              (* --no-color *)
| TimeoutFlag (v : string)            (* --timeout *)
| MaxConcurrencyFlag (v : Z).         (* --max-concurrency *)

Definition set_flag (f : Flags) (a : FlagValue) : Flags :=
  match a with
  | ConfigFlag v =>
      {| cfgFile := v; watchPath := watchPath f; command := command f;
         debounce := debounce f; dryRun := dryRun f; verbose := verbose f;
         sequential := sequential f; noColor := noColor f; timeout := timeout f;
         maxConcur := maxConcur f |}
  | PathFlag v =>
      {| cfgFile := cfgFile f; watchPath := v; command := command f;
         debounce := debounce f; dryRun := dryRun f; verbose := verbose f;
         sequential := sequential f; noColor := noColor f; timeout := timeout f;
         maxConcur := maxConcur f |}
  | CmdFlag v =>
      {| cfgFile := cfgFile f; watchPath := watchPath f; command := v;
         debounce := debounce f; dryRun := dryRun f; verbose := verbose f;
         sequential := sequential f; noColor := noColor f; timeout := timeout f;
         maxConcur := maxConcur f |}
  | DebounceFlag v =>
      {| cfgFile := cfgFile f; watchPath := watchPath f; command := command f;
         debounce := v; dryRun := dryRun f; verbose := verbose f;
         sequential := sequential f; noColor := noColor f; timeout := timeout f;
         maxConcur := maxConcur f |}
  | DryRunFlag v =>
      {| cfgFile := cfgFile f; watchPath := watchPath f; command := command f;
         debounce := debounce f; dryRun := v; verbose := verbose f;
         sequential := sequential f; noColor := noColor f; timeout := timeout f;
         maxConcur := maxConcur f |}
  | VerboseFlag v =>
      {| cfgFile := cfgFile f; watchPath := watchPath f; command := command f;
         debounce := debounce f; dryRun := dryRun f; verbose := v;
         sequential := sequential f; noColor := noColor f; timeout := timeout f;
         maxConcur := maxConcur f |}
  | SequentialFlag v =>
      {| cfgFile := cfgFile f; watchPath := watchPath f; command := command f;
         debounce := debounce f; dryRun := dryRun f; verbose := verbose f;
         sequential := v; noColor := noColor f; timeout := timeout f;
         maxConcur := maxConcur f |}
  | NoColorFlag v =>
      {| cfgFile := cfgFile f; watchPath := watchPath f; command := command f;
         debounce := debounce f; dryRun := dryRun f; verbose := verbose f;
         sequential := sequential f; noColor := v; timeout := timeout f;
         maxConcur := maxConcur f |}
  | TimeoutFlag v =>
      {| cfgFile := cfgFile f; watchPath := watchPath f; command := command f;
         debounce := debounce f; dryRun := dryRun f; verbose := verbose f;
         sequential := sequential f; noColor := noColor f; timeout := v;
         maxConcur := maxConcur f |}
  | MaxConcurrencyFlag v =>
      {| cfgFile := cfgFile f; watchPath := watchPath f; command := command f;
         debounce := debounce f; dryRun := dryRun f; verbose := verbose f;
         sequential := sequential f; noColor := noColor f; timeout := timeout f;
         maxConcur := v |}
  end.

(** [init]: the flags of [run] are bound to the variables, then the
    [--config] flag of [test-config], to the variable [cfgFile] once more;
    each binding stores its default, so that [cfgFile] is left with the
    default of [test-config]. *)
Definition init_flags : Flags :=
  foldl set_flag zero_flags
    [ConfigFlag ""; PathFlag ""; CmdFlag ""; DebounceFlag "250ms";
     DryRunFlag false; VerboseFlag false; SequentialFlag false;
     NoColorFlag false; TimeoutFlag "60s"; MaxConcurrencyFlag 2;
     ConfigFlag "gowatch.yaml"].

(** What [runWatch] finds in the variables when [run] is called with the
    flags [args] on its command line: a flag that is given is stored, in
    the order of the command line, and a flag that is not given leaves its
    variable as [init] left it. *)
Definition run_flags (args : list FlagValue) : Flags :=
  foldl set_flag init_flags args.

Definition is_config (a : FlagValue) : bool :=
  match a with ConfigFlag _ => true | _ => false end.

Inductive error :=
| ErrLoad (e : configfile.error)       (* failed to load config *)
| ErrCmdRequired                       (* --cmd is required when not using a config file *)
| ErrInvalid (e : configfile.error).   (* invalid configuration *)

Section runWatch.

Context {I : Type}.

Variable goos : string.                          (* runtime.GOOS *)
Variable ParseDuration : string -> option Z.
Variable Abs : string -> string + string.
Variable Stat : string -> I + string.
Variable viper : string -> configfile.Viper.

(** The part of [runWatch] that loads the configuration or builds it from
    the flags: the configuration the watcher and the runner are made
    from, or the error returned. *)
Definition runWatch_config (flags : Flags) : Config + error :=
  if negb (String.eqb (cfgFile flags) "")
     || (String.eqb (watchPath flags) "" && String.eqb (command flags) "")
  then
    let cfgFile := if String.eqb (cfgFile flags) "" then "gowatch.yaml"
                   else cfgFile flags in
    match configfile.Load ParseDuration Abs Stat viper cfgFile with
    | inr e => inr (ErrLoad e)
    | inl cfg => inl cfg
    end
  else
    let watchPath := if String.eqb (watchPath flags) "" then "."
                     else watchPath flags in
    if String.eqb (command flags) "" then inr ErrCmdRequired
    else
      let shellCmd :=
        if String.eqb goos "windows" then ["cmd"; "/C"; command flags]
        else ["sh"; "-c"; command flags] in
      let cfg :=
        {| Watch := [{| Path := watchPath; Recursive := true; Ignore := [] |}];
           Config_OnChange :=
             {| Commands := [{| Cmd := shellCmd; Run := ""; Timeout := timeout flags |}] |};
           Debounce := debounce flags;
           MaxConcurrency := maxConcur flags |} in
      match configfile.Validate ParseDuration Abs Stat cfg with
      | Some e => inr (ErrInvalid e)
      | None => inl cfg
      end.

End runWatch.

Inductive init_error :=
| ErrInitConfig (e : detect.error)     (* failed to write config *)
| ErrInitIgnore (e : detect.error).    (* failed to write example ignore *)

(** [initConfig]: the error returned and the files left. *)
Definition initConfig (os : detect.Os) (files : detect.Files)
  : option init_error * detect.Files :=
  let cwd := detect.Getwd os in
  let configPath := "gowatch.yaml" in
  let ignorePath := ".gowatchignore" in
  let configExists := detect.Stat os files configPath in
  let ignoreExists := detect.Stat os files ignorePath in
  let '(err, files1) :=
    if negb configExists then detect.WriteTemplateForProject os cwd files
    else (None, files) in
  match err with
  | Some e => (Some (ErrInitConfig e), files1)
  | None =>
      if negb ignoreExists then
        match detect.WriteExampleIgnore os ignorePath files1 with
        | (Some e, files2) => (Some (ErrInitIgnore e), files2)
        | (None, files2) => (None, files2)
        end
      else (None, files1)
  end.

End main.

(** ** What a recursive registration reaches *)

Module reach.

Import strings config watcher.

(** The directories a walk from [path] comes to and does not skip: a
    directory that can be read and is not ignored and, below it, the
    directories its entries come to.  Nothing below an ignored directory
    is reached, and a file never is. *)
Fixpoint reached (sys : Sys) (cfg : Config) (path : string) (t : Tree)
  : list string :=
  match t with
  | Dir None entries =>
      if shouldIgnore (pf sys) cfg path then []
      else path :: reached_entries sys cfg path entries
  | Dir (Some _) _ | File | Broken _ => []
  end
with reached_entries (sys : Sys) (cfg : Config) (path : string)
       (entries : Entries) : list string :=
  match entries with
  | NoEntry => []
  | Entry name t rest =>
      reached sys cfg (Join2 sys path name) t ++ reached_entries sys cfg path rest
  end.

(** What [Start] has to watch for one watch path: the directories reached
    from it when it is a directory watched recursively, the path itself
    otherwise. *)
Definition wanted (sys : Sys) (cfg : Config) (absPath : string)
           (info : FileInfo) (wp : WatchPath) : list string :=
  if IsDir info && Recursive wp
  then reached sys cfg absPath (Lstat sys absPath)
  else [absPath].

(** What a walk leaves, given the paths it reaches: the configuration is
    kept, what was watched stays watched, what is newly watched was
    reached, and when the walk ends without an error (a skipped directory
    is none) all that was reached is watched. *)
Definition walk_ok (w : Watcher) (reached : list string)
           (r : option WalkError * Watcher) : Prop :=
  cfg r.2 = cfg w
  /\ grows w r.2
  /\ (forall p, is_watched r.2 p -> is_watched w p \/ In p reached)
  /\ (r.1 = None \/ r.1 = Some SkipDir -> forall p, In p reached -> is_watched r.2 p).

(** Every watched path has been given to [fsWatcher.Add], and the map
    holds no entry that is false. *)
Definition registered (w : Watcher) : Prop :=
  forall path b, watched w !! path = Some b -> b = true /\ In path (fs_adds w).

End reach.

(** ** The tables of the debouncer *)

Module debounce.

Import watcher.

Section Tables.

Context {A : Type}.

(** The two maps of a debouncer hold the same keys, and a key they hold
    has a timer that waits or a function that was started. *)
Record tables_ok (d : Debouncer A) : Prop := {
  tables_same_keys :
    forall key, is_Some (timers d !! key) <-> is_Some (pending d !! key);
  tables_live :
    forall key, is_Some (timers d !! key) ->
                (exists timer, armed_for key d timer)
                \/ (exists timer, started_for key d timer);
}.

(** The actions taken for a key are among those added for it so far, in
    the order they were added; the action that is pending is the last one
    added and has not been taken. *)
Definition calls_ok (key : string) (d : Debouncer A) (added : list A) : Prop :=
  match pending d !! key with
  | Some fn =>
      exists before, added = before ++ [fn] /\ sublist (executed_for key d) before
  | None => sublist (executed_for key d) added
  end.

End Tables.

(** *** The calls *)

(** A timer function calls the action it has taken after it has released
    the lock, in its own goroutine: between its locked section and its
    call, other timer functions can take their actions and call them.  A
    state holds, besides the debouncer, the actions that goroutines hold
    and have not called yet, and the calls made, oldest first. *)

Section Calls.

Context {A : Type}.

(** What the event [e] puts in the hands of a goroutine: the action the
    timer function takes in its locked section, [fn := d.pending[key]],
    when there is one ([if fn != nil]). *)
Definition taken_by (d : Debouncer A) (e : DEvent A) : list (string * A) :=
  match e with
  | EvRun _ timer =>
      match started d !! timer with
      | Some key =>
          match pending d !! key with
          | Some fn => [(key, fn)]
          | None => []
          end
      | None => []
      end
  | _ => []
  end.

Record Calls := {
  deb : Debouncer A;
  holding : list (string * A);
  called : list (string * A);
}.

Definition NewCalls (delay : Z) : Calls :=
  {| deb := NewDebouncer delay; holding := []; called := [] |}.

(** An event of the debouncer, or the call [fn()] by the goroutine that
    holds the action at place [i]. *)
Inductive CEvent :=
| CDebouncer (e : DEvent A)
| CCall (i : nat).

Definition cstep (c : Calls) (e : CEvent) : option Calls :=
  match e with
  | CDebouncer e =>
      match dstep (deb c) e with
      | Some d =>
          Some {| deb := d; holding := holding c ++ taken_by (deb c) e;
                  called := called c |}
      | None => None
      end
  | CCall i =>
      match holding c !! i with
      | Some a =>
          Some {| deb := deb c; holding := delete i (holding c);
                  called := called c ++ [a] |}
      | None => None
      end
  end.

Fixpoint crun (c : Calls) (es : list CEvent) : option Calls :=
  match es with
  | [] => Some c
  | e :: rest =>
      match cstep c e with
      | Some c' => crun c' rest
      | None => None
      end
  end.

(** The events of the debouncer among those of a run. *)
Fixpoint debouncer_events (es : list CEvent) : list (DEvent A) :=
  match es with
  | [] => []
  | CDebouncer e :: rest => e :: debouncer_events rest
  | CCall _ :: rest => debouncer_events rest
  end.

(** The actions of a key in a list of actions with their keys. *)
Definition for_key (key : string) (l : list (string * A)) : list A :=
  map snd (filter (fun p => fst p = key) l).

End Calls.

Arguments Calls : clear implicits.
Arguments CEvent : clear implicits.

(** An operation in which [Add] is not called from outside: the
    debouncer of a watcher is given its actions by the handling of
    notifications only, and its timers expire and run. *)
Definition add_by_event (op : Operation) : Prop :=
  match op with
  | OpTimer (EvAdd _ _ _) => False
  | _ => True
  end.

(** The action is the sending of a notification that was handled in the
    run and accepted there: its name is the key, it is not ignored, and
    its operation includes no permission change. *)
Definition accepted (cfg : config.Config) (ops : list Operation)
           (key : string) (a : Action) : Prop :=
  exists sys t event,
    In (OpEvent sys t event) ops
    /\ a = Emit event
    /\ key = Name event
    /\ shouldIgnore (pf sys) cfg (Name event) = false
    /\ has_op (Op event) Chmod = false.




(** What is pending in the debouncer of a watcher and what its timer
    functions have taken are sendings of accepted notifications. *)
Definition emits_ok (cfg : config.Config) (ops : list Operation) (w : Watcher)
  : Prop :=
  watcher.cfg w = cfg
  /\ (forall key a, pending (debouncer w) !! key = Some a -> accepted cfg ops key a)
  /\ (forall key a, In (key, a) (executed (debouncer w)) -> accepted cfg ops key a).

(** *** The sending *)
















End debounce.

(** ** What the specification says *)

(** Definitions that follow the words of the specification, to compare the
    code with. *)
Module spec.

Import strings.

(** "[{path}] and [{event}] replaced with the triggering change's path
    and operation kind, verbatim": one pass over the token in which each
    placeholder found is replaced and what was inserted is not read
    again. *)
Fixpoint substitute_scan (path event s : string) (skip : nat) : string :=
  match s with
  | EmptyString => EmptyString
  | String c s' =>
      match skip with
      | S k => substitute_scan path event s' k
      | O =>
          if HasPrefix s "{path}" then path +:+ substitute_scan path event s' 5
          else if HasPrefix s "{event}" then event +:+ substitute_scan path event s' 6
          else String c (substitute_scan path event s' 0)
      end
  end.

Definition substitute (path event token : string) : string :=
  substitute_scan path event token 0.

(** Every byte of the string satisfies [f]. *)
Fixpoint all_bytes (f : ascii -> bool) (s : string) : bool :=
  match s with
  | EmptyString => true
  | String c s' => f c && all_bytes f s'
  end.

Definition no_brace (s : string) : bool :=
  all_bytes (fun c => negb (Ascii.eqb c "{")) s.

(** No occurrence of [t] can begin inside [s]: none of the suffixes of [s],
    the empty one apart, starts with [t] or is the start of [t]. *)
Fixpoint no_overlap (s t : string) : bool :=
  match s with
  | EmptyString => true
  | String _ s' =>
      negb (strings.HasPrefix s t) && negb (strings.HasPrefix t s) && no_overlap s' t
  end.

(** A path that cannot take part in an occurrence of [{event}]: no
    occurrence can begin inside the path, and none that began before the
    path can go on into it or across it.  (It follows that the path is not
    empty.)  Every path without braces that has a byte outside [event] is
    one, such as [/tmp/test.go]. *)
Definition plain_path (path : string) : bool :=
  no_overlap path "{event}" && no_overlap "event}" path.

(** "Commands run strictly in list order; after each command, if its
    result indicates failure (nonzero exit code), the chain stops
    immediately.  Partial results (for the commands that did run) are
    returned." *)
Fixpoint run_until_failure {S : Type} (os : runner.OS S) (r : runner.Runner)
         (commands : list config.Command) (eventPath eventType : string)
  : runner.M S (list runner.RunResult) :=
  match commands with
  | [] => runner.ret []
  | cmd :: rest =>
      runner.bind (runner.executeCommand os r cmd eventPath eventType)
        (fun result =>
           if (runner.ExitCode result =? 0)%Z
           then runner.bind (run_until_failure os r rest eventPath eventType)
                  (fun results => runner.ret (result :: results))
           else runner.ret [result])
  end.

End spec.

(** ** Concrete settings for the examples *)

(** An operating system for examples: the clock stands still, [false]
    exits with status 1 and every other command succeeds. *)
Definition example_os : runner.OS unit :=
  {| runner.GOOS := "linux";
     runner.ParseDuration := fun _ => None;
     runner.Now := fun s => (0%Z, s);
     runner.Exec := fun argv _ s =>
       match argv with
       | "false" :: _ => (runner.Waited (runner.WaitExitError 1), s)
       | _ => (runner.Waited runner.WaitNil, s)
       end |}.

Definition example_windows : runner.OS unit :=
  {| runner.GOOS := "windows";
     runner.ParseDuration := fun _ => None;
     runner.Now := fun s => (0%Z, s);
     runner.Exec := fun _ _ s => (runner.Waited runner.WaitNil, s) |}.

Definition example_world : runner.World unit :=
  {| runner.os_state := tt; runner.prepared := [] |}.

Definition example_config (commands : list (list string)) (max : Z) : config.Config :=
  {| config.Watch := [];
     config.Config_OnChange :=
       {| config.Commands :=
            map (fun c => {| config.Cmd := c; config.Run := ""; config.Timeout := "" |})
                commands |};
     config.Debounce := "100ms";
     config.MaxConcurrency := max |}.

(** A file system in which every path is a directory without entries, and
    a notification facility that accepts every path. *)
Definition example_sys : watcher.Sys :=
  {| watcher.pf := filepath.unix;
     watcher.Abs := fun p => inl p;
     watcher.Clean := fun p => p;
     watcher.Join2 := fun dir name => dir +:+ "/" +:+ name;
     watcher.Stat := fun _ => inl {| watcher.IsDir := true |};
     watcher.Lstat := fun _ => watcher.Dir None watcher.NoEntry;
     watcher.fsnotify_Add := fun _ _ => None |}.

Definition example_watch_config (ignore : list string) : config.Config :=
  {| config.Watch :=
       [{| config.Path := "/srv/app"; config.Recursive := true;
           config.Ignore := ignore |}];
     config.Config_OnChange := {| config.Commands := [] |};
     config.Debounce := "100ms";
     config.MaxConcurrency := 1 |}.

(** The watcher of [/srv/app] after [Start]. *)
Definition example_watcher : watcher.Watcher :=
  (watcher.Start example_sys
     (watcher.New (example_watch_config ["*.tmp"; "vendor/**"; ".git/**"]) 100)).2.

(** A burst for the key [k] with a delay of 100: three calls 20 apart, a
    call for another key in between, and the timers that are left expiring
    and running.  The actions are numbers. *)
Definition example_trace : list (watcher.DEvent nat) :=
  [watcher.EvAdd 0 "k" 1; watcher.EvAdd 20 "k" 2; watcher.EvAdd 30 "other" 7;
   watcher.EvAdd 40 "k" 3;
   watcher.EvExpire 130 2; watcher.EvRun 131 2;
   watcher.EvExpire 140 3; watcher.EvRun 150 3].

Definition example_debounced : watcher.Debouncer nat :=
  default (watcher.NewDebouncer 100)
          (watcher.drun (watcher.NewDebouncer 100) example_trace).

(** A second burst for [k], begun when the first is over: two calls 20
    apart, and the timer of the second expiring and running. *)
Definition example_second_burst : list (watcher.DEvent nat) :=
  [watcher.EvAdd 300 "k" 4; watcher.EvAdd 320 "k" 5;
   watcher.EvExpire 420 5; watcher.EvRun 420 5].

Definition example_debounced_again : watcher.Debouncer nat :=
  default example_debounced (watcher.drun example_debounced example_second_burst).

(** ** Concrete settings for the examples of Part III *)

(** A parser that knows three durations, a file system that holds
    [/srv/app] only, and a configuration file [gowatch.yaml] that sets
    neither the debounce interval nor the maximum concurrency. *)
Definition example_parse (s : string) : option Z :=
  if String.eqb s "100ms" then Some 100000000%Z
  else if String.eqb s "250ms" then Some 250000000%Z
  else if String.eqb s "60s" then Some 60000000000%Z
  else None.

Definition example_stat (path : string) : unit + string :=
  if String.eqb path "/srv/app" then inl tt else inr "no such file or directory".

Definition example_file : config.Config :=
  {| config.Watch :=
       [{| config.Path := "/srv/app"; config.Recursive := true; config.Ignore := [] |}];
     config.Config_OnChange :=
       {| config.Commands :=
            [{| config.Cmd := ["go"; "test"; "./..."]; config.Run := "";
                config.Timeout := "60s" |}] |};
     config.Debounce := "";
     config.MaxConcurrency := 0 |}.

Definition example_viper (path : string) : configfile.Viper :=
  if String.eqb path "gowatch.yaml" then configfile.Unmarshalled example_file
  else configfile.ReadFailed "no such file or directory".







(** A command line of [run] with a path and a command, and the same with
    an empty [--config] before them. *)
Definition example_args : list main.FlagValue :=
  [main.PathFlag "/srv/app"; main.CmdFlag "go test {path} && echo {event}"].

Definition example_args_no_file : list main.FlagValue :=
  main.ConfigFlag "" :: example_args.

(** The example operating systems with the parser of the examples. *)
Definition example_linux : runner.OS unit :=
  {| runner.GOOS := "linux";
     runner.ParseDuration := example_parse;
     runner.Now := fun s => (0%Z, s);
     runner.Exec := fun _ _ s => (runner.Waited runner.WaitNil, s) |}.

(** A project directory that holds [go.mod] and a configuration file,
    on a system on which every write succeeds. *)
Definition example_files_os : detect.Os :=
  {| detect.GOOS := "linux";
     detect.Getwd := "/srv/app";
     detect.Join := fun dir name => dir +:+ "/" +:+ name;
     detect.resolve := fun path =>
       if strings.HasPrefix path "/" then path else "/srv/app/" +:+ path;
     detect.unreachable := fun _ => None;
     detect.write := fun _ _ _ => detect.Written |}.

Definition example_files : detect.Files :=
  <["/srv/app/go.mod" := "module app"]>
    (<["/srv/app/gowatch.yaml" := "debounce: 1s"]> ∅).

(* ===================================================================== *)
(** * Part II: lemmas and theorems                                        *)
(* ===================================================================== *)

(** ** The library models on the examples of the Go documentation *)

Example Split_examples :
  strings.Split "a,b,c" "," = ["a"; "b"; "c"]
  /\ strings.Split "a man a plan a canal panama" "a "
     = [""; "man "; "plan "; "canal panama"]
  /\ strings.Split " xyz " "" = [" "; "x"; "y"; "z"; " "]
  /\ strings.Split "" "Bernardo O'Higgins" = [""]
  /\ strings.Split "vendor/**" "**" = ["vendor/"; ""]
  /\ strings.Split "**/node_modules/**" "**" = [""; "/node_modules/"; ""].
Proof. repeat split; reflexivity. Qed.

Example ReplaceAll_examples :
  strings.ReplaceAll "oink oink oink" "k" "ky" = "oinky oinky oinky"
  /\ strings.ReplaceAll "oink oink oink" "oink" "moo" = "moo moo moo"
  /\ strings.ReplaceAll "abc" "" "-" = "-a-b-c-"
  /\ strings.ReplaceAll "aaa" "aa" "b" = "ba".
Proof. repeat split; reflexivity. Qed.

Example strings_examples :
  strings.HasPrefix "Gopher" "Go" = true
  /\ strings.HasPrefix "Gopher" "C" = false
  /\ strings.HasPrefix "Gopher" "" = true
  /\ strings.HasSuffix "Amigo" "go" = true
  /\ strings.HasSuffix "Amigo" "Ami" = false
  /\ strings.Contains "seafood" "foo" = true
  /\ strings.Contains "seafood" "bar" = false
  /\ strings.Contains "" "" = true
  /\ strings.TrimSuffix "vendor/" "/" = "vendor"
  /\ strings.TrimPrefix "/*.tmp" "/" = "*.tmp"
  /\ strings.Join ["foo"; "bar"; "baz"] ", " = "foo, bar, baz"
  /\ strings.ToLower "PowerShell" = "powershell".
Proof. repeat split; reflexivity. Qed.

Example Base_examples :
  filepath.unix_Base "/foo/bar/baz.js" = "baz.js"
  /\ filepath.unix_Base "/foo/bar/baz/" = "baz"
  /\ filepath.unix_Base "dev.txt" = "dev.txt"
  /\ filepath.unix_Base "../todo.txt" = "todo.txt"
  /\ filepath.unix_Base ".." = ".."
  /\ filepath.unix_Base "." = "."
  /\ filepath.unix_Base "/" = "/"
  /\ filepath.unix_Base "" = ".".
Proof. repeat split; reflexivity. Qed.

Example Match_examples :
  filepath.unix_Match "/home/catch/*" "/home/catch/foo" = Some true
  /\ filepath.unix_Match "/home/catch/*" "/home/catch/foo/bar" = Some false
  /\ filepath.unix_Match "/home/?opher" "/home/gopher" = Some true
  /\ filepath.unix_Match "/home/\*" "/home/*" = Some true
  /\ filepath.unix_Match "a[b-d]?" "acx" = Some true
  /\ filepath.unix_Match "[^a]" "a" = Some false
  /\ filepath.unix_Match "[" "a" = None
  /\ filepath.unix_Match "*.tmp" "x.tmp" = Some true
  /\ filepath.unix_Match "*.tmp" "/tmp/x.tmp" = Some false
  /\ filepath.unix_Match "vendor/**" "vendor/pkg" = Some true
  /\ filepath.unix_Match "vendor/**" "/tmp/vendor/pkg" = Some false.
Proof. repeat split; vm_compute; reflexivity. Qed.

(** ** Byte strings *)

Section StringFacts.

Import strings.

Lemma append_nil_l (s : string) : "" +:+ s = s.
Proof. reflexivity. Qed.

Lemma append_cons (c : ascii) (s t : string) :
  String c s +:+ t = String c (s +:+ t).
Proof. reflexivity. Qed.

Lemma length_append (s t : string) :
  String.length (s +:+ t) = String.length s + String.length t.
Proof.
  induction s as [|c s IH]; [done |].
  rewrite append_cons. simpl. by rewrite IH.
Qed.

Lemma append_assoc (s t u : string) : (s +:+ t) +:+ u = s +:+ t +:+ u.
Proof. induction s as [|c s IH]; [done |]. by rewrite !append_cons, IH. Qed.

Lemma slice_from_append (s t : string) : slice_from (String.length s) (s +:+ t) = t.
Proof.
  induction s as [|c s IH]; [by destruct t |]. by rewrite append_cons.
Qed.

Lemma HasPrefix_cons (a b : ascii) (s p : string) :
  HasPrefix (String a s) (String b p) = Ascii.eqb a b && HasPrefix s p.
Proof. reflexivity. Qed.

Lemma HasPrefix_append (p r : string) : HasPrefix (p +:+ r) p = true.
Proof.
  induction p as [|c p IH]; [done |].
  rewrite append_cons. simpl. by rewrite Ascii.eqb_refl, IH.
Qed.

Lemma HasPrefix_inv (s p : string) :
  HasPrefix s p = true -> s = p +:+ slice_from (String.length p) s.
Proof.
  revert s; induction p as [|b p IH]; intros [|a s]; simpl; try done.
  intros [Hab Hp]%andb_prop. apply Ascii.eqb_eq in Hab as ->.
  rewrite append_cons. f_equal. by apply IH.
Qed.

(** A prefix test reads no further than the length of the prefix. *)
Lemma HasPrefix_app_long (x y u : string) :
  String.length u <= String.length x ->
  HasPrefix (x +:+ y) u = HasPrefix x u.
Proof.
  revert x; induction u as [|b u IH]; intros [|a x]; rewrite ?append_cons;
    simpl; try done; try lia.
  intros Hlen. rewrite IH; [done | lia].
Qed.

(** *** The scan of [ReplaceAll] *)

Section Replace.

Variables old new : string.

Lemma replace_scan_skip (n : nat) (s : string) :
  replace_scan old new s n = replace_scan old new (slice_from n s) 0.
Proof.
  revert n; induction s as [|c s IH]; intros [|n]; simpl; done.
Qed.

Lemma replace_scan_nomatch (c : ascii) (s : string) :
  HasPrefix (String c s) old = false ->
  replace_scan old new (String c s) 0 = String c (replace_scan old new s 0).
Proof. intros H. cbn [replace_scan]. by rewrite H. Qed.

Lemma replace_scan_match (r : string) :
  old <> "" ->
  replace_scan old new (old +:+ r) 0 = new +:+ replace_scan old new r 0.
Proof.
  intros Hne. destruct old as [|b o] eqn:Hold; [done |]. rewrite <- Hold.
  assert (Hp : HasPrefix (old +:+ r) old = true) by apply HasPrefix_append.
  rewrite Hold in *. rewrite append_cons in *. cbn [replace_scan]. rewrite Hp.
  f_equal. rewrite <- Hold, replace_scan_skip. f_equal.
  rewrite Hold. cbn [String.length].
  replace (S (String.length o) - 1) with (String.length o) by lia.
  apply slice_from_append.
Qed.

(** A stretch of text in which no occurrence of [old] starts is copied. *)
Lemma replace_scan_copy (pre r : string) :
  (forall k, k < String.length pre -> HasPrefix (slice_from k (pre +:+ r)) old = false) ->
  replace_scan old new (pre +:+ r) 0 = pre +:+ replace_scan old new r 0.
Proof.
  induction pre as [|c pre IH]; intros H; [done |].
  rewrite !append_cons. rewrite replace_scan_nomatch.
  - f_equal. apply IH. intros k Hk. apply (H (S k)). simpl; lia.
  - apply (H 0). simpl; lia.
Qed.

(** An occurrence of [old] cannot start in a short text put before an
    occurrence: the opening brace would have to be met inside [old]. *)
Lemma HasPrefix_straddle (body x z : string) :
  spec.no_brace body = true ->
  String.length x < String.length body ->
  HasPrefix (x +:+ String "{" z) body = false.
Proof.
  revert body; induction x as [|c x IH]; intros [|b body] Hb Hlen;
    simpl in Hlen; try lia.
  - rewrite append_nil_l, HasPrefix_cons.
    unfold spec.no_brace in Hb. cbn [spec.all_bytes] in Hb.
    apply andb_prop in Hb as [Hb _]. apply negb_true_iff in Hb.
    by rewrite Ascii.eqb_sym, Hb.
  - rewrite append_cons, HasPrefix_cons.
    unfold spec.no_brace in Hb. cbn [spec.all_bytes] in Hb.
    apply andb_prop in Hb as [_ Hb].
    rewrite IH; [apply andb_false_r | done | lia].
Qed.

(** Every occurrence of a placeholder is replaced: the scan can be cut
    at any occurrence. *)
Lemma replace_scan_occurrence (body : string) :
  old = String "{" body ->
  spec.no_brace body = true ->
  forall n x y, String.length x <= n ->
    replace_scan old new (x +:+ old +:+ y) 0
    = replace_scan old new x 0 +:+ new +:+ replace_scan old new y 0.
Proof.
  intros Hold Hbody.
  assert (Hne : old <> "") by (by rewrite Hold).
  induction n as [|n IH]; intros [|c x] y Hlen; simpl in Hlen; try lia.
  - by rewrite append_nil_l, replace_scan_match.
  - by rewrite append_nil_l, replace_scan_match.
  - destruct (HasPrefix (String c x) old) eqn:Hpre.
    + apply HasPrefix_inv in Hpre.
      set (x2 := slice_from (String.length old) (String c x)) in *.
      assert (String.length x2 <= n).
      { apply (f_equal String.length) in Hpre. rewrite length_append in Hpre.
        simpl in Hpre. destruct old; [done |]. simpl in Hpre. lia. }
      rewrite Hpre, append_assoc, !replace_scan_match by done.
      by rewrite IH, append_assoc.
    + rewrite append_cons, !replace_scan_nomatch; [| done |].
      * rewrite IH by lia. by rewrite append_cons.
      * rewrite <- append_cons.
        destruct (le_lt_dec (String.length old) (String.length (String c x)))
          as [Hle|Hlt].
        -- rewrite HasPrefix_app_long by done. done.
        -- rewrite Hold in *. rewrite !append_cons, HasPrefix_cons.
           rewrite HasPrefix_straddle; [apply andb_false_r | done |].
           simpl in Hlt. lia.
Qed.

End Replace.

Lemma ReplaceAll_scan (s old new : string) :
  old <> "" -> ReplaceAll s old new = replace_scan old new s 0.
Proof. by destruct old. Qed.

End StringFacts.

(** ** Placeholder substitution *)

Section Placeholders.

Import strings runner spec.

Lemma replace_loop_map (path event : string) (rest : list string) :
  forall (i : nat) (result : list string),
    i + length rest = length result ->
    replace_loop i rest path event result
    = take i result ++ map (resolve path event) rest.
Proof.
  induction rest as [|part rest IH]; intros i result Hlen; simpl in *.
  - rewrite app_nil_r, firstn_all2; [done | lia].
  - rewrite IH by (rewrite length_insert; lia).
    destruct (lookup_lt_is_Some_2 result i) as [x Hx]; [lia |].
    rewrite (take_S_r (<[i:=_]> result) i (resolve path event part)).
    + rewrite take_insert_ge by lia. by rewrite <- app_assoc.
    + apply list_lookup_insert_eq. lia.
Qed.

Lemma replacePlaceholders_map (cmd : list string) (path event : string) :
  replacePlaceholders cmd path event = map (resolve path event) cmd.
Proof.
  unfold replacePlaceholders. rewrite replace_loop_map; [done |].
  by rewrite length_replicate.
Qed.

(** *** When the two replacements in sequence are one substitution *)

Lemma substitute_scan_skip (path event : string) (n : nat) (s : string) :
  substitute_scan path event s n
  = substitute_scan path event (slice_from n s) 0.
Proof. revert n; induction s as [|c s IH]; intros [|n]; simpl; done. Qed.

Lemma no_brace_cons (c : ascii) (s : string) :
  no_brace (String c s) = true -> Ascii.eqb c "{" = false /\ no_brace s = true.
Proof.
  unfold no_brace; simpl. intros [Hc Hs]%andb_prop.
  by apply negb_true_iff in Hc.
Qed.

(** Two texts of which neither starts the other differ within both. *)
Lemma HasPrefix_incomparable (p u y : string) :
  HasPrefix p u = false -> HasPrefix u p = false -> HasPrefix (p +:+ y) u = false.
Proof.
  revert u; induction p as [|c p IH]; intros [|a u] Hpu Hup; try done.
  rewrite append_cons, HasPrefix_cons in *.
  destruct (Ascii.eqb_spec c a) as [-> | Hne]; [| done].
  rewrite Ascii.eqb_refl in Hup. simpl in *. by apply IH.
Qed.

Lemma no_overlap_cons (c : ascii) (s t : string) :
  no_overlap (String c s) t = true ->
  HasPrefix (String c s) t = false /\ HasPrefix t (String c s) = false
  /\ no_overlap s t = true.
Proof.
  cbn [no_overlap]. intros [[H1 H2]%andb_prop H3]%andb_prop.
  by apply negb_true_iff in H1, H2.
Qed.

(** A text inside which no occurrence can begin is copied by the
    replacement. *)
Lemma replace_scan_no_overlap (old new p x : string) :
  no_overlap p old = true ->
  replace_scan old new (p +:+ x) 0 = p +:+ replace_scan old new x 0.
Proof.
  induction p as [|c p IH]; intros Hp; [done |].
  apply no_overlap_cons in Hp as (H1 & H2 & Hp).
  rewrite (append_cons c p x), replace_scan_nomatch; [by rewrite IH, append_cons |].
  rewrite <- append_cons. by apply HasPrefix_incomparable.
Qed.

(** The replacement of [{path}] by a path neither makes nor destroys an
    occurrence of a text [u] without opening brace, if the path and the
    ends of [u] do not start one another. *)
Lemma HasPrefix_replace_path (path u : string) :
  no_overlap u path = true ->
  no_brace u = true ->
  forall x, HasPrefix (replace_scan "{path}" path x 0) u = HasPrefix x u.
Proof.
  induction u as [|a u IH]; intros Hu Hb x; [done |].
  apply no_overlap_cons in Hu as (H1 & H2 & Hu).
  apply no_brace_cons in Hb as [Ha Hb].
  destruct x as [|b x]; [done |].
  destruct (HasPrefix (String b x) "{path}") eqn:Hpre.
  - apply HasPrefix_inv in Hpre.
    set (r := slice_from (String.length "{path}") (String b x)) in *.
    rewrite Hpre, replace_scan_match by done.
    rewrite (HasPrefix_incomparable path (String a u)) by done.
    rewrite append_cons, HasPrefix_cons.
    by rewrite (Ascii.eqb_sym "{" a), Ha.
  - rewrite replace_scan_nomatch by done.
    rewrite !HasPrefix_cons. by rewrite IH.
Qed.

Section PlainPath.

Variables path event : string.

Hypothesis Hplain : plain_path path = true.

Lemma plain_path_inside : no_overlap path "{event}" = true.
Proof. unfold plain_path in Hplain. by apply andb_prop in Hplain as [? _]. Qed.

Lemma plain_path_across : no_overlap "event}" path = true.
Proof. unfold plain_path in Hplain. by apply andb_prop in Hplain as [_ ?]. Qed.

Lemma replace_then_replace (n : nat) :
  forall t, String.length t <= n ->
    replace_scan "{event}" event (replace_scan "{path}" path t 0) 0
    = substitute path event t.
Proof.
  unfold substitute.
  induction n as [|n IH]; intros [|c t] Hlen; simpl in Hlen; try done; try lia.
  destruct (HasPrefix (String c t) "{path}") eqn:HP.
  - (* an occurrence of {path} *)
    cbn [substitute_scan]. rewrite HP, substitute_scan_skip.
    apply HasPrefix_inv in HP.
    change (slice_from 5 t) with (slice_from (String.length "{path}") (String c t)).
    set (r := slice_from (String.length "{path}") (String c t)) in *.
    assert (Hr : String.length r <= n).
    { apply (f_equal String.length) in HP. rewrite length_append in HP.
      simpl in HP. lia. }
    rewrite HP, replace_scan_match by done.
    rewrite replace_scan_no_overlap by apply plain_path_inside.
    by rewrite IH.
  - destruct (HasPrefix (String c t) "{event}") eqn:HE.
    + (* an occurrence of {event} *)
      cbn [substitute_scan]. rewrite HP, HE, substitute_scan_skip.
      apply HasPrefix_inv in HE.
      change (slice_from 6 t) with (slice_from (String.length "{event}") (String c t)).
      set (r := slice_from (String.length "{event}") (String c t)) in *.
      assert (Hr : String.length r <= n).
      { apply (f_equal String.length) in HE. rewrite length_append in HE.
        simpl in HE. lia. }
      rewrite HE.
      rewrite (replace_scan_copy "{path}" path "{event}" r).
      * rewrite replace_scan_match by done. by rewrite IH.
      * intros k Hk. simpl in Hk.
        do 7 (destruct k as [|k]; [reflexivity |]). lia.
    + (* an ordinary byte *)
      cbn [substitute_scan]. rewrite HP, HE.
      rewrite replace_scan_nomatch by done.
      rewrite replace_scan_nomatch.
      * rewrite IH; [done | lia].
      * rewrite HasPrefix_cons in *.
        by rewrite (HasPrefix_replace_path path "event}" plain_path_across).
Qed.

End PlainPath.

Lemma resolve_substitute (path event token : string) :
  plain_path path = true ->
  resolve path event token = substitute path event token.
Proof.
  intros Hp. unfold resolve. rewrite !ReplaceAll_scan by done.
  by apply (replace_then_replace path event Hp (String.length token)).
Qed.

Lemma lookup_map {A B : Type} (f : A -> B) (l : list A) (i : nat) (x : A) :
  l !! i = Some x -> map f l !! i = Some (f x).
Proof.
  revert i; induction l as [|y l IH]; intros [|i] H; simplify_eq/=; eauto.
Qed.

Lemma ReplaceAll_occurrence (body new x y : string) :
  no_brace body = true ->
  ReplaceAll (x +:+ String "{" body +:+ y) (String "{" body) new
  = ReplaceAll x (String "{" body) new +:+ new +:+ ReplaceAll y (String "{" body) new.
Proof.
  intros Hb. rewrite !ReplaceAll_scan by done.
  by apply (replace_scan_occurrence _ _ body eq_refl Hb (String.length x)).
Qed.

End Placeholders.

(** C6, as amended.  For every token list, every event and every path that
    cannot overlap an occurrence of [{event}] (no occurrence can begin
    inside the path, nor go on into it or across it: so for every path
    without braces that has a byte outside [event]), the result of
    [replacePlaceholders] is the verbatim substitution of [{path}] and
    [{event}] in every token independently: the other bytes and the number
    of tokens are unchanged.  The two examples of the specification resolve
    as stated. *)
Theorem replacePlaceholders_substitutes (cmd : list string) (path event : string) :
  spec.plain_path path = true ->
  runner.replacePlaceholders cmd path event = map (spec.substitute path event) cmd
  /\ length (runner.replacePlaceholders cmd path event) = length cmd
  /\ runner.replacePlaceholders ["echo"; "{path}"] "/tmp/test.go" "WRITE"
     = ["echo"; "/tmp/test.go"]
  /\ runner.replacePlaceholders ["process"; "{path}"; "--event={event}"]
       "/tmp/test.go" "CREATE"
     = ["process"; "/tmp/test.go"; "--event=CREATE"].
Proof.
  intros Hplain. rewrite !replacePlaceholders_map. repeat split.
  - apply map_ext. intros token. by apply resolve_substitute.
  - by rewrite length_map.
Qed.

Lemma replacePlaceholders_substitutes_witness :
  spec.plain_path "/tmp/test.go" = true
  /\ runner.replacePlaceholders ["process"; "{path}"; "--event={event}"]
       "/tmp/test.go" "CREATE"
     = map (spec.substitute "/tmp/test.go" "CREATE")
           ["process"; "{path}"; "--event={event}"].
Proof.
  split; [reflexivity |].
  apply (replacePlaceholders_substitutes
           ["process"; "{path}"; "--event={event}"] "/tmp/test.go" "CREATE").
  reflexivity.
Defined.

(** C6, as stated, fails: a path that contains [{event}] is not inserted
    verbatim, since the event name is substituted inside it. *)
Lemma replacePlaceholders_not_verbatim :
  runner.replacePlaceholders ["echo"; "{path}"] "/tmp/{event}" "WRITE"
  = ["echo"; "/tmp/WRITE"]
  /\ map (spec.substitute "/tmp/{event}" "WRITE") ["echo"; "{path}"]
     = ["echo"; "/tmp/{event}"]
  /\ runner.replacePlaceholders ["echo"; "{path}"] "/tmp/{event}" "WRITE"
     <> map (spec.substitute "/tmp/{event}" "WRITE") ["echo"; "{path}"].
Proof. repeat split; try reflexivity. vm_compute. discriminate. Qed.

(** C10.  In every token [{path}] is replaced first and [{event}] is then
    replaced in the result; so an occurrence of [{event}] inside the path
    that was put in place of an occurrence of [{path}] is replaced by the
    event as well. *)
Theorem replacePlaceholders_sequential
        (cmd : list string) (path event : string) (i : nat)
        (a b pre post : string) :
  cmd !! i = Some (a +:+ "{path}" +:+ b) ->
  path = pre +:+ "{event}" +:+ post ->
  let RP s := strings.ReplaceAll s "{path}" path in
  let RE s := strings.ReplaceAll s "{event}" event in
  runner.replacePlaceholders cmd path event !! i = Some (RE (RP (a +:+ "{path}" +:+ b)))
  /\ RE (RP (a +:+ "{path}" +:+ b))
     = RE (RP a +:+ pre) +:+ event +:+ RE (post +:+ RP b).
Proof.
  intros Hi Hpath RP RE. split.
  - rewrite replacePlaceholders_map.
    exact (lookup_map (runner.resolve path event) cmd i _ Hi).
  - subst RP RE. cbv beta.
    rewrite (ReplaceAll_occurrence "path}" path a b) by reflexivity.
    set (ra := strings.ReplaceAll a "{path}" path).
    set (rb := strings.ReplaceAll b "{path}" path).
    rewrite Hpath.
    replace (ra +:+ (pre +:+ "{event}" +:+ post) +:+ rb)
      with ((ra +:+ pre) +:+ "{event}" +:+ (post +:+ rb))
      by (by rewrite !append_assoc).
    by rewrite (ReplaceAll_occurrence "event}" event) by reflexivity.
Qed.

Lemma replacePlaceholders_sequential_witness :
  ["cp"; "{path}"; "out"] !! 1 = Some ("" +:+ "{path}" +:+ "")
  /\ "/tmp/{event}.go" = "/tmp/" +:+ "{event}" +:+ ".go"
  /\ runner.replacePlaceholders ["cp"; "{path}"; "out"] "/tmp/{event}.go" "WRITE" !! 1
     = Some "/tmp/WRITE.go".
Proof.
  split; [reflexivity |]. split; [reflexivity |].
  destruct (replacePlaceholders_sequential
              ["cp"; "{path}"; "out"] "/tmp/{event}.go" "WRITE" 1
              "" "" "/tmp/" ".go" eq_refl eq_refl) as [H _].
  exact H.
Defined.

(** ** The command executor *)

Section Executor.

Import strings config runner spec.

Context {S : Type} (os : OS S).

(** Every result of [executeCommand] carries the resolved command. *)
Lemma executeCommand_Command (r : Runner) (cmd : Command)
      (path event : string) (w : World S) :
  Command_ (executeCommand os r cmd path event w).1
  = replacePlaceholders (Cmd cmd) path event.
Proof.
  unfold executeCommand, bind, since, now, run_process, ret, bind.
  repeat (case_match; simpl in *; simplify_eq; try done).
Qed.

(** A result with a nonzero exit code carries an error. *)
Lemma executeCommand_failure_has_error (r : Runner) (cmd : Command)
      (path event : string) (w : World S) :
  ExitCode (executeCommand os r cmd path event w).1 <> 0%Z ->
  Error (executeCommand os r cmd path event w).1 <> None.
Proof.
  unfold executeCommand, bind, since, now, run_process, ret, bind.
  repeat (case_match; simpl in *; simplify_eq; try done).
Qed.

(** At most one process is prepared by a call. *)
Lemma executeCommand_prepared (r : Runner) (cmd : Command)
      (path event : string) (w : World S) :
  prepared (executeCommand os r cmd path event w).2 = prepared w
  \/ exists argv,
      prepared (executeCommand os r cmd path event w).2 = prepared w ++ [argv].
Proof.
  unfold executeCommand, bind, since, now, run_process, ret, bind.
  repeat (case_match; simpl in *; simplify_eq; eauto).
Qed.

End Executor.

(** C7.  A command whose token list is empty after the substitution, when
    dry-run mode is off, fails at once with exit code -1 and the error
    "empty command"; no process is prepared, let alone started. *)
Theorem executeCommand_empty_command
        {S : Type} (os : runner.OS S) (r : runner.Runner) (cmd : config.Command)
        (path event : string) (w : runner.World S) :
  runner.dryRun r = false ->
  runner.replacePlaceholders (config.Cmd cmd) path event = [] ->
  runner.ExitCode (runner.executeCommand os r cmd path event w).1 = (-1)%Z
  /\ runner.Error (runner.executeCommand os r cmd path event w).1
     = Some (runner.Errorf "empty command")
  /\ runner.Command_ (runner.executeCommand os r cmd path event w).1 = []
  /\ runner.prepared (runner.executeCommand os r cmd path event w).2
     = runner.prepared w.
Proof.
  intros Hdry Hempty.
  unfold runner.executeCommand, runner.bind, runner.since, runner.now, runner.ret,
    runner.bind.
  rewrite Hdry, Hempty. simpl.
  repeat (case_match; simpl in *; simplify_eq; try done).
Qed.

Lemma executeCommand_empty_command_witness :
  let r := runner.New (example_config [] 1) true false in
  let cmd := {| config.Cmd := []; config.Run := ""; config.Timeout := "" |} in
  runner.dryRun r = false
  /\ runner.replacePlaceholders (config.Cmd cmd) "/tmp/test.go" "WRITE" = []
  /\ runner.ExitCode
       (runner.executeCommand example_os r cmd "/tmp/test.go" "WRITE" example_world).1
     = (-1)%Z.
Proof.
  intros r cmd. split; [reflexivity |]. split; [reflexivity |].
  apply (executeCommand_empty_command example_os r cmd "/tmp/test.go" "WRITE"
           example_world); reflexivity.
Defined.

(** ** The shell predicate *)

Lemma shellCommands_lookup (name : string) :
  default false (runner.shellCommands !! name) = true
  <-> name = "sh" \/ name = "bash" \/ name = "powershell" \/ name = "pwsh".
Proof.
  unfold runner.shellCommands. rewrite !lookup_insert, lookup_empty.
  repeat (destruct (decide _) as [<-|]; [by split; auto |]).
  simpl. split; [done | intros [|[|[|]]]; congruence].
Qed.

(** C8, as amended.  [needsShell] returns true exactly when the token list
    is not empty and either its first token, in lower case, is one of
    [sh], [bash], [powershell] and [pwsh], or the tokens joined by spaces
    contain one of the operators; it returns false for the empty list; and
    on Windows, when it returns true for the resolved command, that command
    is passed whole to [cmd.exe /C]. *)
Theorem needsShell_exactly
        {S : Type} (os : runner.OS S) (r : runner.Runner) (cmd : config.Command)
        (path event : string) (w : runner.World S) (tokens : list string) :
  (runner.needsShell tokens = true
   <-> exists first rest,
        tokens = first :: rest
        /\ ((strings.ToLower first = "sh" \/ strings.ToLower first = "bash"
             \/ strings.ToLower first = "powershell"
             \/ strings.ToLower first = "pwsh")
            \/ exists op,
                In op ["|"; ">"; "<"; ">>"; "&&"; "||"; "&"]
                /\ strings.Contains (strings.Join tokens " ") op = true))
  /\ runner.needsShell [] = false
  /\ (runner.GOOS os = "windows" ->
      runner.dryRun r = false ->
      runner.needsShell (runner.replacePlaceholders (config.Cmd cmd) path event) = true ->
      runner.prepared (runner.executeCommand os r cmd path event w).2
      = runner.prepared w
        ++ [["cmd.exe"; "/C";
             strings.Join (runner.replacePlaceholders (config.Cmd cmd) path event) " "]]).
Proof.
  split; [| split; [reflexivity |]].
  - destruct tokens as [|first rest].
    + split; [done | by intros (? & ? & ? & _)].
    + unfold runner.needsShell.
      destruct (default false (runner.shellCommands !! strings.ToLower first)) eqn:Hsh.
      * apply shellCommands_lookup in Hsh.
        split; [intros _; exists first, rest; auto | done].
      * rewrite existsb_exists. split.
        -- intros (op & Hop & Hc). exists first, rest. split; [done |].
           right. by exists op.
        -- intros (f & l & [= <- <-] & [Hname | H]); [| done].
           apply shellCommands_lookup in Hname. congruence.
  - intros Hwin Hdry Hshell.
    destruct (runner.replacePlaceholders (config.Cmd cmd) path event)
      as [|first rest] eqn:Hc; [discriminate Hshell |].
    unfold runner.executeCommand, runner.bind, runner.since, runner.now,
      runner.run_process, runner.ret, runner.bind.
    rewrite Hdry, Hwin, Hc, Hshell.
    cbn [length Nat.eqb String.eqb Ascii.eqb Bool.eqb].
    destruct (runner.Now os (runner.os_state w)) as [start s1].
    cbn [runner.os_state runner.prepared].
    destruct (runner.Exec os _ _ s1) as [out s2].
    cbn [runner.os_state runner.prepared].
    destruct (runner.Now os s2) as [t s3].
    by destruct out as [| | |[]].
Qed.

Lemma needsShell_exactly_witness :
  let r := runner.New (example_config [] 1) true false in
  let cmd := {| config.Cmd := ["dir"; "|"; "findstr"; "{path}"];
                config.Run := ""; config.Timeout := "" |} in
  runner.GOOS example_windows = "windows"
  /\ runner.dryRun r = false
  /\ runner.needsShell (runner.replacePlaceholders (config.Cmd cmd) "a.go" "WRITE") = true
  /\ runner.prepared
       (runner.executeCommand example_windows r cmd "a.go" "WRITE" example_world).2
     = [["cmd.exe"; "/C"; "dir | findstr a.go"]].
Proof.
  intros r cmd. do 3 (split; [reflexivity |]).
  exact (proj2 (proj2 (needsShell_exactly example_windows r cmd "a.go" "WRITE"
                         example_world []))
           eq_refl eq_refl eq_refl).
Defined.

(** C8, as stated, fails: the Windows command shell is not one of the
    shell names, under either of its names. *)
Lemma needsShell_not_for_cmd :
  runner.needsShell ["cmd"; "/C"; "dir"] = false
  /\ runner.needsShell ["cmd.exe"; "/C"; "build.bat"] = false.
Proof. split; reflexivity. Qed.

(** ** The sequential chain *)

Section Sequential.

Import strings config runner spec.

Context {S : Type} (os : OS S) (r : Runner) (path event : string).

Lemma run_until_failure_cons (cmd : Command) (rest : list Command) (w : World S) :
  run_until_failure os r (cmd :: rest) path event w
  = let '(result, w1) := executeCommand os r cmd path event w in
    if (ExitCode result =? 0)%Z
    then let '(results, w2) := run_until_failure os r rest path event w1 in
         (result :: results, w2)
    else ([result], w1).
Proof.
  simpl. unfold bind at 1.
  destruct (executeCommand os r cmd path event w) as [result w1].
  by destruct (ExitCode result =? 0)%Z.
Qed.

Lemma run_sequential_cons (cmd : Command) (rest : list Command)
      (acc : list RunResult) (w : World S) :
  run_sequential os r (cmd :: rest) path event acc w
  = let '(result, w1) := executeCommand os r cmd path event w in
    if bool_decide (Error result <> None) && negb (ExitCode result =? 0)%Z
    then (acc ++ [result], w1)
    else run_sequential os r rest path event (acc ++ [result]) w1.
Proof.
  simpl. unfold bind at 1.
  destruct (executeCommand os r cmd path event w) as [result w1].
  by destruct (_ && _).
Qed.

(** The loop of [Run] returns what running until the first nonzero exit
    code returns. *)
Lemma run_sequential_until_failure (commands : list Command) :
  forall (acc : list RunResult) (w : World S),
    run_sequential os r commands path event acc w
    = (acc ++ (run_until_failure os r commands path event w).1,
       (run_until_failure os r commands path event w).2).
Proof.
  induction commands as [|cmd rest IH]; intros acc w.
  - simpl. unfold ret. simpl. by rewrite app_nil_r.
  - rewrite run_sequential_cons, run_until_failure_cons.
    pose proof (executeCommand_failure_has_error os r cmd path event w) as Herr.
    destruct (executeCommand os r cmd path event w) as [result w1]; simpl in Herr.
    destruct (Z.eqb_spec (ExitCode result) 0) as [H0|H0].
    + rewrite andb_false_r, IH.
      destruct (run_until_failure os r rest path event w1) as [rs w2]; simpl.
      by rewrite <- app_assoc.
    + by rewrite andb_true_r, bool_decide_eq_true_2 by auto.
Qed.

(** What the results of a run until the first failure look like. *)
Lemma run_until_failure_shape (commands : list Command) :
  forall (w : World S),
    let res := (run_until_failure os r commands path event w).1 in
    let w' := (run_until_failure os r commands path event w).2 in
    length res <= length commands
    /\ (forall i result, res !! i = Some result -> Datatypes.S i < length res ->
                         ExitCode result = 0%Z)
    /\ (length res < length commands ->
        exists result, last res = Some result /\ ExitCode result <> 0%Z)
    /\ (forall i result, res !! i = Some result ->
          exists cmd, commands !! i = Some cmd
                      /\ Command_ result = replacePlaceholders (Cmd cmd) path event)
    /\ length (prepared w') <= length (prepared w) + length res.
Proof.
  induction commands as [|cmd rest IH]; intros w.
  - simpl. unfold ret; simpl. repeat split; try lia; intros; done.
  - rewrite run_until_failure_cons.
    pose proof (executeCommand_Command os r cmd path event w) as Hcmd.
    pose proof (executeCommand_prepared os r cmd path event w) as Hprep.
    destruct (executeCommand os r cmd path event w) as [result w1];
      simpl in Hcmd, Hprep.
    assert (Hp1 : length (prepared w1) <= length (prepared w) + 1).
    { destruct Hprep as [-> | [argv ->]]; [lia |]. rewrite length_app; simpl; lia. }
    destruct (Z.eqb_spec (ExitCode result) 0) as [H0|H0].
    + specialize (IH w1).
      destruct (run_until_failure os r rest path event w1) as [rs w2];
        simpl in *.
      destruct IH as (IHlen & IHzero & IHlast & IHcmd & IHprep).
      repeat split.
      * lia.
      * intros [|i] res Hi Hlt; simplify_eq/=; [done |].
        apply (IHzero i); [done | lia].
      * intros Hlt. destruct IHlast as (res & Hres & Hne); [lia |].
        exists res. split; [| done].
        destruct rs; [done | by rewrite last_cons_cons].
      * intros [|i] res Hi; simplify_eq/=; eauto.
      * lia.
    + simpl. repeat split.
      * lia.
      * intros [|i] res Hi Hlt; simplify_eq/=; lia.
      * intros _. by exists result.
      * intros [|i] res Hi; simplify_eq/=; eauto.
      * lia.
Qed.

End Sequential.

(** C2.  In sequential mode the commands run in list order and the chain
    stops after the first command whose exit code is not zero; the result
    list is exactly that of the commands that ran, in order: every result
    but the last has exit code zero, a list shorter than the command list
    ends with a nonzero exit code, and no process is prepared for a later
    command.  For two commands of which the first exits with 1, the list
    has length 1 and its entry has exit code 1. *)
Theorem Run_sequential_short_circuit
        {S : Type} (os : runner.OS S) (r : runner.Runner) (path event : string)
        (w w' : runner.World S) (res : list runner.RunResult) :
  runner.sequential r = true ->
  runner.Run os r path event w res w' ->
  let commands := config.Commands (config.Config_OnChange (runner.cfg r)) in
  (res, w') = spec.run_until_failure os r commands path event w
  /\ length res <= length commands
  /\ (forall i result, res !! i = Some result -> Datatypes.S i < length res ->
                       runner.ExitCode result = 0%Z)
  /\ (length res < length commands ->
      exists result, last res = Some result /\ runner.ExitCode result <> 0%Z)
  /\ (forall i result, res !! i = Some result ->
        exists cmd, commands !! i = Some cmd
                    /\ runner.Command_ result
                       = runner.replacePlaceholders (config.Cmd cmd) path event)
  /\ length (runner.prepared w') <= length (runner.prepared w) + length res
  /\ (forall A B,
        commands = [A; B] ->
        runner.ExitCode (runner.executeCommand os r A path event w).1 = 1%Z ->
        res = [(runner.executeCommand os r A path event w).1]).
Proof.
  intros Hseq HRun commands.
  assert (Heq : (res, w') = spec.run_until_failure os r commands path event w).
  { destruct HRun as [Hnil | res w' Hne _ Hrun | st Hne Hpar _].
    - subst commands. by rewrite Hnil.
    - rewrite run_sequential_until_failure in Hrun. simpl in Hrun.
      subst commands. rewrite <- Hrun. by destruct (spec.run_until_failure _ _ _ _ _ _).
    - congruence. }
  pose proof (run_until_failure_shape os r path event commands w) as Hshape.
  rewrite <- Heq in Hshape. simpl in Hshape.
  destruct Hshape as (H1 & H2 & H3 & H4 & H5).
  repeat split; try done.
  intros A B HAB Hexit. rewrite HAB, run_until_failure_cons in Heq.
  destruct (runner.executeCommand os r A path event w) as [result w1]; simpl in *.
  rewrite Hexit in Heq. simpl in Heq. congruence.
Qed.

Lemma Run_sequential_short_circuit_witness :
  let r := runner.New (example_config [["false"]; ["echo"; "ok"]] 1) true false in
  let failed :=
    {| runner.Command_ := ["false"]; runner.ExitCode := 1; runner.Duration := 0;
       runner.Error := Some (runner.ExitError 1) |} in
  let w' := {| runner.os_state := tt; runner.prepared := [["false"]] |} in
  runner.sequential r = true
  /\ runner.Run example_os r "/tmp/test.go" "WRITE" example_world [failed] w'
  /\ ([failed], w')
     = spec.run_until_failure example_os r
         (config.Commands (config.Config_OnChange (runner.cfg r)))
         "/tmp/test.go" "WRITE" example_world.
Proof.
  intros r failed w'.
  assert (HRun : runner.Run example_os r "/tmp/test.go" "WRITE" example_world [failed] w').
  { apply runner.Run_sequential; [discriminate | reflexivity | reflexivity]. }
  split; [reflexivity |]. split; [exact HRun |].
  exact (proj1 (Run_sequential_short_circuit example_os r "/tmp/test.go" "WRITE"
                  example_world w' [failed] eq_refl HRun)).
Defined.

(** ** The parallel branch *)

Section Parallel.

Import strings config runner.

Context {S : Type} (os : OS S) (r : Runner) (commands : list Command)
        (path event : string).

Local Abbreviation step := (par_step os r commands path event).
Local Abbreviation par_inv := (runner.par_inv os r commands path event).

Lemma count_running_insert (gs : list goroutine) (i : nat) (g g' : goroutine) :
  gs !! i = Some g ->
  count_running (<[i := g']> gs) + is_running g
  = count_running gs + is_running g'.
Proof.
  revert i; induction gs as [|h gs IH]; intros [|i] Hi; simplify_eq/=.
  - destruct g, g'; simpl; lia.
  - specialize (IH i Hi). destruct h; simpl; lia.
Qed.

Lemma par_inv_init (w : World S) : par_inv (par_init commands w).
Proof.
  split; simpl.
  - by rewrite length_replicate.
  - by rewrite length_replicate.
  - unfold running; simpl. by induction (length commands).
  - intros i g [-> Hi]%lookup_replicate. simpl.
    by apply lookup_replicate.
Qed.

Lemma par_inv_step (st st' : @ParState S) :
  par_inv st -> step st st' -> par_inv st'.
Proof.
  intros [Hg Hr Hs Hslots] Hstep.
  destruct Hstep as [st | st i Hi Hroom | st i Hi Hdone | st i cmd res w' Hi Hcmd Hexec].
  - split; simpl; try done.
    intros i g Hi. specialize (Hslots i g Hi).
    destruct g; simpl in *; try done. by destruct Hslots.
  - pose proof (count_running_insert _ i _ Running Hi) as Hc.
    split; simpl; try done.
    + by rewrite length_insert.
    + unfold running in *; simpl in *. lia.
    + intros j g Hj. destruct (decide (i = j)) as [<-|Hne].
      * rewrite list_lookup_insert_eq in Hj by (by eapply lookup_lt_Some).
        simplify_eq. exact (Hslots i _ Hi).
      * rewrite list_lookup_insert_ne in Hj by done.
        specialize (Hslots j g Hj). by destruct g.
  - pose proof (count_running_insert _ i _ Abandoned Hi) as Hc.
    split; simpl; try done.
    + by rewrite length_insert.
    + unfold running in *; simpl in *. lia.
    + intros j g Hj. destruct (decide (i = j)) as [<-|Hne].
      * rewrite list_lookup_insert_eq in Hj by (by eapply lookup_lt_Some).
        simplify_eq. split; [done |]. exact (Hslots i _ Hi).
      * rewrite list_lookup_insert_ne in Hj by done.
        specialize (Hslots j g Hj). destruct g; simpl in *; try done.
        by destruct Hslots.
  - pose proof (count_running_insert _ i _ Finished Hi) as Hc.
    assert (Hlt : i < length commands) by (by eapply lookup_lt_Some).
    split; simpl.
    + by rewrite length_insert.
    + by rewrite length_insert.
    + unfold running in *; simpl in *. lia.
    + intros j g Hj. destruct (decide (i = j)) as [<-|Hne].
      * rewrite list_lookup_insert_eq in Hj by lia. simplify_eq.
        exists cmd, (world st). split; [done |]. simpl.
        rewrite list_lookup_insert_eq by lia. by rewrite Hexec.
      * rewrite list_lookup_insert_ne in Hj by done.
        specialize (Hslots j g Hj). unfold slot_ok in *; simpl.
        by rewrite list_lookup_insert_ne.
Qed.

Lemma par_inv_reachable (w : World S) (st : @ParState S) :
  rtc step (par_init commands w) st -> par_inv st.
Proof.
  intros Hrtc.
  apply (rtc_ind_r (R := step) (fun st => par_inv st) (par_init commands w));
    [apply par_inv_init | | exact Hrtc].
  intros y z _ Hstep IH. by eapply par_inv_step.
Qed.

(** The channel never holds more values than its capacity. *)
Lemma sem_bounded (w : World S) (st : @ParState S) :
  (0 <= MaxConcurrency (cfg r))%Z ->
  rtc step (par_init commands w) st ->
  (Z.of_nat (sem st) <= MaxConcurrency (cfg r))%Z.
Proof.
  intros HM Hrtc.
  apply (rtc_ind_r (R := step)
           (fun st => (Z.of_nat (sem st) <= MaxConcurrency (cfg r))%Z)
           (par_init commands w)); [simpl; lia | | exact Hrtc].
  intros y z _ Hstep IH. destruct Hstep; simpl in *; lia.
Qed.

Lemma remaining_insert (gs : list goroutine) (i : nat) (g g' : goroutine) :
  gs !! i = Some g ->
  remaining (<[i := g']> gs) + weight g = remaining gs + weight g'.
Proof.
  revert i; induction gs as [|h gs IH]; intros [|i] Hi; simplify_eq/=.
  - lia.
  - specialize (IH i Hi). lia.
Qed.

(** Either every goroutine has returned, or one runs, or none runs and
    one waits. *)
Lemma goroutines_cases (gs : list goroutine) :
  Forall (fun g => g = Finished \/ g = Abandoned) gs
  \/ (exists i, gs !! i = Some Running)
  \/ (count_running gs = 0 /\ exists i, gs !! i = Some Waiting).
Proof.
  induction gs as [|g gs IH]; [by left |].
  destruct IH as [IH | [[i Hi] | [Hc [i Hi]]]].
  - destruct g.
    + right; right. split; [| by exists 0].
      simpl. clear -IH. induction IH as [|g gs [-> | ->] _ IH']; simpl; done.
    + right; left. by exists 0.
    + left. constructor; auto.
    + left. constructor; auto.
  - right; left. by exists (Datatypes.S i).
  - destruct g.
    + right; right. split; [done | by exists 0].
    + right; left. by exists 0.
    + right; right. split; [done | by exists (Datatypes.S i)].
    + right; right. split; [done | by exists (Datatypes.S i)].
Qed.

(** While a goroutine has not returned and the context is not cancelled,
    one of them can move without a cancellation: a running command can
    return, and when none runs a waiting one finds room in the channel.
    The wait of the orchestrator can end by the commands alone. *)
Lemma par_progress (st : @ParState S) :
  (1 <= MaxConcurrency (cfg r))%Z ->
  par_inv st ->
  par_done st
  \/ exists st', step st st'
                 /\ gctx_done st' = gctx_done st
                 /\ remaining (goroutines st') < remaining (goroutines st).
Proof.
  intros HM [Hg Hr Hs Hslots].
  destruct (goroutines_cases (goroutines st)) as [Hdone | [[i Hi] | [Hc [i Hi]]]].
  - by left.
  - right.
    assert (Hlt : i < length commands).
    { rewrite <- Hg. by eapply lookup_lt_Some. }
    destruct (lookup_lt_is_Some_2 commands i Hlt) as [cmd Hcmd].
    destruct (executeCommand os r cmd path event (world st)) as [res w'] eqn:Hexec.
    eexists. split; [by eapply (step_finish os r commands path event st i cmd res w') |].
    simpl. split; [done |].
    pose proof (remaining_insert _ i _ Finished Hi). simpl in *. lia.
  - right. eexists. split.
    + apply (step_acquire os r commands path event st i Hi).
      unfold running in Hs. rewrite Hs, Hc. lia.
    + simpl. split; [done |].
      pose proof (remaining_insert _ i _ Running Hi). simpl in *. lia.
Qed.

Lemma par_can_finish (n : nat) :
  (1 <= MaxConcurrency (cfg r))%Z ->
  forall st : @ParState S,
    par_inv st -> remaining (goroutines st) <= n ->
    exists st', rtc step st st' /\ par_done st' /\ gctx_done st' = gctx_done st.
Proof.
  intros HM. induction n as [|n IH]; intros st Hinv Hrem.
  - destruct (par_progress st HM Hinv) as [Hdone | (st' & _ & _ & Hlt)];
      [by exists st | lia].
  - destruct (par_progress st HM Hinv) as [Hdone | (st' & Hstep & Hctx & Hlt)];
      [by exists st |].
    destruct (IH st') as (st'' & Hrtc & Hdone & Hctx');
      [by eapply par_inv_step | lia |].
    exists st''. split; [by eapply rtc_l |]. split; [done | congruence].
Qed.

(** When every goroutine has returned no command executes, and the
    goroutines that gave up did so with the context cancelled. *)
Lemma par_done_running (st : @ParState S) : par_done st -> running st = 0.
Proof.
  unfold par_done, running. intros Hdone.
  induction Hdone as [|g gs [-> | ->] _ IH]; simpl; done.
Qed.

Lemma par_done_returned (st : @ParState S) (i : nat) (cmd : Command) :
  par_inv st -> par_done st -> commands !! i = Some cmd ->
  goroutines st !! i = Some Finished
  \/ (goroutines st !! i = Some Abandoned /\ gctx_done st = true).
Proof.
  intros [Hg _ _ Hslots] Hdone Hcmd.
  assert (Hlt : i < length (goroutines st)).
  { rewrite Hg. by eapply lookup_lt_Some. }
  destruct (lookup_lt_is_Some_2 _ i Hlt) as [g Hgi].
  specialize (Hslots i g Hgi).
  unfold par_done in Hdone. rewrite Forall_lookup in Hdone.
  destruct (Hdone i g Hgi) as [-> | ->]; simpl in Hslots; [by left |].
  right. by destruct Hslots.
Qed.

(** From a moment of a run at which the context is not cancelled, the
    orchestrator can come to its return with the context still not
    cancelled, and every command has then finished. *)
Lemma par_returns_uncancelled (w : World S) (st : @ParState S) :
  (1 <= MaxConcurrency (cfg r))%Z ->
  rtc step (par_init commands w) st ->
  gctx_done st = false ->
  exists st',
    rtc step st st'
    /\ executeParallel os r commands path event w st'
    /\ gctx_done st' = false
    /\ forall i cmd, commands !! i = Some cmd -> goroutines st' !! i = Some Finished.
Proof.
  intros HM Hrtc Hctx.
  pose proof (par_inv_reachable w st Hrtc) as Hinv.
  destruct (par_can_finish _ HM st Hinv (le_n _)) as (st' & Hrtc' & Hdone & Hctx').
  assert (Hreach : rtc step (par_init commands w) st') by (by etrans).
  exists st'. split; [done |]. split; [by split |]. split; [congruence |].
  intros i cmd Hcmd.
  destruct (par_done_returned st' i cmd (par_inv_reachable w st' Hreach) Hdone Hcmd)
    as [H | [_ H]]; [done | congruence].
Qed.

End Parallel.

(** C4.  In parallel mode [Run] returns as many results as there are
    commands, and the slot of every command holds either the result of the
    call of [executeCommand] made for that very command, or, when the
    command was abandoned because the context was cancelled while it waited
    for a slot, the zero value. *)
Theorem Run_parallel_index_addressed
        {S : Type} (os : runner.OS S) (r : runner.Runner) (path event : string)
        (w w' : runner.World S) (res : list runner.RunResult) :
  runner.sequential r = false ->
  runner.Run os r path event w res w' ->
  let commands := config.Commands (config.Config_OnChange (runner.cfg r)) in
  length res = length commands
  /\ (commands <> [] ->
      exists st,
        runner.executeParallel os r commands path event w st
        /\ res = runner.results st
        /\ forall i cmd,
            commands !! i = Some cmd ->
            (runner.goroutines st !! i = Some runner.Finished
             /\ exists w0,
                 res !! i = Some (runner.executeCommand os r cmd path event w0).1
                 /\ runner.Command_ (runner.executeCommand os r cmd path event w0).1
                    = runner.replacePlaceholders (config.Cmd cmd) path event)
            \/ (runner.goroutines st !! i = Some runner.Abandoned
                /\ runner.gctx_done st = true
                /\ res !! i = Some runner.zeroRunResult)).
Proof.
  intros Hpar HRun commands.
  destruct HRun as [Hnil | res w' Hne Hseq _ | st Hne _ [Hrtc Hdone]].
  - subst commands. rewrite Hnil. by split.
  - congruence.
  - fold commands in Hrtc, Hne.
    destruct (par_inv_reachable os r commands path event w st Hrtc)
      as [Hg Hr _ Hslots].
    split; [done |]. intros _. exists st. split; [by split |]. split; [done |].
    intros i cmd Hcmd.
    assert (Hlt : i < length (runner.goroutines st)).
    { rewrite Hg. by eapply lookup_lt_Some. }
    destruct (lookup_lt_is_Some_2 _ i Hlt) as [g Hgi].
    specialize (Hslots i g Hgi).
    unfold runner.par_done in Hdone. rewrite Forall_lookup in Hdone.
    destruct (Hdone i g Hgi) as [-> | ->]; simpl in Hslots.
    + left. split; [done |].
      destruct Hslots as (cmd' & w0 & Hcmd' & Hres). simplify_eq.
      exists w0. split; [done |]. apply executeCommand_Command.
    + right. by destruct Hslots.
Qed.

Lemma Run_parallel_index_addressed_witness :
  let r := runner.New (example_config [["echo"; "a"]; ["echo"; "{path}"]] 1) false false in
  let first :=
    {| runner.Command_ := ["echo"; "a"]; runner.ExitCode := 0; runner.Duration := 0;
       runner.Error := None |} in
  let w' := {| runner.os_state := tt; runner.prepared := [["echo"; "a"]] |} in
  runner.sequential r = false
  /\ runner.Run example_os r "/tmp/test.go" "WRITE" example_world
       [first; runner.zeroRunResult] w'
  /\ length [first; runner.zeroRunResult] = 2.
Proof.
  intros r first w'.
  set (commands := config.Commands (config.Config_OnChange (runner.cfg r))).
  set (st := {| runner.goroutines := [runner.Finished; runner.Abandoned];
                runner.results := [first; runner.zeroRunResult];
                runner.sem := 0; runner.gctx_done := true; runner.world := w' |}).
  assert (HRun : runner.Run example_os r "/tmp/test.go" "WRITE" example_world
                   [first; runner.zeroRunResult] w').
  { apply (runner.Run_parallel example_os r "/tmp/test.go" "WRITE" example_world st);
      [discriminate | reflexivity |].
    split; [| constructor; [by left | constructor; [by right | constructor]]].
    eapply rtc_l.
    { apply (runner.step_acquire example_os r commands _ _ _ 0);
        [reflexivity | simpl; lia]. }
    eapply rtc_l.
    { apply (runner.step_finish example_os r commands _ _ _ 0
               {| config.Cmd := ["echo"; "a"]; config.Run := ""; config.Timeout := "" |}
               first w'); reflexivity. }
    eapply rtc_l.
    { apply runner.step_cancel. }
    eapply rtc_l.
    { apply (runner.step_abandon example_os r commands _ _ _ 1); reflexivity. }
    apply rtc_refl. }
  split; [reflexivity |]. split; [exact HRun |].
  exact (proj1 (Run_parallel_index_addressed example_os r "/tmp/test.go" "WRITE"
                  example_world w' _ eq_refl HRun)).
Defined.

(** C5.  In parallel mode, with a maximum concurrency of at least one: at
    every moment of a run the number of commands that execute is the number
    of slots taken and never exceeds the maximum; when [executeParallel]
    returns, and so when [Run] does, no command executes any more, every
    command having finished or having been abandoned with the context
    cancelled; and the wait does end by the commands alone: from every
    moment at which the context is not cancelled, [executeParallel] can come
    to its return without a cancellation, every command finished. *)
Theorem executeParallel_concurrency_ceiling
        {S : Type} (os : runner.OS S) (r : runner.Runner)
        (commands : list config.Command) (path event : string)
        (w : runner.World S) :
  (1 <= config.MaxConcurrency (runner.cfg r))%Z ->
  (forall st,
      rtc (runner.par_step os r commands path event) (runner.par_init commands w) st ->
      runner.sem st = runner.running st
      /\ (Z.of_nat (runner.running st) <= config.MaxConcurrency (runner.cfg r))%Z)
  /\ (forall st,
        runner.executeParallel os r commands path event w st ->
        runner.running st = 0
        /\ runner.sem st = 0
        /\ forall i cmd,
            commands !! i = Some cmd ->
            runner.goroutines st !! i = Some runner.Finished
            \/ (runner.goroutines st !! i = Some runner.Abandoned
                /\ runner.gctx_done st = true))
  /\ (forall res w',
        commands = config.Commands (config.Config_OnChange (runner.cfg r)) ->
        commands <> [] ->
        runner.sequential r = false ->
        runner.Run os r path event w res w' ->
        exists st,
          runner.executeParallel os r commands path event w st
          /\ res = runner.results st /\ w' = runner.world st
          /\ runner.running st = 0)
  /\ (forall st,
        rtc (runner.par_step os r commands path event) (runner.par_init commands w) st ->
        runner.gctx_done st = false ->
        exists st',
          rtc (runner.par_step os r commands path event) st st'
          /\ runner.executeParallel os r commands path event w st'
          /\ runner.gctx_done st' = false
          /\ forall i cmd,
              commands !! i = Some cmd ->
              runner.goroutines st' !! i = Some runner.Finished).
Proof.
  intros HM. split; [| split; [| split]].
  - intros st Hrtc.
    pose proof (par_inv_reachable os r commands path event w st Hrtc) as [_ _ Hs _].
    pose proof (sem_bounded os r commands path event w st ltac:(lia) Hrtc) as Hsem.
    split; [done | by rewrite <- Hs].
  - intros st [Hrtc Hdone].
    pose proof (par_inv_reachable os r commands path event w st Hrtc) as Hinv.
    pose proof (par_done_running st Hdone) as Hrun.
    split; [done |]. split; [by rewrite (runner.inv_sem _ _ _ _ _ _ Hinv) |].
    intros i cmd Hcmd. by eapply par_done_returned.
  - intros res w' -> Hne Hpar HRun.
    destruct HRun as [Hnil | res w' _ Hseq _ | st _ _ Hret]; [done | congruence |].
    exists st. split; [done |]. split; [done |]. split; [done |].
    destruct Hret as [_ Hdone]. by apply par_done_running.
  - intros st Hrtc Hctx. by apply par_returns_uncancelled.
Qed.

Lemma executeParallel_concurrency_ceiling_witness :
  let r := runner.New (example_config [["echo"; "a"]; ["echo"; "b"]; ["echo"; "c"]] 2)
             false false in
  let commands := config.Commands (config.Config_OnChange (runner.cfg r)) in
  let st :=
    {| runner.goroutines := [runner.Running; runner.Waiting; runner.Running];
       runner.results := replicate 3 runner.zeroRunResult;
       runner.sem := 2; runner.gctx_done := false; runner.world := example_world |} in
  (1 <= config.MaxConcurrency (runner.cfg r))%Z
  /\ rtc (runner.par_step example_os r commands "/tmp/test.go" "WRITE")
       (runner.par_init commands example_world) st
  /\ (Z.of_nat (runner.running st) <= 2)%Z
  /\ exists st',
      runner.executeParallel example_os r commands "/tmp/test.go" "WRITE"
        example_world st'
      /\ runner.gctx_done st' = false.
Proof.
  intros r commands st.
  assert (HM : (1 <= config.MaxConcurrency (runner.cfg r))%Z) by (simpl; lia).
  assert (Hrtc : rtc (runner.par_step example_os r commands "/tmp/test.go" "WRITE")
                   (runner.par_init commands example_world) st).
  { eapply rtc_l.
    { apply (runner.step_acquire example_os r commands _ _ _ 2);
        [reflexivity | simpl; lia]. }
    eapply rtc_l.
    { apply (runner.step_acquire example_os r commands _ _ _ 0);
        [reflexivity | simpl; lia]. }
    apply rtc_refl. }
  pose proof (executeParallel_concurrency_ceiling example_os r commands
                "/tmp/test.go" "WRITE" example_world HM) as (Hceiling & _ & _ & Hend).
  split; [exact HM |]. split; [exact Hrtc |].
  split; [exact (proj2 (Hceiling st Hrtc)) |].
  destruct (Hend st Hrtc eq_refl) as (st' & _ & Hret & Hctx & _).
  exists st'. split; [exact Hret | exact Hctx].
Defined.

(** ** The watch registration *)

Section Registration.

Import strings config watcher.

Lemma grows_refl (w : Watcher) : grows w w.
Proof. by intros p. Qed.

Lemma grows_trans (w1 w2 w3 : Watcher) : grows w1 w2 -> grows w2 w3 -> grows w1 w3.
Proof. intros H12 H23 p Hp. by apply H23, H12. Qed.

Lemma addSingle_watched (sys : Sys) (path : string) (w : Watcher) :
  watched (addSingle sys path w).2 = watched w
  \/ watched (addSingle sys path w).2 = <[path := true]> (watched w).
Proof.
  unfold addSingle.
  destruct (default false (watched w !! path)); [by left |].
  destruct (fsnotify_Add sys path (fs_adds w)); [by left | by right].
Qed.

Lemma addSingle_grows (sys : Sys) (path : string) (w : Watcher) :
  grows w (addSingle sys path w).2.
Proof.
  intros p Hp. unfold is_watched in *.
  destruct (addSingle_watched sys path w) as [-> | ->]; [done |].
  destruct (decide (path = p)) as [-> | Hne].
  - by rewrite lookup_insert_eq.
  - by rewrite lookup_insert_ne.
Qed.

Lemma addSingle_present (sys : Sys) (path : string) (w : Watcher) :
  is_watched w path -> addSingle sys path w = (None, w).
Proof. unfold is_watched, addSingle. by intros ->. Qed.

Lemma walkFn_grows (sys : Sys) (path : string) (info : option FileInfo)
      (err : option string) (w : Watcher) :
  grows w (walkFn sys path info err w).2.
Proof.
  unfold walkFn. destruct err; [apply grows_refl |].
  destruct info as [info|]; [| apply grows_refl].
  destruct (negb (IsDir info)); [apply grows_refl |].
  destruct (shouldIgnore (pf sys) (cfg w) path); [apply grows_refl |].
  pose proof (addSingle_grows sys path w) as H.
  by destruct (addSingle sys path w).
Qed.

Lemma walk_grows (sys : Sys) (t : Tree) :
  forall (path : string) (w : Watcher), grows w (walk sys path t w).2.
Proof.
  revert t.
  apply (Tree_mut
           (fun t => forall path w, grows w (walk sys path t w).2)
           (fun entries => forall path w, grows w (walk_entries sys path entries w).2)).
  - intros path w. apply walkFn_grows.
  - intros readErr entries IHentries path w. simpl.
    pose proof (walkFn_grows sys path (Some {| IsDir := true |}) readErr w) as H.
    destruct (walkFn sys path (Some {| IsDir := true |}) readErr w) as [err1 w1].
    simpl in H. destruct (_ || _); [done |].
    eapply grows_trans; [exact H | apply IHentries].
  - intros cause path w. apply walkFn_grows.
  - intros path w. apply grows_refl.
  - intros name t IHt rest IHrest path w. simpl.
    set (filename := Join2 sys path name).
    assert (Hwalk : grows w (walk sys filename t w).2) by apply IHt.
    assert (Hrest : forall w1, grows w w1 ->
                      grows w (walk_entries sys path rest w1).2).
    { intros w1 H1. eapply grows_trans; [exact H1 | apply IHrest]. }
    destruct t as [| readErr entries | cause].
    + destruct (walk sys filename File w) as [[[] |] w1]; simpl in Hwalk; auto.
    + destruct (walk sys filename (Dir readErr entries) w) as [[[] |] w1];
        simpl in *; auto.
    + apply grows_refl.
Qed.

Lemma addRecursive_grows (sys : Sys) (root : string) (w : Watcher) :
  grows w (addRecursive sys root w).2.
Proof.
  unfold addRecursive, Walk.
  pose proof (walk_grows sys (Lstat sys root) root w) as H.
  by destruct (walk sys root (Lstat sys root) w) as [[[] |] w1].
Qed.

Lemma addPath_grows (sys : Sys) (wp : WatchPath) (w : Watcher) :
  grows w (addPath sys wp w).2.
Proof.
  unfold addPath.
  destruct (Abs sys (Path wp)) as [absPath |]; [| apply grows_refl].
  destruct (Stat sys absPath) as [info |]; [| apply grows_refl].
  destruct (IsDir info), (Recursive wp);
    auto using addRecursive_grows, addSingle_grows.
Qed.

Lemma add_paths_grows (sys : Sys) (wps : list WatchPath) :
  forall w, grows w (add_paths sys wps w).2.
Proof.
  induction wps as [|wp wps IH]; intros w; simpl; [apply grows_refl |].
  pose proof (addPath_grows sys wp w) as H.
  destruct (addPath sys wp w) as [[e|] w1]; simpl in H; [done |].
  eapply grows_trans; [exact H | apply IH].
Qed.

Lemma watch_new_directory_grows (sys : Sys) (event : FsEvent) (wps : list WatchPath) :
  forall w, grows w (watch_new_directory sys event wps w).
Proof.
  induction wps as [|wp wps IH]; intros w; simpl; [apply grows_refl |].
  destruct (_ && _); [| apply IH].
  eapply grows_trans; [apply (addSingle_grows sys (Name event)) | apply IH].
Qed.

Lemma handle_event_grows (sys : Sys) (t : Z) (event : FsEvent) (w : Watcher) :
  grows w (handle_event sys t event w).
Proof.
  unfold handle_event.
  destruct (shouldIgnore _ _ _); [apply grows_refl |].
  destruct (has_op (Op event) Chmod); [apply grows_refl |].
  intros p Hp. unfold is_watched. simpl.
  destruct (has_op (Op event) Create); [| done].
  destruct (Stat sys (Name event)) as [info |]; [| done].
  destruct (IsDir info); [| done].
  by apply watch_new_directory_grows.
Qed.

Lemma perform_grows (op : Operation) (w : Watcher) : grows w (perform op w).
Proof.
  destruct op; simpl.
  - apply add_paths_grows.
  - apply addSingle_grows.
  - apply addRecursive_grows.
  - apply addPath_grows.
  - apply handle_event_grows.
  - apply grows_refl.
  - destruct (dstep _ _); [by intros p | apply grows_refl].
  - by intros p.
Qed.

Lemma perform_all_grows (ops : list Operation) :
  forall w, grows w (perform_all ops w).
Proof.
  induction ops as [|op ops IH]; intros w; [apply grows_refl |].
  eapply grows_trans; [apply (perform_grows op) | apply IH].
Qed.

End Registration.

(** C9.  The set of watched paths only grows: a path that is watched stays
    watched through every operation of the manager (the registration of the
    configured paths, a recursive walk, the registration of a directory made
    during the run, the timers, even the stop) and through every sequence
    of them; [addSingle] leaves the set as it is or adds its path; and for
    a path already in the set it succeeds and changes nothing, without a
    call to the notification facility. *)
Theorem watched_set_only_grows
        (sys : watcher.Sys) (path : string) (w : watcher.Watcher)
        (ops : list watcher.Operation) (op : watcher.Operation) :
  watcher.is_watched w path ->
  watcher.is_watched (watcher.perform op w) path
  /\ watcher.is_watched (watcher.perform_all ops w) path
  /\ watcher.addSingle sys path w = (None, w)
  /\ forall other,
      watcher.watched (watcher.addSingle sys other w).2 = watcher.watched w
      \/ watcher.watched (watcher.addSingle sys other w).2
         = <[other := true]> (watcher.watched w).
Proof.
  intros Hw. split; [by apply perform_grows |].
  split; [by apply perform_all_grows |].
  split; [by apply addSingle_present |].
  intros other. apply addSingle_watched.
Qed.

(** A watcher of [/srv/app] that already watches it, and a notification
    facility that accepts every path. *)
Lemma watched_set_only_grows_witness :
  watcher.is_watched example_watcher "/srv/app"
  /\ watcher.is_watched
       (watcher.perform_all
          [watcher.OpAddSingle example_sys "/srv/app/pkg";
           watcher.OpEvent example_sys 5
             {| watcher.Name := "/srv/app/new"; watcher.Op := watcher.Create |};
           watcher.OpStop]
          example_watcher)
       "/srv/app".
Proof.
  split; [reflexivity |].
  exact (proj1 (proj2 (watched_set_only_grows example_sys "/srv/app" example_watcher
                         [watcher.OpAddSingle example_sys "/srv/app/pkg";
                          watcher.OpEvent example_sys 5
                            {| watcher.Name := "/srv/app/new";
                               watcher.Op := watcher.Create |};
                          watcher.OpStop]
                         watcher.OpStop eq_refl))).
Defined.

(** ** The ignore predicate *)

Section Ignore.

Import strings config watcher.

Variable pf : filepath.Platform.

(** A path whose base name starts with a dot, the name [.] apart, is
    ignored whatever the configuration. *)
Lemma shouldIgnore_dotfile (cfg : Config) (path : string) :
  HasPrefix (filepath.Base pf path) "." = true ->
  filepath.Base pf path <> "." ->
  shouldIgnore pf cfg path = true.
Proof.
  intros Hdot Hne. unfold shouldIgnore. rewrite Hdot.
  destruct (String.eqb_spec (filepath.Base pf path) "."); done.
Qed.

(** What the configuration ignores, the watcher ignores. *)
Lemma shouldIgnore_config (cfg : Config) (path : string) :
  ShouldIgnore pf cfg path = true -> shouldIgnore pf cfg path = true.
Proof.
  intros H. unfold shouldIgnore. rewrite H.
  by repeat (destruct (_ && _)).
Qed.

Lemma pattern_ignores_doublestar (path base pattern : string) :
  doublestar_rule (filepath.ToSlash pf pattern) path = true ->
  pattern_ignores pf path base pattern = true.
Proof.
  intros H. unfold pattern_ignores. rewrite H.
  by repeat (destruct (matches _ _ _)).
Qed.

(** The rule for a pattern with one [**]: the path starts with the text
    before [**], a trailing slash removed, and the text after [**], a
    leading slash removed, is empty or ends the path or occurs in it. *)
Lemma doublestar_rule_spec (pattern path part0 part1 : string) :
  Split pattern "**" = [part0; part1] ->
  doublestar_rule pattern path = true
  <-> Contains pattern "**" = true
      /\ (TrimSuffix part0 "/" = "" \/ HasPrefix path (TrimSuffix part0 "/") = true)
      /\ (TrimPrefix part1 "/" = ""
          \/ HasSuffix path (TrimPrefix part1 "/") = true
          \/ Contains path (TrimPrefix part1 "/") = true).
Proof.
  intros Hsplit. unfold doublestar_rule. rewrite Hsplit.
  destruct (Contains pattern "**"); [| by split; [| intros []]].
  rewrite andb_true_iff, !orb_true_iff.
  rewrite !(reflect_iff _ _ (String.eqb_spec _ _)). tauto.
Qed.

(** Patterns in which [**] occurs twice or more are not read by the rule. *)
Lemma doublestar_rule_two_parts (pattern path : string) :
  length (Split pattern "**") <> 2 -> doublestar_rule pattern path = false.
Proof.
  intros H. unfold doublestar_rule. destruct (Contains pattern "**"); [| done].
  by destruct (Split pattern "**") as [|? [|? [|? ?]]].
Qed.

Lemma ShouldIgnore_doublestar (cfg : Config) (wp : WatchPath)
      (path pattern part0 part1 : string) :
  In wp (Watch cfg) ->
  In pattern (Ignore wp) ->
  Split (filepath.ToSlash pf pattern) "**" = [part0; part1] ->
  Contains (filepath.ToSlash pf pattern) "**" = true ->
  TrimSuffix part0 "/" = ""
  \/ HasPrefix (filepath.ToSlash pf path) (TrimSuffix part0 "/") = true ->
  TrimPrefix part1 "/" = ""
  \/ HasSuffix (filepath.ToSlash pf path) (TrimPrefix part1 "/") = true
  \/ Contains (filepath.ToSlash pf path) (TrimPrefix part1 "/") = true ->
  ShouldIgnore pf cfg path = true.
Proof.
  intros Hwp Hpat Hsplit Hc Hpre Hsuf. unfold ShouldIgnore.
  apply existsb_exists. exists wp. split; [done |].
  apply existsb_exists. exists pattern. split; [done |].
  apply pattern_ignores_doublestar.
  by apply (doublestar_rule_spec _ _ part0 part1 Hsplit).
Qed.

End Ignore.

(** With the patterns [*.tmp], [vendor/**] and [.git/**]: the paths the
    predicate does ignore. *)
Lemma shouldIgnore_examples (rest : string) :
  let cfg := example_watch_config ["*.tmp"; "vendor/**"; ".git/**"] in
  watcher.shouldIgnore filepath.unix cfg "x.tmp" = true
  /\ watcher.shouldIgnore filepath.unix cfg "/tmp/test.tmp" = true
  /\ watcher.shouldIgnore filepath.unix cfg ("vendor/" +:+ rest) = true
  /\ watcher.shouldIgnore filepath.unix cfg (".git/" +:+ rest) = true
  /\ watcher.shouldIgnore filepath.unix cfg "/tmp/.hidden" = true
  /\ watcher.shouldIgnore filepath.unix cfg "/tmp/test.go" = false
  /\ watcher.shouldIgnore filepath.unix cfg "/tmp/normal/file.go" = false.
Proof.
  intros cfg.
  assert (Hwp : In {| config.Path := "/srv/app"; config.Recursive := true;
                      config.Ignore := ["*.tmp"; "vendor/**"; ".git/**"] |}
                   (config.Watch cfg)) by (by left).
  split; [vm_compute; reflexivity |].
  split; [vm_compute; reflexivity |].
  split.
  { apply shouldIgnore_config.
    apply (ShouldIgnore_doublestar filepath.unix cfg _ _ "vendor/**" "vendor/" "" Hwp);
      [by right; left | reflexivity | reflexivity | | by left].
    right. exact (HasPrefix_append "vendor" ("/" +:+ rest)). }
  split.
  { apply shouldIgnore_config.
    apply (ShouldIgnore_doublestar filepath.unix cfg _ _ ".git/**" ".git/" "" Hwp);
      [by right; right; left | reflexivity | reflexivity | | by left].
    right. exact (HasPrefix_append ".git" ("/" +:+ rest)). }
  repeat split; vm_compute; reflexivity.
Qed.

(** C3: the code at the failing input.  With the patterns [*.tmp],
    [vendor/**] and [.git/**], the absolute paths [/tmp/vendor/pkg] and
    [/tmp/.git/config], which lie under [vendor/] and [.git/] of the watch
    root [/tmp], are not ignored: the text before [**] is compared with the
    start of the whole path. *)
Theorem shouldIgnore_misses_nested_directories :
  let cfg :=
    {| config.Watch :=
         [{| config.Path := "/tmp"; config.Recursive := false;
             config.Ignore := ["*.tmp"; "vendor/**"; ".git/**"] |}];
       config.Config_OnChange := {| config.Commands := [] |};
       config.Debounce := "100ms";
       config.MaxConcurrency := 0 |} in
  watcher.shouldIgnore filepath.unix cfg "/tmp/vendor/pkg" = false
  /\ watcher.shouldIgnore filepath.unix cfg "/tmp/.git/config" = false
  /\ config.doublestar_rule "vendor/**" "/tmp/vendor/pkg" = false
  /\ watcher.shouldIgnore filepath.unix cfg "vendor/pkg" = true.
Proof. intros cfg. repeat split; vm_compute; reflexivity. Qed.

(** ** The debouncer *)

Section DebouncerFacts.

Import watcher.

Context {A : Type}.

Implicit Types (d : Debouncer A) (e : DEvent A) (key : string).

Lemma dstep_time d e d' :
  dstep d e = Some d' -> (clock d <= event_time e)%Z.
Proof.
  unfold dstep. destruct (Z.ltb_spec (event_time e) (clock d)); [done | lia].
Qed.

Lemma key_state_frame key (base : list A) d d' (adds : list (Z * A)) :
  same_view key d d' -> key_state key base d adds -> key_state key base d' adds.
Proof.
  intros [Ht Hp Ha Hs He Hd Hc] Hk.
  assert (Harmed : forall timer, armed_for key d' timer -> armed_for key d timer).
  { intros timer (tm & Htm & Hkey). exists tm. split; [by apply Ha | done]. }
  assert (Hstarted : forall timer, started_for key d' timer -> started_for key d timer).
  { intros timer H. by apply Hs. }
  destruct Hk as [H3 H4 H5
                 | adds t fn timer H1 H2 H3 H4 H5 H6
                 | adds t fn timer H1 H2 H3 H4 H5 H6 H7
                 | adds t fn H1 H2 H3 H4 H5 H6].
  - apply key_idle; rewrite ?He; try done.
    + intros timer H. by apply (H3 timer), Harmed.
    + intros timer H. by apply (H4 timer), Hstarted.
  - apply (key_waiting key base d' adds t fn timer);
      rewrite ?Ht, ?Hp, ?He, ?Hd; try done.
    + by apply Ha.
    + intros timer' H. by apply H4, Harmed.
    + intros timer' H. by apply (H5 timer'), Hstarted.
  - apply (key_started key base d' adds t fn timer);
      rewrite ?Ht, ?Hp, ?He, ?Hd; try done.
    + by apply Hs.
    + intros timer' H. by apply (H4 timer'), Harmed.
    + intros timer' H. by apply H5, Hstarted.
    + lia.
  - apply key_done; rewrite ?Ht, ?Hp, ?He, ?Hd; try done.
    + intros timer H. by apply (H3 timer), Harmed.
    + intros timer H. by apply (H4 timer), Hstarted.
    + lia.
Qed.

Lemma timers_ok_new (delay : Z) : timers_ok (NewDebouncer (A := A) delay).
Proof. split; simpl; intros; by simplify_map_eq. Qed.

Lemma key_state_new (delay : Z) key :
  key_state key [] (NewDebouncer (A := A) delay) [].
Proof.
  apply key_idle; simpl; try done.
  intros timer (tm & H & _). simpl in H. by simplify_map_eq.
Qed.

(** *** The three kinds of event *)

Lemma dstep_add d t key (fn : A) d' :
  dstep d (EvAdd t key fn) = Some d' ->
  (clock d <= t)%Z /\ d' = Add (set_clock d t) key fn.
Proof.
  intros H. pose proof (dstep_time _ _ _ H) as Ht. unfold dstep in H. simpl in *.
  destruct (t <? clock d)%Z; by simplify_eq.
Qed.

Lemma dstep_expire d t timer d' :
  dstep d (EvExpire t timer) = Some d' ->
  (clock d <= t)%Z
  /\ exists tm,
      armed d !! timer = Some tm /\ (expiry tm <= t)%Z
      /\ d' = {| delay := delay d; timers := timers d; pending := pending d;
                 armed := delete timer (armed d);
                 started := <[timer := timer_key tm]> (started d);
                 next_timer := next_timer d; clock := t; executed := executed d |}.
Proof.
  intros H. pose proof (dstep_time _ _ _ H) as Ht. unfold dstep in H. simpl in *.
  destruct (t <? clock d)%Z; [done |].
  destruct (armed d !! timer) as [tm|] eqn:Htm; [| done].
  destruct (Z.leb_spec (expiry tm) t); [| done].
  split; [done |]. exists tm. by simplify_eq.
Qed.

Lemma dstep_run d t timer d' :
  dstep d (EvRun t timer) = Some d' ->
  (clock d <= t)%Z
  /\ exists key,
      started d !! timer = Some key
      /\ d' = timer_func
                {| delay := delay d; timers := timers d; pending := pending d;
                   armed := armed d; started := delete timer (started d);
                   next_timer := next_timer d; clock := t; executed := executed d |}
                key.
Proof.
  intros H. pose proof (dstep_time _ _ _ H) as Ht. unfold dstep in H. simpl in *.
  destruct (t <? clock d)%Z; [done |].
  destruct (started d !! timer) as [key|] eqn:Hk; [| done].
  split; [done |]. exists key. by simplify_eq.
Qed.

(** What [timer.Stop()] leaves waiting was waiting. *)
Lemma stopped_armed d key timer tm :
  match timers d !! key with
  | Some old => Stop old (armed d)
  | None => armed d
  end !! timer = Some tm ->
  armed d !! timer = Some tm.
Proof.
  destruct (timers d !! key) as [old|]; [| done].
  unfold Stop. by intros [_ ?]%lookup_delete_Some.
Qed.

Lemma timers_ok_step d e d' : timers_ok d -> dstep d e = Some d' -> timers_ok d'.
Proof.
  intros [Htab Hf1 Hf2 Hf3 Hdis] Hstep. destruct e as [t key fn | t timer | t timer].
  - apply dstep_add in Hstep as [_ ->]. split; simpl.
    + intros k timer tm Hk Ha. destruct (decide (key = k)) as [<- | Hne].
      * rewrite lookup_insert_eq in Hk. simplify_eq.
        rewrite lookup_insert_eq in Ha. by simplify_eq.
      * rewrite lookup_insert_ne in Hk by done.
        pose proof (Hf1 _ _ Hk).
        rewrite lookup_insert_ne in Ha by lia.
        apply stopped_armed in Ha. by eapply Htab.
    + intros k timer Hk. destruct (decide (key = k)) as [<- | Hne].
      * rewrite lookup_insert_eq in Hk. simplify_eq. lia.
      * rewrite lookup_insert_ne in Hk by done. pose proof (Hf1 _ _ Hk). lia.
    + intros timer tm Ha. destruct (decide (next_timer d = timer)) as [<- | Hne].
      * lia.
      * rewrite lookup_insert_ne in Ha by done.
        apply stopped_armed in Ha. pose proof (Hf2 _ _ Ha). lia.
    + intros timer k Hs. pose proof (Hf3 _ _ Hs). lia.
    + intros timer tm Ha. destruct (decide (next_timer d = timer)) as [<- | Hne].
      * destruct (started d !! next_timer d) as [k|] eqn:Hs; [| done].
        pose proof (Hf3 _ _ Hs). lia.
      * rewrite lookup_insert_ne in Ha by done.
        apply stopped_armed in Ha. by eapply Hdis.
  - apply dstep_expire in Hstep as (_ & tm & Htm & _ & ->). split; simpl.
    + intros k timer0 tm0 Hk [_ Ha]%lookup_delete_Some. by eapply Htab.
    + done.
    + intros timer0 tm0 [_ Ha]%lookup_delete_Some. by eapply Hf2.
    + intros timer0 k Hs. destruct (decide (timer = timer0)) as [<- | Hne].
      * by eapply Hf2.
      * rewrite lookup_insert_ne in Hs by done. by eapply Hf3.
    + intros timer0 tm0 [Hne Ha]%lookup_delete_Some.
      rewrite lookup_insert_ne by done. by eapply Hdis.
  - apply dstep_run in Hstep as (_ & key & Hkey & ->). split; simpl.
    + intros k timer0 tm0 [_ Hk]%lookup_delete_Some Ha. by eapply Htab.
    + intros k timer0 [_ Hk]%lookup_delete_Some. by eapply Hf1.
    + done.
    + intros timer0 k [_ Hs]%lookup_delete_Some. by eapply Hf3.
    + intros timer0 tm0 Ha. apply lookup_delete_None. right. by eapply Hdis.
Qed.

(** *** Events of other keys leave a key alone *)

Lemma executed_for_snoc key (l : list (string * A)) (k : string) (f : A) :
  map snd (filter (fun p => fst p = key) (l ++ [(k, f)]))
  = map snd (filter (fun p => fst p = key) l) ++ (if decide (k = key) then [f] else []).
Proof.
  rewrite filter_app, map_app. f_equal.
  destruct (decide (k = key)) as [-> | Hne].
  - by rewrite filter_cons_True.
  - by rewrite filter_cons_False.
Qed.

Lemma add_other_view key d t k (fn : A) :
  k <> key -> timers_ok d -> (clock d <= t)%Z ->
  same_view key d (Add (set_clock d t) k fn).
Proof.
  intros Hne [Htab Hf1 Hf2 Hf3 Hdis] Ht. split; simpl; try done.
  - by rewrite lookup_insert_ne.
  - by rewrite lookup_insert_ne.
  - intros timer tm Hkey. split.
    + intros Ha. destruct (decide (next_timer d = timer)) as [<- | Hn].
      * rewrite lookup_insert_eq in Ha. by simplify_eq.
      * rewrite lookup_insert_ne in Ha by done. by eapply stopped_armed.
    + intros Ha. pose proof (Hf2 _ _ Ha).
      rewrite lookup_insert_ne by lia.
      destruct (timers d !! k) as [old|] eqn:Hold; [| done].
      unfold Stop. apply lookup_delete_Some. split; [| done].
      intros ->. pose proof (Htab _ _ _ Hold Ha). congruence.
Qed.

Lemma expire_other_view key d t timer tm :
  armed d !! timer = Some tm -> timer_key tm <> key ->
  timers_ok d -> (clock d <= t)%Z ->
  same_view key d
    {| delay := delay d; timers := timers d; pending := pending d;
       armed := delete timer (armed d);
       started := <[timer := timer_key tm]> (started d);
       next_timer := next_timer d; clock := t; executed := executed d |}.
Proof.
  intros Htm Hne [Htab Hf1 Hf2 Hf3 Hdis] Ht. split; simpl; try done.
  - intros timer0 tm0 Hkey. split.
    + by intros [_ ?]%lookup_delete_Some.
    + intros Ha. apply lookup_delete_Some. split; [| done].
      intros ->. congruence.
  - intros timer0. split.
    + intros Hs. destruct (decide (timer = timer0)) as [<- | Hn].
      * rewrite lookup_insert_eq in Hs. congruence.
      * by rewrite lookup_insert_ne in Hs.
    + intros Hs. rewrite lookup_insert_ne; [done |].
      intros ->. pose proof (Hdis _ _ Htm). congruence.
Qed.

Lemma run_other_view key d t timer k :
  started d !! timer = Some k -> k <> key -> (clock d <= t)%Z ->
  same_view key d
    (timer_func
       {| delay := delay d; timers := timers d; pending := pending d;
          armed := armed d; started := delete timer (started d);
          next_timer := next_timer d; clock := t; executed := executed d |}
       k).
Proof.
  intros Hk Hne Ht. split; simpl; try done.
  - by rewrite lookup_delete_ne.
  - by rewrite lookup_delete_ne.
  - intros timer0. split.
    + by intros [_ ?]%lookup_delete_Some.
    + intros Hs. apply lookup_delete_Some. split; [| done].
      intros ->. congruence.
  - unfold executed_for. simpl.
    destruct (pending d !! k) as [f|]; [| done].
    rewrite executed_for_snoc. rewrite decide_False by done. by rewrite app_nil_r.
Qed.

(** *** One event, seen from a key *)

(** Closes a case in which a timer exists for a key that has none. *)
Local Ltac no_such_timer :=
  exfalso;
  match goal with
  | H : forall timer, ~ _ |- _ => solve [eapply H; eassumption]
  end.

Lemma key_state_step key (base : list A) d e d' (adds : list (Z * A)) :
  timers_ok d ->
  key_state key base d adds ->
  dstep d e = Some d' ->
  (forall t fn adds0 t0 f0,
      e = EvAdd t key fn -> adds = adds0 ++ [(t0, f0)] -> (t < t0 + delay d)%Z) ->
  key_state key base d' (adds ++ adds_of key [e]).
Proof.
  intros Hok Hk Hstep Hsoon. destruct e as [t k fn | t timer | t timer]; simpl.
  - apply dstep_add in Hstep as [Ht ->].
    destruct (String.eqb_spec k key) as [-> | Hne];
      [| rewrite app_nil_r; eapply key_state_frame; [by apply add_other_view | done]].
    destruct Hk as [H3 H4 H5
                   | adds t0 f0 timer H1 H2 H3 H4 H5 H6
                   | adds t0 f0 timer H1 H2 H3 H4 H5 H6 H7
                   | adds t0 f0 H1 H2 H3 H4 H5 H6].
    + apply (key_waiting key base _ [] t fn (next_timer d)); simpl; try done.
      * by rewrite lookup_insert_eq.
      * by rewrite lookup_insert_eq.
      * by rewrite lookup_insert_eq.
      * intros timer' (tm & Ha & Hkey). simpl in Ha.
        destruct (decide (next_timer d = timer')) as [<- | Hn]; [done |].
        rewrite lookup_insert_ne in Ha by done.
        apply stopped_armed in Ha.
        exfalso. apply (H3 timer'). by exists tm.
    + apply (key_waiting key base _ (adds ++ [(t0, f0)]) t fn (next_timer d));
        simpl; try done.
      * by rewrite lookup_insert_eq.
      * by rewrite lookup_insert_eq.
      * by rewrite lookup_insert_eq.
      * intros timer' (tm & Ha & Hkey). simpl in Ha. rewrite H1 in Ha.
        destruct (decide (next_timer d = timer')) as [<- | Hn]; [done |].
        rewrite lookup_insert_ne in Ha by done.
        unfold Stop in Ha. apply lookup_delete_Some in Ha as [Hne Ha].
        exfalso. apply Hne. symmetry. apply H4. by exists tm.
    + specialize (Hsoon t fn adds t0 f0 eq_refl eq_refl). lia.
    + specialize (Hsoon t fn adds t0 f0 eq_refl eq_refl). lia.
  - rewrite app_nil_r.
    apply dstep_expire in Hstep as (Ht & tm & Htm & Hexp & ->).
    destruct (decide (timer_key tm = key)) as [Hkey | Hne];
      [| eapply key_state_frame; [by apply expire_other_view | done]].
    assert (Harmed : armed_for key d timer) by (by exists tm).
    clear Hkey.
    destruct Hk as [H3 H4 H5
                   | adds t0 f0 timer0 H1 H2 H3 H4 H5 H6
                   | adds t0 f0 timer0 H1 H2 H3 H4 H5 H6 H7
                   | adds t0 f0 H1 H2 H3 H4 H5 H6];
      try no_such_timer.
    assert (timer = timer0) as -> by (by apply H4).
    rewrite H3 in Htm. injection Htm as <-. simpl in *.
    apply (key_started key base _ adds t0 f0 timer0); simpl; try done.
    + by rewrite lookup_insert_eq.
    + intros timer' (tm & Ha & Hkey'). simpl in Ha.
      apply lookup_delete_Some in Ha as [Hn Ha].
      apply Hn. symmetry. apply H4. by exists tm.
    + intros timer' Hs. unfold started_for in Hs. simpl in Hs.
      destruct (decide (timer0 = timer')) as [<- | Hn]; [done |].
      rewrite lookup_insert_ne in Hs by done. by exfalso; eapply H5.
  - rewrite app_nil_r.
    apply dstep_run in Hstep as (Ht & k & Hstarted & ->).
    destruct (decide (k = key)) as [-> | Hne];
      [| eapply key_state_frame; [by apply run_other_view | done]].
    destruct Hk as [H3 H4 H5
                   | adds t0 f0 timer0 H1 H2 H3 H4 H5 H6
                   | adds t0 f0 timer0 H1 H2 H3 H4 H5 H6 H7
                   | adds t0 f0 H1 H2 H3 H4 H5 H6];
      try no_such_timer.
    assert (timer = timer0) as -> by (by apply H5).
    apply (key_done key base _ adds t0 f0); simpl; try done.
    + by rewrite lookup_delete_eq.
    + by rewrite lookup_delete_eq.
    + intros timer' Hs. unfold started_for in Hs. simpl in Hs.
      apply lookup_delete_Some in Hs as [Hn Hs]. apply Hn. symmetry. by apply H5.
    + unfold executed_for in *. simpl. rewrite H2, executed_for_snoc, H6.
      by rewrite decide_True.
    + lia.
Qed.

(** *** Runs *)

Lemma dstep_delay d e d' : dstep d e = Some d' -> delay d' = delay d.
Proof.
  destruct e as [t k fn | t timer | t timer]; intros H.
  - by apply dstep_add in H as [_ ->].
  - by apply dstep_expire in H as (_ & tm & _ & _ & ->).
  - by apply dstep_run in H as (_ & k & _ & ->).
Qed.

Lemma dstep_expire_ok d t timer tm :
  (clock d <= t)%Z -> armed d !! timer = Some tm -> (expiry tm <= t)%Z ->
  dstep d (EvExpire t timer)
  = Some {| delay := delay d; timers := timers d; pending := pending d;
            armed := delete timer (armed d);
            started := <[timer := timer_key tm]> (started d);
            next_timer := next_timer d; clock := t; executed := executed d |}.
Proof.
  intros Ht Htm Hexp. unfold dstep. simpl.
  destruct (Z.ltb_spec t (clock d)); [lia |]. rewrite Htm.
  by destruct (Z.leb_spec (expiry tm) t); [| lia].
Qed.

Lemma dstep_run_ok d t timer key :
  (clock d <= t)%Z -> started d !! timer = Some key ->
  dstep d (EvRun t timer)
  = Some (timer_func
            {| delay := delay d; timers := timers d; pending := pending d;
               armed := armed d; started := delete timer (started d);
               next_timer := next_timer d; clock := t; executed := executed d |}
            key).
Proof.
  intros Ht Hk. unfold dstep. simpl.
  destruct (Z.ltb_spec t (clock d)); [lia |]. by rewrite Hk.
Qed.

Lemma adds_of_cons key e (trace : list (DEvent A)) :
  adds_of key (e :: trace) = adds_of key [e] ++ adds_of key trace.
Proof.
  destruct e as [t k fn | |]; simpl; try done.
  by destruct (String.eqb k key).
Qed.

Lemma within_delay_last (delay : Z) (l : list (Z * A)) t0 f0 t f rest :
  within_delay delay (l ++ [(t0, f0)] ++ (t, f) :: rest) -> (t < t0 + delay)%Z.
Proof.
  induction l as [|[a fa] l IH]; simpl.
  - by intros [? _].
  - destruct l as [|[b fb] l]; simpl in *; intros [_ H]; by apply IH.
Qed.

Lemma drun_invariant key (base : list A) (trace : list (DEvent A)) :
  forall d d' (adds0 : list (Z * A)),
    timers_ok d -> key_state key base d adds0 ->
    drun d trace = Some d' ->
    within_delay (delay d) (adds0 ++ adds_of key trace) ->
    timers_ok d' /\ key_state key base d' (adds0 ++ adds_of key trace)
    /\ delay d' = delay d.
Proof.
  induction trace as [|e trace IH]; intros d d' adds0 Hok Hk Hrun Hwithin.
  - simpl in *. simplify_eq. by rewrite app_nil_r.
  - simpl in Hrun. destruct (dstep d e) as [d1|] eqn:Hstep; [| done].
    rewrite adds_of_cons, app_assoc in *.
    pose proof (dstep_delay _ _ _ Hstep) as Hdelay.
    destruct (IH d1 d' (adds0 ++ adds_of key [e])) as (Hok' & Hk' & Hd');
      [by eapply timers_ok_step | | done | by rewrite Hdelay |].
    + apply (key_state_step key base d e d1 adds0 Hok Hk Hstep).
      intros t fn a0 t0 f0 -> ->. simpl in Hwithin.
      rewrite String.eqb_refl, <- !app_assoc in Hwithin.
      by eapply within_delay_last.
    + by rewrite Hd'.
Qed.

Lemma drun_timers_ok (trace : list (DEvent A)) :
  forall d d', timers_ok d -> drun d trace = Some d' -> timers_ok d'.
Proof.
  induction trace as [|e trace IH]; intros d d' Hok Hrun; simpl in Hrun.
  - by simplify_eq.
  - destruct (dstep d e) as [d1|] eqn:Hstep; [| done].
    apply (IH d1 d'); [by eapply timers_ok_step | done].
Qed.

Lemma drun_delay (trace : list (DEvent A)) :
  forall d d', drun d trace = Some d' -> delay d' = delay d.
Proof.
  induction trace as [|e trace IH]; intros d d' Hrun; simpl in Hrun.
  - by simplify_eq.
  - destruct (dstep d e) as [d1|] eqn:Hstep; [| done].
    rewrite (IH d1 d' Hrun). by eapply dstep_delay.
Qed.

(** With no timer left for the key, the action of the last call has been
    taken. *)
Lemma key_state_quiescent key (base : list A) d (adds : list (Z * A)) t fn :
  key_state key base d (adds ++ [(t, fn)]) ->
  (forall timer, ~ armed_for key d timer) ->
  (forall timer, ~ started_for key d timer) ->
  executed_for key d = base ++ [fn].
Proof.
  intros Hk Ha Hs. remember (adds ++ [(t, fn)]) as l eqn:Hl.
  destruct Hk as [H3 H4 H5
                 | adds' t0 f0 timer0 H1 H2 H3 H4 H5 H6
                 | adds' t0 f0 timer0 H1 H2 H3 H4 H5 H6 H7
                 | adds' t0 f0 H1 H2 H3 H4 H5 H6].
  - by destruct adds.
  - exfalso. apply (Ha timer0). by eexists.
  - exfalso. by apply (Hs timer0).
  - apply app_inj_tail in Hl as [_ Heq]. by injection Heq as -> ->.
Qed.

(** From wherever a key is, its timer can expire and run, and the action
    of the last call is then the one action taken. *)
Lemma key_state_release key (base : list A) d (adds : list (Z * A)) t fn :
  key_state key base d (adds ++ [(t, fn)]) ->
  (executed_for key d = base \/ executed_for key d = base ++ [fn])
  /\ (executed_for key d = base ++ [fn] -> (t + delay d <= clock d)%Z)
  /\ exists rest d',
      drun d rest = Some d' /\ adds_of key rest = []
      /\ executed_for key d' = base ++ [fn]
      /\ (forall timer, ~ armed_for key d' timer)
      /\ (forall timer, ~ started_for key d' timer).
Proof.
  intros Hk. remember (adds ++ [(t, fn)]) as l eqn:Hl.
  assert (Hgrown : base ++ [fn] <> base).
  { intros H. apply (f_equal length) in H. rewrite length_app in H. simpl in H. lia. }
  destruct Hk as [H3 H4 H5
                 | adds' t0 f0 timer0 H1 H2 H3 H4 H5 H6
                 | adds' t0 f0 timer0 H1 H2 H3 H4 H5 H6 H7
                 | adds' t0 f0 H1 H2 H3 H4 H5 H6].
  - by destruct adds.
  - apply app_inj_tail in Hl as [_ Heq]. injection Heq as -> ->.
    split; [by left |]. split; [rewrite H6; intros H; by symmetry in H |].
    set (t1 := Z.max (clock d) (t + delay d)).
    eexists [EvExpire t1 timer0; EvRun t1 timer0], _. split.
    { simpl. rewrite (dstep_expire_ok d t1 timer0 _ ltac:(lia) H3) by (simpl; lia).
      rewrite (dstep_run_ok _ t1 timer0 key) by (simpl; first [lia | by rewrite lookup_insert_eq]).
      done. }
    split; [done |]. simpl. split; [| split].
    + unfold executed_for in *. simpl. rewrite H2, executed_for_snoc, H6.
      by rewrite decide_True.
    + intros timer' (tm & Ha & Hkey). simpl in Ha.
      apply lookup_delete_Some in Ha as [Hn Ha].
      apply Hn. symmetry. apply H4. by exists tm.
    + intros timer' Hs. unfold started_for in Hs. simpl in Hs.
      apply lookup_delete_Some in Hs as [Hn Hs].
      rewrite lookup_insert_ne in Hs by done. by apply (H5 timer').
  - apply app_inj_tail in Hl as [_ Heq]. injection Heq as -> ->.
    split; [by left |]. split; [rewrite H6; intros H; by symmetry in H |].
    eexists [EvRun (clock d) timer0], _. split.
    { simpl. by rewrite (dstep_run_ok d (clock d) timer0 key) by (done || lia). }
    split; [done |]. simpl. split; [| split].
    + unfold executed_for in *. simpl. rewrite H2, executed_for_snoc, H6.
      by rewrite decide_True.
    + done.
    + intros timer' Hs. unfold started_for in Hs. simpl in Hs.
      apply lookup_delete_Some in Hs as [Hn Hs]. apply Hn. symmetry. by apply H5.
  - apply app_inj_tail in Hl as [_ Heq]. injection Heq as -> ->.
    split; [by right |]. split; [done |].
    by exists [], d.
Qed.

(** A burst: from a state a debouncer has come to, with no timer left
    for the key, through calls of [Add] for the key that come each before
    the delay has elapsed since the one before. *)
Lemma burst_invariant key (before trace : list (DEvent A)) (delay0 : Z)
      d0 d (adds : list (Z * A)) t fn :
  drun (NewDebouncer delay0) before = Some d0 ->
  (forall timer, ~ armed_for key d0 timer) ->
  (forall timer, ~ started_for key d0 timer) ->
  drun d0 trace = Some d ->
  adds_of key trace = adds ++ [(t, fn)] ->
  within_delay delay0 (adds_of key trace) ->
  key_state key (executed_for key d0) d (adds ++ [(t, fn)])
  /\ delay d = delay0.
Proof.
  intros Hbefore Harmed Hstarted Hrun Hadds Hwithin.
  pose proof (drun_timers_ok before _ d0 (timers_ok_new delay0) Hbefore) as Hok.
  pose proof (drun_delay before _ d0 Hbefore) as Hdelay. simpl in Hdelay.
  destruct (drun_invariant key (executed_for key d0) trace d0 d [])
    as (_ & Hk & Hd); [done | by apply key_idle | done | by rewrite Hdelay |].
  simpl in Hk. rewrite Hadds in Hk. split; [done | congruence].
Qed.

End DebouncerFacts.

(** A burst that begins when no timer is left for the key, in a state
    the debouncer has come to in any way: when [Add] is called for the key
    N times, each call arriving before the delay has elapsed since the one
    before, then, whatever else happens (calls for other keys, timers
    expiring and their functions running at any time from their expiry
    on), no action of the burst but that of the last call is ever taken to
    be called, and it is taken at most once and not before the delay of
    the last call has elapsed; once no timer is left for the key it has
    been taken; and a timer is left until then, so that the call does come
    about. *)
Lemma debounce_last_writer_wins
      {A : Type} (delay : Z) (key : string) (before trace : list (watcher.DEvent A))
      (d0 d : watcher.Debouncer A) (adds : list (Z * A)) (t : Z) (fn : A) :
  watcher.drun (watcher.NewDebouncer delay) before = Some d0 ->
  (forall timer, ~ watcher.armed_for key d0 timer) ->
  (forall timer, ~ watcher.started_for key d0 timer) ->
  watcher.drun d0 trace = Some d ->
  watcher.adds_of key trace = adds ++ [(t, fn)] ->
  watcher.within_delay delay (watcher.adds_of key trace) ->
  let base := watcher.executed_for key d0 in
  (watcher.executed_for key d = base \/ watcher.executed_for key d = base ++ [fn])
  /\ (watcher.executed_for key d = base ++ [fn] -> (t + delay <= watcher.clock d)%Z)
  /\ ((forall timer, ~ watcher.armed_for key d timer) ->
      (forall timer, ~ watcher.started_for key d timer) ->
      watcher.executed_for key d = base ++ [fn])
  /\ (exists rest d',
        watcher.drun d rest = Some d' /\ watcher.adds_of key rest = []
        /\ watcher.executed_for key d' = base ++ [fn]
        /\ (forall timer, ~ watcher.armed_for key d' timer)
        /\ (forall timer, ~ watcher.started_for key d' timer)).
Proof.
  intros Hbefore Harmed Hstarted Hrun Hadds Hwithin base.
  destruct (burst_invariant key before trace delay d0 d adds t fn) as [Hk Hdelay];
    try done.
  destruct (key_state_release key base d adds t fn Hk) as (H1 & H2 & H3).
  rewrite Hdelay in H2.
  split; [done |]. split; [done |]. split; [| done].
  by apply (key_state_quiescent key base d adds t fn).
Qed.

Lemma debounce_last_writer_wins_example :
  watcher.executed_for "k" example_debounced = [3]
  /\ watcher.executed_for "k" example_debounced_again = [3] ++ [5].
Proof.
  assert (Hbefore : watcher.drun (watcher.NewDebouncer 100) example_trace
                    = Some example_debounced) by (vm_compute; reflexivity).
  assert (Harmed : forall timer, ~ watcher.armed_for "k" example_debounced timer).
  { intros timer (tm & H & _). vm_compute in H. done. }
  assert (Hstarted : forall timer, ~ watcher.started_for "k" example_debounced timer).
  { intros timer H. vm_compute in H. done. }
  assert (Hrun : watcher.drun example_debounced example_second_burst
                 = Some example_debounced_again) by (vm_compute; reflexivity).
  assert (Hadds : watcher.adds_of "k" example_second_burst
                  = [(300%Z, 4)] ++ [(320%Z, 5)]) by reflexivity.
  assert (Hwithin : watcher.within_delay 100
                      (watcher.adds_of "k" example_second_burst)).
  { rewrite Hadds. simpl. lia. }
  assert (Hbase : watcher.executed_for "k" example_debounced = [3])
    by (vm_compute; reflexivity).
  split; [exact Hbase |]. rewrite <- Hbase.
  apply (debounce_last_writer_wins 100 "k" example_trace example_second_burst
           example_debounced example_debounced_again [(300%Z, 4)] 320 5
           Hbefore Harmed Hstarted Hrun Hadds Hwithin).
  - intros timer (tm & H & _). vm_compute in H. done.
  - intros timer H. vm_compute in H. done.
Qed.

Lemma dstep_add_ok {A : Type} (d : watcher.Debouncer A) (t : Z) (key : string) (fn : A) :
  (watcher.clock d <= t)%Z ->
  watcher.dstep d (watcher.EvAdd t key fn)
  = Some (watcher.Add (watcher.set_clock d t) key fn).
Proof.
  intros Ht. unfold watcher.dstep. simpl.
  by destruct (Z.ltb_spec t (watcher.clock d)); [lia |].
Qed.

(** C1.  A burst that begins while a timer of the key has expired and its
    function has not yet taken the lock is not coalesced.  With an action
    added a delay or more before: the timer of that action expires, [Add]
    is called for the key (the first call of the burst: [timer.Stop] finds
    the timer expired and stops nothing), the function of the expired
    timer takes the action of that call, and [Add] is called again before
    the delay has elapsed since the first call; the entry in [timers] being
    deleted, the timer of the first call is not stopped, and its function
    takes the action of the second call.  Two actions of a burst of two are
    taken to be called, the earlier one among them, and the later one
    before its own delay has elapsed. *)
Theorem debounce_expired_timer_calls_twice
        {A : Type} (delay t1 t2 : Z) (key : string) (f0 f1 f2 : A) :
  (0 <= delay)%Z -> (delay <= t1)%Z -> (t1 <= t2)%Z -> (t2 < t1 + delay)%Z ->
  let before := [watcher.EvAdd 0 key f0; watcher.EvExpire t1 0] in
  let burst :=
    [watcher.EvAdd t1 key f1; watcher.EvRun t1 0;
     watcher.EvAdd t2 key f2;
     watcher.EvExpire (t1 + delay) 1; watcher.EvRun (t1 + delay) 1] in
  watcher.adds_of key burst = [(t1, f1); (t2, f2)]
  /\ watcher.within_delay delay (watcher.adds_of key burst)
  /\ exists d0 d,
      watcher.drun (watcher.NewDebouncer delay) before = Some d0
      /\ watcher.started_for key d0 0
      /\ watcher.executed_for key d0 = []
      /\ watcher.drun d0 burst = Some d
      /\ watcher.executed_for key d = [f1; f2]
      /\ watcher.clock d = (t1 + delay)%Z
      /\ (watcher.clock d <= t2 + delay)%Z.
Proof.
  intros Hdelay Ht1 Ht2 Hsoon before burst.
  assert (Hadds : watcher.adds_of key burst = [(t1, f1); (t2, f2)]).
  { subst burst. simpl. by rewrite String.eqb_refl. }
  split; [exact Hadds |]. split; [rewrite Hadds; simpl; lia |].
  subst before burst. eexists _, _.
  split.
  { cbn [watcher.drun]. rewrite dstep_add_ok by (simpl; lia).
    erewrite dstep_expire_ok;
      [reflexivity | simpl; lia | simpl; apply lookup_insert_eq | simpl; lia]. }
  split; [unfold watcher.started_for; simpl; apply lookup_insert_eq |].
  split; [done |].
  split.
  { cbn [watcher.drun]. rewrite dstep_add_ok by (simpl; lia).
    erewrite dstep_run_ok;
      [| simpl; lia | simpl; apply lookup_insert_eq].
    rewrite dstep_add_ok by (simpl; lia).
    erewrite dstep_expire_ok;
      [| simpl; lia
       | simpl; rewrite lookup_delete_eq; simpl;
         rewrite lookup_insert_ne by done;
         rewrite lookup_insert_eq; reflexivity
       | simpl; lia].
    erewrite dstep_run_ok;
      [reflexivity | simpl; lia | simpl; apply lookup_insert_eq]. }
  simpl. split; [| split; [done | lia]].
  unfold watcher.executed_for. simpl.
  rewrite lookup_insert_eq. simpl.
  rewrite lookup_insert_eq. simpl.
  rewrite !filter_cons_True by done. done.
Qed.

Lemma debounce_expired_timer_calls_twice_witness :
  (0 <= 100)%Z /\ (100 <= 100)%Z /\ (100 <= 120)%Z /\ (120 < 100 + 100)%Z
  /\ exists d0 d,
      watcher.drun (watcher.NewDebouncer 100)
        [watcher.EvAdd 0 "k" 0; watcher.EvExpire 100 0] = Some d0
      /\ watcher.drun d0
           [watcher.EvAdd 100 "k" 1; watcher.EvRun 100 0;
            watcher.EvAdd 120 "k" 2;
            watcher.EvExpire 200 1; watcher.EvRun 200 1] = Some d
      /\ watcher.executed_for "k" d = [1; 2]
      /\ watcher.clock d = 200%Z.
Proof.
  assert (H1 : (0 <= 100)%Z) by lia.
  assert (H2 : (100 <= 100)%Z) by lia.
  assert (H3 : (100 <= 120)%Z) by lia.
  assert (H4 : (120 < 100 + 100)%Z) by lia.
  split; [exact H1 |]. split; [exact H2 |]. split; [exact H3 |]. split; [exact H4 |].
  destruct (debounce_expired_timer_calls_twice 100 100 120 "k" 0 1 2 H1 H2 H3 H4)
    as (_ & _ & d0 & d & Hbefore & _ & _ & Hrun & Hexec & Hclock & _).
  exists d0, d. split; [exact Hbefore |]. split; [exact Hrun |].
  split; [exact Hexec | exact Hclock].
Defined.

(* ===================================================================== *)
(** * Part III: further properties of the code                            *)
(* ===================================================================== *)

(** ** The runner *)

Section RunnerFacts.

Import strings config runner.

Lemma replace_scan_absent (old new s : string) :
  Contains s old = false -> replace_scan old new s 0 = s.
Proof.
  induction s as [|c s IH]; [done |].
  intros H. simpl in H. apply orb_false_iff in H as [Hp Hc].
  change (replace_scan old new (String c s) 0)
    with (if HasPrefix (String c s) old
          then new +:+ replace_scan old new s (String.length old - 1)
          else String c (replace_scan old new s 0)).
  rewrite Hp. by rewrite IH.
Qed.

Lemma ReplaceAll_absent (s old new : string) :
  old <> "" -> Contains s old = false -> ReplaceAll s old new = s.
Proof.
  intros Hne H. destruct old as [|c old]; [done |].
  by apply replace_scan_absent.
Qed.

Context {S : Type} (os : OS S).

Lemma executeCommand_dry (r : Runner) (cmd : Command) (path event : string)
      (w : World S) :
  dryRun r = true ->
  executeCommand os r cmd path event w = (started.dry_result path event cmd, w).
Proof. intros H. unfold executeCommand. by rewrite H. Qed.

Lemma executeCommand_processes (r : Runner) (cmd : Command) (path event : string)
      (w : World S) :
  prepared (executeCommand os r cmd path event w).2
  = prepared w ++ started.processes os r path event cmd.
Proof.
  unfold executeCommand, started.processes, started.argv,
    bind, since, now, run_process, ret, bind.
  destruct (dryRun r); [by rewrite app_nil_r |].
  destruct (replacePlaceholders (Cmd cmd) path event) as [|tok toks] eqn:Htok;
    simpl.
  - destruct (Now os (os_state w)) as [t s]. simpl.
    destruct (Now os s) as [t' s']. simpl. by rewrite app_nil_r.
  - destruct (Now os (os_state w)) as [t s]. simpl.
    destruct (Exec os _ _ s) as [out s1]. simpl.
    destruct (Now os s1) as [t' s'].
    by destruct out as [| | |[]], (GOOS os =? "windows")%string.
Qed.

End RunnerFacts.

(** X1.  A command none of whose tokens holds a placeholder is handed on
    unchanged, whatever the path and the event are. *)
Theorem replacePlaceholders_without_placeholders
        (cmd : list string) (path event : string) :
  Forall (fun token => strings.Contains token "{path}" = false
                       /\ strings.Contains token "{event}" = false) cmd ->
  runner.replacePlaceholders cmd path event = cmd.
Proof.
  intros Hcmd. rewrite replacePlaceholders_map.
  induction Hcmd as [|token rest [Hp He] _ IH]; [done |].
  simpl. rewrite IH. f_equal. unfold runner.resolve.
  rewrite (ReplaceAll_absent token "{path}" path) by done.
  by apply ReplaceAll_absent.
Qed.

Lemma replacePlaceholders_without_placeholders_witness :
  Forall (fun token => strings.Contains token "{path}" = false
                       /\ strings.Contains token "{event}" = false)
         ["echo"; "hello"]
  /\ runner.replacePlaceholders ["echo"; "hello"] "/tmp/test.go" "WRITE"
     = ["echo"; "hello"].
Proof.
  assert (H : Forall (fun token => strings.Contains token "{path}" = false
                                   /\ strings.Contains token "{event}" = false)
                     ["echo"; "hello"]).
  { repeat constructor. }
  split; [exact H |].
  exact (replacePlaceholders_without_placeholders
           ["echo"; "hello"] "/tmp/test.go" "WRITE" H).
Defined.

(** ** Dry runs *)

Section DryRun.

Import strings config runner.

Context {S : Type} (os : OS S) (r : Runner) (path event : string).

Hypothesis Hdry : dryRun r = true.

Lemma run_sequential_dry (commands : list Command) :
  forall (acc : list RunResult) (w : World S),
    run_sequential os r commands path event acc w
    = (acc ++ map (started.dry_result path event) commands, w).
Proof.
  induction commands as [|cmd rest IH]; intros acc w.
  - simpl. unfold ret. by rewrite app_nil_r.
  - rewrite run_sequential_cons, executeCommand_dry by done.
    simpl. rewrite IH. by rewrite <- app_assoc.
Qed.

Lemma par_step_dry (commands : list Command) (w : World S) (st : @ParState S) :
  rtc (par_step os r commands path event) (par_init commands w) st ->
  world st = w.
Proof.
  intros Hrtc.
  apply (rtc_ind_r (R := par_step os r commands path event)
           (fun st => world st = w) (par_init commands w));
    [done | | exact Hrtc].
  intros y z _ Hstep IH.
  destruct Hstep as [st0 | st0 i Hi Hroom | st0 i Hi Hdone
                     | st0 i cmd res w' Hi Hcmd Hexec]; simpl in *; try done.
  rewrite executeCommand_dry in Hexec by done. congruence.
Qed.

End DryRun.

(** X2.  In dry-run mode [Run] starts nothing and does not even read the
    clock: the world is left as it was; there is one result per command,
    each with exit code zero, no error and no duration; and in sequential
    mode the results are those of all the commands in order, so that the
    chain is never cut short. *)
Theorem Run_dry_run
        {S : Type} (os : runner.OS S) (r : runner.Runner) (path event : string)
        (w w' : runner.World S) (res : list runner.RunResult) :
  runner.dryRun r = true ->
  runner.Run os r path event w res w' ->
  let commands := config.Commands (config.Config_OnChange (runner.cfg r)) in
  w' = w
  /\ length res = length commands
  /\ Forall (fun result =>
               runner.ExitCode result = 0%Z /\ runner.Error result = None
               /\ runner.Duration result = 0%Z) res
  /\ (runner.sequential r = true ->
      res = map (started.dry_result path event) commands).
Proof.
  intros Hdry HRun commands.
  destruct HRun as [Hnil | res w' Hne Hseq Hrun | st Hne Hpar [Hrtc Hdone]].
  - subst commands. rewrite Hnil. by repeat split.
  - rewrite run_sequential_dry in Hrun by done. simpl in Hrun.
    injection Hrun as <- <-. fold commands.
    split; [done |]. split; [by rewrite length_map |]. split; [| done].
    clear. induction commands as [|cmd rest IH]; constructor; done.
  - fold commands in Hrtc, Hne.
    pose proof (par_inv_reachable os r commands path event w st Hrtc)
      as [Hg Hr _ Hslots].
    split; [by eapply par_step_dry |]. split; [done |].
    split; [| congruence].
    apply Forall_lookup. intros i result Hi.
    assert (Hlt : i < length (runner.goroutines st)).
    { rewrite Hg, <- Hr. by eapply lookup_lt_Some. }
    destruct (lookup_lt_is_Some_2 _ i Hlt) as [g Hgi].
    specialize (Hslots i g Hgi).
    destruct g; simpl in Hslots.
    + by simplify_eq.
    + by simplify_eq.
    + destruct Hslots as (cmd & w0 & _ & Hres).
      rewrite executeCommand_dry in Hres by done. by simplify_eq.
    + destruct Hslots as [_ Hres]. by simplify_eq.
Qed.

Lemma Run_dry_run_witness :
  let r := runner.New (example_config [["false"]; ["echo"; "{path}"]] 1) true true in
  runner.dryRun r = true
  /\ runner.Run example_os r "/tmp/test.go" "WRITE" example_world
       [started.dry_result "/tmp/test.go" "WRITE"
          {| config.Cmd := ["false"]; config.Run := ""; config.Timeout := "" |};
        started.dry_result "/tmp/test.go" "WRITE"
          {| config.Cmd := ["echo"; "{path}"]; config.Run := ""; config.Timeout := "" |}]
       example_world
  /\ length
       [started.dry_result "/tmp/test.go" "WRITE"
          {| config.Cmd := ["false"]; config.Run := ""; config.Timeout := "" |};
        started.dry_result "/tmp/test.go" "WRITE"
          {| config.Cmd := ["echo"; "{path}"]; config.Run := ""; config.Timeout := "" |}]
     = 2.
Proof.
  intros r.
  assert (HRun : runner.Run example_os r "/tmp/test.go" "WRITE" example_world
       [started.dry_result "/tmp/test.go" "WRITE"
          {| config.Cmd := ["false"]; config.Run := ""; config.Timeout := "" |};
        started.dry_result "/tmp/test.go" "WRITE"
          {| config.Cmd := ["echo"; "{path}"]; config.Run := ""; config.Timeout := "" |}]
       example_world).
  { apply runner.Run_sequential; [discriminate | reflexivity | reflexivity]. }
  split; [reflexivity |]. split; [exact HRun |].
  exact (proj1 (proj2 (Run_dry_run example_os r "/tmp/test.go" "WRITE" example_world
                         example_world _ eq_refl HRun))).
Defined.

(** X3.  The exit code of a result follows from its error: zero when
    there is none, the status of the process when it exited
    unsuccessfully, and -1 for every other failure (an empty command, a
    pipe that cannot be made, a process that cannot be started, a wait
    that fails otherwise). *)
Theorem executeCommand_exit_code
        {S : Type} (os : runner.OS S) (r : runner.Runner) (cmd : config.Command)
        (path event : string) (w : runner.World S) :
  let result := (runner.executeCommand os r cmd path event w).1 in
  match runner.Error result with
  | None => runner.ExitCode result = 0%Z
  | Some (runner.ExitError code) => runner.ExitCode result = code
  | Some _ => runner.ExitCode result = (-1)%Z
  end.
Proof.
  unfold runner.executeCommand, runner.bind, runner.since, runner.now,
    runner.run_process, runner.ret, runner.bind.
  destruct (runner.dryRun r); [done |].
  destruct (runner.Now os (runner.os_state w)) as [t s]. simpl.
  destruct (length _ =? 0).
  - simpl. by destruct (runner.Now os s).
  - simpl. destruct (runner.Exec os _ _ s) as [out s1]. simpl.
    destruct (runner.Now os s1) as [t' s'].
    by destruct out as [| | |[]].
Qed.

(** X4.  Outside dry-run mode a command with at least one token makes
    [executeCommand] prepare exactly one process, however the call ends;
    its argument vector is the resolved tokens themselves on every system
    but Windows, and on Windows unless the shell predicate holds. *)
Theorem executeCommand_prepares_one_process
        {S : Type} (os : runner.OS S) (r : runner.Runner) (cmd : config.Command)
        (path event : string) (w : runner.World S) :
  runner.dryRun r = false ->
  runner.replacePlaceholders (config.Cmd cmd) path event <> [] ->
  let tokens := runner.replacePlaceholders (config.Cmd cmd) path event in
  let w' := (runner.executeCommand os r cmd path event w).2 in
  runner.prepared w' = runner.prepared w ++ [started.argv (runner.GOOS os) tokens]
  /\ (runner.GOOS os <> "windows" ->
      runner.prepared w' = runner.prepared w ++ [tokens])
  /\ (runner.needsShell tokens = false ->
      runner.prepared w' = runner.prepared w ++ [tokens]).
Proof.
  intros Hdry Hne tokens w'.
  assert (H : runner.prepared w'
              = runner.prepared w ++ [started.argv (runner.GOOS os) tokens]).
  { subst w' tokens. rewrite executeCommand_processes. unfold started.processes.
    rewrite Hdry. by destruct (runner.replacePlaceholders _ _ _). }
  split; [done |]. rewrite H. unfold started.argv. split.
  - intros Hos. by destruct (String.eqb_spec (runner.GOOS os) "windows").
  - intros ->. by rewrite andb_false_r.
Qed.

Lemma executeCommand_prepares_one_process_witness :
  let r := runner.New (example_config [] 1) true false in
  let cmd := {| config.Cmd := ["make"; "test"; ">"; "{path}.log"];
                config.Run := ""; config.Timeout := "" |} in
  runner.dryRun r = false
  /\ runner.replacePlaceholders (config.Cmd cmd) "/tmp/a" "WRITE" <> []
  /\ runner.prepared
       (runner.executeCommand example_os r cmd "/tmp/a" "WRITE" example_world).2
     = [["make"; "test"; ">"; "/tmp/a.log"]].
Proof.
  intros r cmd.
  assert (Hne : runner.replacePlaceholders (config.Cmd cmd) "/tmp/a" "WRITE" <> [])
    by (vm_compute; discriminate).
  split; [reflexivity |]. split; [exact Hne |].
  exact (proj1 (executeCommand_prepares_one_process example_os r cmd "/tmp/a" "WRITE"
                  example_world eq_refl Hne)).
Defined.

(** ** What a run starts *)

Section Started.

Import strings config runner.

Context {S : Type} (os : OS S) (r : Runner) (path event : string).

Local Abbreviation processes := (started.processes os r path event).
Local Abbreviation processes_of_finished :=
  (started.processes_of_finished os r path event).

(** The processes of a run until the first failure are those of the
    commands that ran, in order. *)
Lemma run_until_failure_processes (commands : list Command) :
  forall w : World S,
    prepared (spec.run_until_failure os r commands path event w).2
    = prepared w
      ++ concat (map processes
                   (take (length (spec.run_until_failure os r commands path event w).1)
                         commands)).
Proof.
  induction commands as [|cmd rest IH]; intros w.
  - simpl. unfold ret. simpl. by rewrite app_nil_r.
  - rewrite run_until_failure_cons.
    pose proof (executeCommand_processes os r cmd path event w) as Hp.
    destruct (executeCommand os r cmd path event w) as [result w1]; simpl in Hp.
    destruct (ExitCode result =? 0)%Z.
    + specialize (IH w1).
      destruct (spec.run_until_failure os r rest path event w1) as [rs w2].
      simpl in *. by rewrite IH, Hp, <- app_assoc.
    + simpl. rewrite Hp. by rewrite ?take_0, ?app_nil_r.
Qed.

Lemma processes_of_finished_waiting (n : nat) (commands : list Command) :
  processes_of_finished (replicate n Waiting) commands = [].
Proof.
  revert commands. induction n as [|n IH]; intros [|cmd commands]; simpl; auto.
Qed.

Lemma processes_of_finished_all (gs : list goroutine) (commands : list Command) :
  length gs = length commands ->
  Forall (fun g => g = Finished) gs ->
  processes_of_finished gs commands = concat (map processes commands).
Proof.
  intros Hlen Hall. revert commands Hlen.
  induction Hall as [|g gs -> _ IH]; intros [|cmd commands] Hlen;
    simplify_eq/=; [done |].
  by rewrite IH.
Qed.

(** A goroutine that returns from its [executeCommand] adds the processes
    of its command, and no other move changes them. *)
Lemma processes_of_finished_finish (gs : list goroutine) (commands : list Command)
      (i : nat) (cmd : Command) :
  gs !! i = Some Running ->
  commands !! i = Some cmd ->
  processes_of_finished (<[i := Finished]> gs) commands
  ≡ₚ processes_of_finished gs commands ++ processes cmd.
Proof.
  revert i commands.
  induction gs as [|g gs IH]; intros [|i] [|c commands] Hi Hc; simplify_eq/=.
  - by rewrite Permutation_app_comm.
  - rewrite (IH i commands Hi Hc). by rewrite app_assoc.
Qed.

Lemma processes_of_finished_other (gs : list goroutine) (commands : list Command)
      (i : nat) (g g' : goroutine) :
  gs !! i = Some g ->
  g <> Finished -> g' <> Finished ->
  processes_of_finished (<[i := g']> gs) commands
  = processes_of_finished gs commands.
Proof.
  revert i commands.
  induction gs as [|h gs IH]; intros [|i] [|c commands] Hi Hg Hg';
    simplify_eq/=; try done.
  - by destruct g, g'.
  - by rewrite (IH i commands Hi).
Qed.

Lemma par_step_processes (commands : list Command) (w : World S)
      (st : @ParState S) :
  rtc (par_step os r commands path event) (par_init commands w) st ->
  prepared (world st)
  ≡ₚ prepared w ++ processes_of_finished (goroutines st) commands.
Proof.
  intros Hrtc.
  apply (rtc_ind_r (R := par_step os r commands path event)
           (fun st => prepared (world st)
                      ≡ₚ prepared w ++ processes_of_finished (goroutines st) commands)
           (par_init commands w)); [| | exact Hrtc].
  - simpl. by rewrite processes_of_finished_waiting, app_nil_r.
  - intros y z _ Hstep IH.
    destruct Hstep as [st0 | st0 i Hi Hroom | st0 i Hi Hdone
                       | st0 i cmd res w' Hi Hcmd Hexec]; simpl.
    + done.
    + by rewrite (processes_of_finished_other _ _ i Waiting Running).
    + by rewrite (processes_of_finished_other _ _ i Waiting Abandoned).
    + pose proof (executeCommand_processes os r cmd path event (world st0)) as Hp.
      rewrite Hexec in Hp. simpl in Hp. rewrite Hp, IH.
      rewrite (processes_of_finished_finish _ _ i cmd Hi Hcmd).
      by rewrite app_assoc.
Qed.

(** With a capacity of zero nothing moves but the cancellation and the
    goroutines that give up. *)
Lemma par_step_zero (commands : list Command) (w : World S) (st : @ParState S) :
  MaxConcurrency (cfg r) = 0%Z ->
  rtc (par_step os r commands path event) (par_init commands w) st ->
  world st = w
  /\ results st = replicate (length commands) zeroRunResult
  /\ Forall (fun g => g = Waiting \/ (g = Abandoned /\ gctx_done st = true))
            (goroutines st).
Proof.
  intros HM Hrtc.
  apply (rtc_ind_r (R := par_step os r commands path event)
           (fun st => world st = w
                      /\ results st = replicate (length commands) zeroRunResult
                      /\ Forall (fun g => g = Waiting
                                          \/ (g = Abandoned /\ gctx_done st = true))
                                (goroutines st))
           (par_init commands w)); [| | exact Hrtc].
  - simpl. repeat split. apply Forall_forall.
    intros g [-> _]%elem_of_replicate. by left.
  - intros y z _ Hstep (Hw & Hr & Hg).
    destruct Hstep as [st0 | st0 i Hi Hroom | st0 i Hi Hdone
                       | st0 i cmd res w' Hi Hcmd Hexec]; simpl in *.
    + repeat split; try done.
      eapply Forall_impl; [exact Hg |]. intros g [-> | [-> _]]; auto.
    + lia.
    + repeat split; try done.
      apply Forall_insert; [| by right].
      eapply Forall_impl; [exact Hg |]. intros g [-> | [-> _]]; auto.
    + rewrite Forall_lookup in Hg.
      destruct (Hg i Running Hi) as [? | [? _]]; done.
Qed.

End Started.

(** X5.  In sequential mode the processes [Run] prepares are exactly
    those of the commands that have a result, in the order of the command
    list: each command that ran was started once, and none after the one
    that failed. *)
Theorem Run_sequential_processes
        {S : Type} (os : runner.OS S) (r : runner.Runner) (path event : string)
        (w w' : runner.World S) (res : list runner.RunResult) :
  runner.sequential r = true ->
  runner.Run os r path event w res w' ->
  let commands := config.Commands (config.Config_OnChange (runner.cfg r)) in
  runner.prepared w'
  = runner.prepared w
    ++ concat (map (started.processes os r path event) (take (length res) commands)).
Proof.
  intros Hseq HRun commands.
  destruct HRun as [Hnil | res w' Hne _ Hrun | st Hne Hpar _].
  - simpl. by rewrite app_nil_r.
  - rewrite run_sequential_until_failure in Hrun. simpl in Hrun.
    injection Hrun as <- <-. apply run_until_failure_processes.
  - congruence.
Qed.

Lemma Run_sequential_processes_witness :
  let r := runner.New (example_config [["false"]; ["echo"; "ok"]] 1) true false in
  let failed :=
    {| runner.Command_ := ["false"]; runner.ExitCode := 1; runner.Duration := 0;
       runner.Error := Some (runner.ExitError 1) |} in
  let w' := {| runner.os_state := tt; runner.prepared := [["false"]] |} in
  runner.sequential r = true
  /\ runner.Run example_os r "/tmp/test.go" "WRITE" example_world [failed] w'
  /\ runner.prepared w' = [["false"]].
Proof.
  intros r failed w'.
  assert (HRun : runner.Run example_os r "/tmp/test.go" "WRITE" example_world [failed] w').
  { apply runner.Run_sequential; [discriminate | reflexivity | reflexivity]. }
  split; [reflexivity |]. split; [exact HRun |].
  exact (Run_sequential_processes example_os r "/tmp/test.go" "WRITE"
           example_world w' [failed] eq_refl HRun).
Defined.

(** X6.  In parallel mode, when the context is not cancelled, every
    command is run, whether others fail or not: all goroutines finish, and
    the processes prepared are those of all the commands, each once, in an
    order that depends on the schedule. *)
Theorem executeParallel_runs_every_command
        {S : Type} (os : runner.OS S) (r : runner.Runner)
        (commands : list config.Command) (path event : string)
        (w : runner.World S) (st : runner.ParState) :
  runner.executeParallel os r commands path event w st ->
  runner.gctx_done st = false ->
  Forall (fun g => g = runner.Finished) (runner.goroutines st)
  /\ runner.prepared (runner.world st)
     ≡ₚ runner.prepared w
        ++ concat (map (started.processes os r path event) commands).
Proof.
  intros [Hrtc Hdone] Hctx.
  pose proof (par_inv_reachable os r commands path event w st Hrtc)
    as [Hg _ _ Hslots].
  assert (Hall : Forall (fun g => g = runner.Finished) (runner.goroutines st)).
  { apply Forall_lookup. intros i g Hi.
    unfold runner.par_done in Hdone. rewrite Forall_lookup in Hdone.
    destruct (Hdone i g Hi) as [-> | ->]; [done |].
    destruct (Hslots i _ Hi) as [Hc _]. congruence. }
  split; [done |].
  rewrite (par_step_processes os r path event commands w st Hrtc).
  by rewrite (processes_of_finished_all os r path event _ _ Hg Hall).
Qed.

Lemma executeParallel_runs_every_command_witness :
  let r := runner.New (example_config [["false"]; ["echo"; "ok"]] 1) false false in
  let commands := config.Commands (config.Config_OnChange (runner.cfg r)) in
  let failed :=
    {| runner.Command_ := ["false"]; runner.ExitCode := 1; runner.Duration := 0;
       runner.Error := Some (runner.ExitError 1) |} in
  let ok :=
    {| runner.Command_ := ["echo"; "ok"]; runner.ExitCode := 0; runner.Duration := 0;
       runner.Error := None |} in
  let st :=
    {| runner.goroutines := [runner.Finished; runner.Finished];
       runner.results := [failed; ok];
       runner.sem := 0; runner.gctx_done := false;
       runner.world := {| runner.os_state := tt;
                          runner.prepared := [["echo"; "ok"]; ["false"]] |} |} in
  runner.executeParallel example_os r commands "/tmp/test.go" "WRITE" example_world st
  /\ runner.gctx_done st = false
  /\ Forall (fun g => g = runner.Finished) (runner.goroutines st).
Proof.
  intros r commands failed ok st.
  assert (Hpar : runner.executeParallel example_os r commands "/tmp/test.go" "WRITE"
                   example_world st).
  { split; [| by repeat constructor].
    eapply rtc_l.
    { apply (runner.step_acquire example_os r commands _ _ _ 1);
        [reflexivity | simpl; lia]. }
    eapply rtc_l.
    { apply (runner.step_finish example_os r commands _ _ _ 1
               {| config.Cmd := ["echo"; "ok"]; config.Run := ""; config.Timeout := "" |}
               ok {| runner.os_state := tt; runner.prepared := [["echo"; "ok"]] |});
        reflexivity. }
    eapply rtc_l.
    { apply (runner.step_acquire example_os r commands _ _ _ 0);
        [reflexivity | simpl; lia]. }
    eapply rtc_l.
    { apply (runner.step_finish example_os r commands _ _ _ 0
               {| config.Cmd := ["false"]; config.Run := ""; config.Timeout := "" |}
               failed
               {| runner.os_state := tt;
                  runner.prepared := [["echo"; "ok"]; ["false"]] |});
        reflexivity. }
    apply rtc_refl. }
  split; [exact Hpar |]. split; [reflexivity |].
  exact (proj1 (executeParallel_runs_every_command example_os r commands
                  "/tmp/test.go" "WRITE" example_world st Hpar eq_refl)).
Defined.

(** X7.  With a maximum concurrency of zero the channel has no buffer and
    no send on it ever succeeds: no command is run, the results stay zero
    values, the world is untouched, and the wait ends only once the context
    is cancelled, every goroutine having given up. *)
Theorem executeParallel_zero_capacity
        {S : Type} (os : runner.OS S) (r : runner.Runner)
        (commands : list config.Command) (path event : string)
        (w : runner.World S) (st : runner.ParState) :
  config.MaxConcurrency (runner.cfg r) = 0%Z ->
  rtc (runner.par_step os r commands path event) (runner.par_init commands w) st ->
  runner.running st = 0
  /\ runner.world st = w
  /\ runner.results st = replicate (length commands) runner.zeroRunResult
  /\ (runner.par_done st ->
      Forall (fun g => g = runner.Abandoned) (runner.goroutines st)
      /\ (commands <> [] -> runner.gctx_done st = true)).
Proof.
  intros HM Hrtc.
  destruct (par_step_zero os r path event commands w st HM Hrtc) as (Hw & Hr & Hg).
  pose proof (par_inv_reachable os r commands path event w st Hrtc)
    as [Hlen _ _ _].
  split.
  { unfold runner.running. clear -Hg.
    induction Hg as [|g gs [-> | [-> _]] _ IH]; simpl; done. }
  split; [done |]. split; [done |].
  intros Hdone. unfold runner.par_done in Hdone.
  assert (Hall : Forall (fun g => g = runner.Abandoned /\ runner.gctx_done st = true)
                        (runner.goroutines st)).
  { rewrite Forall_lookup in Hg, Hdone. apply Forall_lookup. intros i g Hi.
    destruct (Hg i g Hi) as [-> | [-> Hc]]; [| done].
    destruct (Hdone i _ Hi); done. }
  split.
  - eapply Forall_impl; [exact Hall |]. by intros g [-> _].
  - intros Hne. destruct (runner.goroutines st) as [|g gs] eqn:Hgs.
    + destruct commands; [done | simplify_eq/=].
    + by inversion Hall as [|? ? [_ Hc] _].
Qed.

Lemma executeParallel_zero_capacity_witness :
  let r := runner.New (example_config [["echo"; "a"]] 0) false false in
  let commands := config.Commands (config.Config_OnChange (runner.cfg r)) in
  let st :=
    {| runner.goroutines := [runner.Abandoned];
       runner.results := [runner.zeroRunResult];
       runner.sem := 0; runner.gctx_done := true; runner.world := example_world |} in
  config.MaxConcurrency (runner.cfg r) = 0%Z
  /\ rtc (runner.par_step example_os r commands "/tmp/test.go" "WRITE")
       (runner.par_init commands example_world) st
  /\ runner.running st = 0.
Proof.
  intros r commands st.
  assert (Hrtc : rtc (runner.par_step example_os r commands "/tmp/test.go" "WRITE")
                   (runner.par_init commands example_world) st).
  { eapply rtc_l; [apply runner.step_cancel |].
    eapply rtc_l.
    { apply (runner.step_abandon example_os r commands _ _ _ 0); reflexivity. }
    apply rtc_refl. }
  split; [reflexivity |]. split; [exact Hrtc |].
  exact (proj1 (executeParallel_zero_capacity example_os r commands
                  "/tmp/test.go" "WRITE" example_world st eq_refl Hrtc)).
Defined.

(** ** The validation of a configuration *)

Section ValidateFacts.

Import strings config configfile.

Context {I : Type}.

Variable parse : string -> option Z.
Variable abs : string -> string + string.
Variable stat : string -> I + string.

Local Abbreviation validate_watch := (configfile.validate_watch abs stat).
Local Abbreviation validate_commands := (configfile.validate_commands parse).
Local Abbreviation watch_ok := (configfile.watch_ok abs stat).
Local Abbreviation command_ok := (configfile.command_ok parse).

Lemma validate_watch_None (i : nat) (watch : list WatchPath) :
  validate_watch i watch = None <-> Forall watch_ok watch.
Proof.
  revert i. induction watch as [|w rest IH]; intros i; simpl.
  - split; [constructor | done].
  - rewrite Forall_cons. unfold configfile.watch_ok at 1.
    destruct (String.eqb_spec (Path w) "") as [He|He].
    { split; [done | by intros [[] _]]. }
    destruct (abs (Path w)) as [p|cause].
    2: { split; [done | by intros [(_ & ? & ? & ? & _) _]]. }
    destruct (stat p) as [info|cause] eqn:Hstat.
    2: { split; [done |]. intros [(_ & p' & info & Hp & Hs) _]. congruence. }
    rewrite IH. split; [| by intros [_ ?]].
    intros H. split; [| done]. split; [done |]. by exists p, info.
Qed.

(** An error of the loop over the watch paths names the first path at
    fault. *)
Lemma validate_watch_Some (i : nat) (watch : list WatchPath) (e : error) :
  validate_watch i watch = Some e ->
  exists k w,
    watch !! k = Some w
    /\ Forall watch_ok (take k watch)
    /\ ((e = ErrPathEmpty (i + k) /\ Path w = "")
        \/ (exists cause, e = ErrPathInvalid (i + k) (Path w) cause
                          /\ abs (Path w) = inr cause)
        \/ (exists absPath cause,
              e = ErrPathMissing (i + k) absPath
              /\ abs (Path w) = inl absPath /\ stat absPath = inr cause)).
Proof.
  revert i. induction watch as [|w rest IH]; intros i; simpl; [done |].
  destruct (String.eqb_spec (Path w) "") as [He|He].
  { intros [= <-]. exists 0, w. rewrite Nat.add_0_r. by auto. }
  destruct (abs (Path w)) as [p|cause] eqn:Habs.
  2: { intros [= <-]. exists 0, w. rewrite Nat.add_0_r.
       split; [done |]. split; [by constructor |]. right; left. by exists cause. }
  destruct (stat p) as [info|cause] eqn:Hstat.
  2: { intros [= <-]. exists 0, w. rewrite Nat.add_0_r.
       split; [done |]. split; [by constructor |]. right; right. by exists p, cause. }
  intros (k & w' & Hk & Hok & Hcase)%IH.
  exists (Datatypes.S k), w'. split; [done |]. split.
  - simpl. constructor; [| done]. split; [done |]. by exists p, info.
  - by replace (i + Datatypes.S k) with (Datatypes.S i + k) by lia.
Qed.

Lemma validate_commands_None (i : nat) (commands : list Command) :
  validate_commands i commands = None <-> Forall command_ok commands.
Proof.
  revert i. induction commands as [|cmd rest IH]; intros i; simpl.
  - split; [constructor | done].
  - rewrite Forall_cons. unfold configfile.command_ok at 1.
    destruct (Cmd cmd) as [|tok toks]; simpl.
    { split; [done | by intros [[] _]]. }
    destruct (String.eqb_spec (Timeout cmd) "") as [He|He].
    { rewrite IH. split; [| by intros [_ ?]]. intros H. by auto. }
    destruct (parse (Timeout cmd)) as [d|] eqn:Hd.
    + rewrite IH. split; [| by intros [_ ?]]. intros H.
      split; [| done]. split; [done |]. right. by exists d.
    + split; [done |]. intros [[_ [? | [? ?]]] _]; done.
Qed.

Lemma validate_commands_Some (i : nat) (commands : list Command) (e : error) :
  validate_commands i commands = Some e ->
  exists k cmd,
    commands !! k = Some cmd
    /\ Forall command_ok (take k commands)
    /\ ((e = ErrCmdEmpty (i + k) /\ Cmd cmd = [])
        \/ (e = ErrTimeout (i + k) (Timeout cmd)
            /\ Timeout cmd <> "" /\ parse (Timeout cmd) = None)).
Proof.
  revert i. induction commands as [|cmd rest IH]; intros i; simpl; [done |].
  destruct (Cmd cmd) as [|tok toks] eqn:Hcmd; simpl.
  { intros [= <-]. exists 0, cmd. rewrite Nat.add_0_r. by auto. }
  assert (Hstep :
    validate_commands (Datatypes.S i) rest = Some e ->
    command_ok cmd ->
    exists k cmd0,
      (cmd :: rest) !! k = Some cmd0
      /\ Forall command_ok (take k (cmd :: rest))
      /\ ((e = ErrCmdEmpty (i + k) /\ Cmd cmd0 = [])
          \/ (e = ErrTimeout (i + k) (Timeout cmd0)
              /\ Timeout cmd0 <> "" /\ parse (Timeout cmd0) = None))).
  { intros (k & cmd' & Hk & Hok & Hcase)%IH Hthis.
    exists (Datatypes.S k), cmd'. split; [done |]. split.
    - simpl. by constructor.
    - by replace (i + Datatypes.S k) with (Datatypes.S i + k) by lia. }
  destruct (String.eqb_spec (Timeout cmd) "") as [He|He].
  { intros H. apply Hstep; [done |]. split; [by rewrite Hcmd | by left]. }
  destruct (parse (Timeout cmd)) as [d|] eqn:Hd.
  - intros H. apply Hstep; [done |]. split; [by rewrite Hcmd |]. right. by exists d.
  - intros [= <-]. exists 0, cmd. rewrite Nat.add_0_r.
    split; [done |]. split; [by constructor |]. by right.
Qed.

(** What a configuration that passes has. *)
Lemma Validate_passed (c : Config) :
  configfile.Validate parse abs stat c = None ->
  Watch c <> []
  /\ is_Some (parse (Debounce c))
  /\ Forall watch_ok (Watch c)
  /\ Commands (Config_OnChange c) <> []
  /\ Forall command_ok (Commands (Config_OnChange c))
  /\ (1 <= MaxConcurrency c)%Z.
Proof.
  unfold configfile.Validate.
  destruct (Watch c) as [|w ws] eqn:Hw; [done |].
  cbn [length Nat.eqb].
  destruct (parse (Debounce c)) as [d|] eqn:Hd; [| done].
  destruct (validate_watch 0 (w :: ws)) as [e|] eqn:Hvw; [done |].
  apply validate_watch_None in Hvw.
  destruct (Commands (Config_OnChange c)) as [|cmd cmds] eqn:Hc; [done |].
  cbn [length Nat.eqb].
  destruct (validate_commands 0 (cmd :: cmds)) as [e|] eqn:Hvc; [done |].
  apply validate_commands_None in Hvc.
  destruct (Z.ltb_spec (MaxConcurrency c) 1) as [Hlt|Hge]; [done |].
  intros _. repeat split; try done; by exists d.
Qed.

End ValidateFacts.

(** X8.  [Validate] accepts a configuration exactly when it has a watch
    path, its debounce text is a duration, every watch path is not empty,
    resolves and exists, it has a command, every command has a token and a
    timeout that is empty or a duration, and the maximum concurrency is at
    least one. *)
Theorem Validate_accepts
        {I : Type} (parse : string -> option Z) (abs : string -> string + string)
        (stat : string -> I + string) (c : config.Config) :
  configfile.Validate parse abs stat c = None
  <-> config.Watch c <> []
      /\ is_Some (parse (config.Debounce c))
      /\ Forall (configfile.watch_ok abs stat) (config.Watch c)
      /\ config.Commands (config.Config_OnChange c) <> []
      /\ Forall (configfile.command_ok parse)
                (config.Commands (config.Config_OnChange c))
      /\ (1 <= config.MaxConcurrency c)%Z.
Proof.
  split; [apply Validate_passed |].
  intros (Hw & [d Hd] & Hwok & Hc & Hcok & HM). unfold configfile.Validate.
  destruct (config.Watch c) as [|w ws] eqn:Hwatch; [done |].
  cbn [length Nat.eqb]. rewrite Hd.
  rewrite (proj2 (validate_watch_None abs stat 0 (w :: ws)) Hwok).
  destruct (config.Commands (config.Config_OnChange c)) as [|cmd cmds] eqn:Hcmds;
    [done |].
  cbn [length Nat.eqb].
  rewrite (proj2 (validate_commands_None parse 0 (cmd :: cmds)) Hcok).
  destruct (Z.ltb_spec (config.MaxConcurrency c) 1) as [Hlt|Hge]; [lia | done].
Qed.

(** X9.  An error of [Validate] is true of the configuration, and an
    index in it is the position of the first watch path, or of the first
    command, that is at fault: the entries before it pass their checks.
    [Validate] itself never reports an error of reading. *)
Theorem Validate_error_sound
        {I : Type} (parse : string -> option Z) (abs : string -> string + string)
        (stat : string -> I + string) (c : config.Config) (e : configfile.error) :
  configfile.Validate parse abs stat c = Some e ->
  match e with
  | configfile.ErrNoWatchPath => config.Watch c = []
  | configfile.ErrDebounce value =>
      value = config.Debounce c /\ parse value = None
  | configfile.ErrPathEmpty i =>
      Forall (configfile.watch_ok abs stat) (take i (config.Watch c))
      /\ exists w, config.Watch c !! i = Some w /\ config.Path w = ""
  | configfile.ErrPathInvalid i path cause =>
      Forall (configfile.watch_ok abs stat) (take i (config.Watch c))
      /\ exists w, config.Watch c !! i = Some w /\ config.Path w = path
                   /\ abs path = inr cause
  | configfile.ErrPathMissing i absPath =>
      Forall (configfile.watch_ok abs stat) (take i (config.Watch c))
      /\ exists w cause, config.Watch c !! i = Some w
                         /\ abs (config.Path w) = inl absPath
                         /\ stat absPath = inr cause
  | configfile.ErrNoCommand => config.Commands (config.Config_OnChange c) = []
  | configfile.ErrCmdEmpty i =>
      Forall (configfile.command_ok parse)
             (take i (config.Commands (config.Config_OnChange c)))
      /\ exists cmd, config.Commands (config.Config_OnChange c) !! i = Some cmd
                     /\ config.Cmd cmd = []
  | configfile.ErrTimeout i value =>
      Forall (configfile.command_ok parse)
             (take i (config.Commands (config.Config_OnChange c)))
      /\ exists cmd, config.Commands (config.Config_OnChange c) !! i = Some cmd
                     /\ config.Timeout cmd = value /\ value <> ""
                     /\ parse value = None
  | configfile.ErrMaxConcurrency => (config.MaxConcurrency c < 1)%Z
  | configfile.ErrRead _ | configfile.ErrUnmarshal _ => False
  end.
Proof.
  unfold configfile.Validate.
  destruct (config.Watch c) as [|w ws] eqn:Hw.
  { by intros [= <-]. }
  cbn [length Nat.eqb].
  destruct (parse (config.Debounce c)) as [d|] eqn:Hd.
  2: { by intros [= <-]. }
  destruct (configfile.validate_watch abs stat 0 (w :: ws)) as [e'|] eqn:Hvw.
  { intros [= <-].
    apply validate_watch_Some in Hvw as (k & w' & Hk & Hok & Hcase). simpl in Hcase.
    destruct Hcase as [[-> He] | [(cause & -> & Ha) | (p & cause & -> & Ha & Hs)]];
      (split; [done |]); eauto. }
  destruct (config.Commands (config.Config_OnChange c)) as [|cmd cmds] eqn:Hc.
  { by intros [= <-]. }
  cbn [length Nat.eqb].
  destruct (configfile.validate_commands parse 0 (cmd :: cmds)) as [e'|] eqn:Hvc.
  { intros [= <-].
    apply validate_commands_Some in Hvc as (k & cmd' & Hk & Hok & Hcase).
    simpl in Hcase.
    destruct Hcase as [[-> He] | (-> & Hne & Hp)]; (split; [done |]); eauto. }
  destruct (Z.ltb_spec (config.MaxConcurrency c) 1) as [Hlt|Hge]; [| done].
  by intros [= <-].
Qed.

Lemma Validate_error_sound_witness :
  let c :=
    {| config.Watch :=
         [{| config.Path := "/srv/app"; config.Recursive := true; config.Ignore := [] |};
          {| config.Path := "/srv/gone"; config.Recursive := false; config.Ignore := [] |}];
       config.Config_OnChange := {| config.Commands := [] |};
       config.Debounce := "100ms";
       config.MaxConcurrency := 1 |} in
  configfile.Validate example_parse inl example_stat c
  = Some (configfile.ErrPathMissing 1 "/srv/gone")
  /\ Forall (configfile.watch_ok inl example_stat) (take 1 (config.Watch c)).
Proof.
  intros c.
  assert (H : configfile.Validate example_parse inl example_stat c
              = Some (configfile.ErrPathMissing 1 "/srv/gone")) by reflexivity.
  split; [exact H |].
  exact (proj1 (Validate_error_sound example_parse inl example_stat c _ H)).
Defined.

(** X10.  A configuration that [Load] returns is the one read from the
    file with the two defaults filled in (a debounce of 250ms for an empty
    one, a maximum concurrency of 2 for zero, so that an explicit zero
    cannot be told from none), and it has passed [Validate]: its debounce
    text is the duration [GetDebounceDuration] returns, and its maximum
    concurrency is at least one. *)
Theorem Load_returns_valid
        {I : Type} (parse : string -> option Z) (abs : string -> string + string)
        (stat : string -> I + string) (viper : string -> configfile.Viper)
        (configPath : string) (cfg : config.Config) :
  configfile.Load parse abs stat viper configPath = inl cfg ->
  exists cfg0,
    viper configPath = configfile.Unmarshalled cfg0
    /\ configfile.Validate parse abs stat cfg = None
    /\ config.Watch cfg = config.Watch cfg0
    /\ config.Config_OnChange cfg = config.Config_OnChange cfg0
    /\ config.Debounce cfg
       = (if String.eqb (config.Debounce cfg0) "" then "250ms"
          else config.Debounce cfg0)
    /\ config.MaxConcurrency cfg
       = (if (config.MaxConcurrency cfg0 =? 0)%Z then 2%Z
          else config.MaxConcurrency cfg0)
    /\ parse (config.Debounce cfg) = Some (configfile.GetDebounceDuration parse cfg)
    /\ (1 <= config.MaxConcurrency cfg)%Z.
Proof.
  unfold configfile.Load.
  destruct (viper configPath) as [cause|cause|cfg0]; [done | done |].
  set (cfg1 := if String.eqb (config.Debounce cfg0) "" then _ else cfg0).
  set (cfg2 := if (config.MaxConcurrency cfg1 =? 0)%Z then _ else cfg1).
  destruct (configfile.Validate parse abs stat cfg2) as [e|] eqn:Hv; [done |].
  intros [= <-]. exists cfg0.
  pose proof (Validate_passed parse abs stat cfg2 Hv)
    as (_ & [d Hd] & _ & _ & _ & HM).
  assert (H1 : config.Watch cfg1 = config.Watch cfg0
               /\ config.Config_OnChange cfg1 = config.Config_OnChange cfg0
               /\ config.MaxConcurrency cfg1 = config.MaxConcurrency cfg0
               /\ config.Debounce cfg1
                  = (if String.eqb (config.Debounce cfg0) "" then "250ms"
                     else config.Debounce cfg0)).
  { subst cfg1. by destruct (String.eqb (config.Debounce cfg0) ""). }
  destruct H1 as (Hw1 & Hc1 & Hm1 & Hd1).
  assert (H2 : config.Watch cfg2 = config.Watch cfg1
               /\ config.Config_OnChange cfg2 = config.Config_OnChange cfg1
               /\ config.Debounce cfg2 = config.Debounce cfg1
               /\ config.MaxConcurrency cfg2
                  = (if (config.MaxConcurrency cfg1 =? 0)%Z then 2%Z
                     else config.MaxConcurrency cfg1)).
  { subst cfg2. by destruct (config.MaxConcurrency cfg1 =? 0)%Z. }
  destruct H2 as (Hw2 & Hc2 & Hd2 & Hm2).
  split; [done |]. split; [done |].
  split; [congruence |]. split; [congruence |].
  split; [congruence |]. split; [by rewrite Hm2, Hm1 |].
  split; [| done].
  unfold configfile.GetDebounceDuration. by rewrite Hd.
Qed.

Lemma Load_returns_valid_witness :
  let cfg :=
    {| config.Watch := config.Watch example_file;
       config.Config_OnChange := config.Config_OnChange example_file;
       config.Debounce := "250ms";
       config.MaxConcurrency := 2 |} in
  configfile.Load example_parse inl example_stat example_viper "gowatch.yaml" = inl cfg
  /\ exists cfg0,
      example_viper "gowatch.yaml" = configfile.Unmarshalled cfg0
      /\ configfile.Validate example_parse inl example_stat cfg = None
      /\ config.Watch cfg = config.Watch cfg0
      /\ config.Config_OnChange cfg = config.Config_OnChange cfg0
      /\ config.Debounce cfg
         = (if String.eqb (config.Debounce cfg0) "" then "250ms"
            else config.Debounce cfg0)
      /\ config.MaxConcurrency cfg
         = (if (config.MaxConcurrency cfg0 =? 0)%Z then 2%Z
            else config.MaxConcurrency cfg0)
      /\ example_parse (config.Debounce cfg)
         = Some (configfile.GetDebounceDuration example_parse cfg)
      /\ (1 <= config.MaxConcurrency cfg)%Z.
Proof.
  intros cfg.
  assert (H : configfile.Load example_parse inl example_stat example_viper
                "gowatch.yaml" = inl cfg) by reflexivity.
  split; [exact H |].
  exact (Load_returns_valid example_parse inl example_stat example_viper
           "gowatch.yaml" cfg H).
Defined.

(** X11.  A runner made from a configuration that [Validate] accepts
    never meets an empty command: every command resolves to at least one
    token, whatever the path and the event, and no result carries the
    error "empty command"; and its parallel branch needs no cancellation
    to come to an end: from every moment of a run at which the context is
    not cancelled, [executeParallel] can come to its return with the
    context still not cancelled and every command finished (with a maximum
    concurrency of zero, which [Validate] refuses, it cannot). *)
Theorem validated_config_is_runnable
        {S I : Type} (os : runner.OS S) (abs : string -> string + string)
        (stat : string -> I + string) (r : runner.Runner) (path event : string) :
  configfile.Validate (runner.ParseDuration os) abs stat (runner.cfg r) = None ->
  let commands := config.Commands (config.Config_OnChange (runner.cfg r)) in
  (forall i cmd w,
      commands !! i = Some cmd ->
      runner.replacePlaceholders (config.Cmd cmd) path event <> []
      /\ runner.Error (runner.executeCommand os r cmd path event w).1
         <> Some (runner.Errorf "empty command"))
  /\ (forall w st,
        rtc (runner.par_step os r commands path event)
            (runner.par_init commands w) st ->
        runner.gctx_done st = false ->
        exists st',
          rtc (runner.par_step os r commands path event) st st'
          /\ runner.executeParallel os r commands path event w st'
          /\ runner.gctx_done st' = false
          /\ forall i cmd,
              commands !! i = Some cmd ->
              runner.goroutines st' !! i = Some runner.Finished).
Proof.
  intros (_ & _ & _ & _ & Hcmds & HM)%Validate_passed commands. split.
  - intros i cmd w Hi. fold commands in Hcmds.
    rewrite Forall_lookup in Hcmds. destruct (Hcmds i cmd Hi) as [Hne _].
    assert (Htok : runner.replacePlaceholders (config.Cmd cmd) path event <> []).
    { rewrite replacePlaceholders_map. by destruct (config.Cmd cmd). }
    split; [done |].
    unfold runner.executeCommand, runner.bind, runner.since, runner.now,
      runner.run_process, runner.ret, runner.bind.
    destruct (runner.dryRun r); [done |].
    destruct (runner.replacePlaceholders (config.Cmd cmd) path event)
      as [|tok toks]; [done |].
    destruct (runner.Now os (runner.os_state w)) as [t s]. simpl.
    destruct (runner.Exec os _ _ s) as [out s1]. simpl.
    destruct (runner.Now os s1) as [t' s'].
    by destruct out as [| | |[]].
  - intros w st Hrtc Hctx. by apply par_returns_uncancelled.
Qed.

Lemma validated_config_is_runnable_witness :
  let cfg :=
    {| config.Watch := config.Watch example_file;
       config.Config_OnChange := config.Config_OnChange example_file;
       config.Debounce := "250ms";
       config.MaxConcurrency := 2 |} in
  let r := runner.New cfg false false in
  configfile.Validate (runner.ParseDuration example_linux) inl example_stat
    (runner.cfg r) = None
  /\ runner.replacePlaceholders ["go"; "test"; "./..."] "/srv/app/a.go" "WRITE" <> [].
Proof.
  intros cfg r.
  assert (H : configfile.Validate (runner.ParseDuration example_linux) inl example_stat
                (runner.cfg r) = None) by reflexivity.
  split; [exact H |].
  exact (proj1 (proj1 (validated_config_is_runnable example_linux inl example_stat r
                         "/srv/app/a.go" "WRITE" H)
                  0 {| config.Cmd := ["go"; "test"; "./..."]; config.Run := "";
                       config.Timeout := "60s" |}
                  example_world eq_refl)).
Defined.

(** ** A command given on the command line *)

Lemma needsShell_cmd (x : string) :
  runner.needsShell ["cmd"; "/C"; x]
  = existsb (fun op => strings.Contains ("cmd /C " +:+ x) op) runner.shellOperators.
Proof.
  unfold runner.needsShell.
  change (strings.ToLower "cmd") with "cmd".
  assert (H : runner.shellCommands !! "cmd" = None) by (vm_compute; reflexivity).
  by rewrite H.
Qed.

Lemma run_flags_cfgFile (args : list main.FlagValue) (f : main.Flags) :
  Forall (fun a => main.is_config a = false) args ->
  main.cfgFile (foldl main.set_flag f args) = main.cfgFile f.
Proof.
  intros Hargs. revert f.
  induction Hargs as [|a args Ha _ IH]; intros f; [done |].
  simpl. rewrite IH. by destruct a.
Qed.

(** X12.  [run] takes its configuration from a file unless [--config] is
    given with an empty value: the variable of the flag is shared with
    [test-config], whose default [gowatch.yaml] it holds when the flag is
    not given, so that a command line with [--path] and [--cmd] alone makes
    [runWatch] load [gowatch.yaml], and what these flags say is not used.
    Whenever the variable is not empty the configuration is what [Load]
    returns for that file.  When it is empty and a command is given, the
    configuration has one recursive watch path without ignore patterns (the
    current directory when no path is given) and one command, and it has
    passed [Validate]; outside dry-run mode a change then makes the runner
    prepare one process: [sh -c] with the command line in which the
    placeholders are replaced; on Windows [cmd /C] with it, and, when that
    line holds a shell operator, [cmd.exe /C] around the whole of
    [cmd /C ...], a shell within a shell. *)
Theorem runWatch_command_line
        {S I : Type} (os : runner.OS S) (abs : string -> string + string)
        (stat : string -> I + string) (viper : string -> configfile.Viper)
        (args : list main.FlagValue) :
  let flags := main.run_flags args in
  let loaded :=
    main.runWatch_config (runner.GOOS os) (runner.ParseDuration os) abs stat viper
      flags in
  (Forall (fun a => main.is_config a = false) args ->
   main.cfgFile flags = "gowatch.yaml")
  /\ (main.cfgFile flags <> "" ->
      loaded
      = match configfile.Load (runner.ParseDuration os) abs stat viper
                (main.cfgFile flags) with
        | inl cfg => inl cfg
        | inr e => inr (main.ErrLoad e)
        end)
  /\ (forall cfg path event (w : runner.World S),
        main.cfgFile flags = "" ->
        main.command flags <> "" ->
        main.dryRun flags = false ->
        loaded = inl cfg ->
        let r := runner.New cfg (main.sequential flags) (main.dryRun flags) in
        let line := runner.resolve path event (main.command flags) in
        configfile.Validate (runner.ParseDuration os) abs stat cfg = None
        /\ config.Watch cfg
           = [{| config.Path := if String.eqb (main.watchPath flags) "" then "."
                                else main.watchPath flags;
                 config.Recursive := true; config.Ignore := [] |}]
        /\ exists cmd,
            config.Commands (config.Config_OnChange cfg) = [cmd]
            /\ config.Timeout cmd = main.timeout flags
            /\ runner.prepared (runner.executeCommand os r cmd path event w).2
               = runner.prepared w
                 ++ [if String.eqb (runner.GOOS os) "windows"
                     then if existsb
                               (fun op => strings.Contains ("cmd /C " +:+ line) op)
                               runner.shellOperators
                          then ["cmd.exe"; "/C"; "cmd /C " +:+ line]
                          else ["cmd"; "/C"; line]
                     else ["sh"; "-c"; line]]).
Proof.
  intros flags loaded. subst loaded. split; [| clearbody flags; split].
  - intros Hargs. exact (run_flags_cfgFile args main.init_flags Hargs).
  - intros Hfile. unfold main.runWatch_config.
    destruct (String.eqb_spec (main.cfgFile flags) "") as [|_]; [done |].
    simpl. by destruct (configfile.Load _ _ _ _ _).
  - intros cfg path event w Hfile Hcmd Hdry Hcfg r line.
    unfold main.runWatch_config in Hcfg.
    rewrite Hfile in Hcfg.
    destruct (String.eqb_spec (main.command flags) "") as [|_]; [done |].
    rewrite andb_false_r in Hcfg. simpl in Hcfg.
    match type of Hcfg with
    | match configfile.Validate _ _ _ ?c with _ => _ end = _ => set (built := c) in *
    end.
    destruct (configfile.Validate _ abs stat built) as [e|] eqn:Hv; [done |].
    injection Hcfg as <-.
    split; [done |]. split; [done |].
    eexists. split; [reflexivity |]. split; [reflexivity |].
    rewrite executeCommand_processes. unfold started.processes.
    subst r. cbn [runner.dryRun runner.New]. rewrite Hdry.
    cbn [config.Cmd]. rewrite replacePlaceholders_map. unfold started.argv.
    destruct (String.eqb (runner.GOOS os) "windows"); cbn [map andb].
    + change (runner.resolve path event "cmd") with "cmd".
      change (runner.resolve path event "/C") with "/C".
      fold line. rewrite needsShell_cmd.
      by destruct (existsb _ _).
    + change (runner.resolve path event "sh") with "sh".
      change (runner.resolve path event "-c") with "-c".
      done.
Qed.

Lemma runWatch_command_line_witness :
  let cfg :=
    {| config.Watch :=
         [{| config.Path := "/srv/app"; config.Recursive := true; config.Ignore := [] |}];
       config.Config_OnChange :=
         {| config.Commands :=
              [{| config.Cmd := ["sh"; "-c"; "go test {path} && echo {event}"];
                  config.Run := ""; config.Timeout := "60s" |}] |};
       config.Debounce := "250ms";
       config.MaxConcurrency := 2 |} in
  let loaded :=
    {| config.Watch := config.Watch example_file;
       config.Config_OnChange := config.Config_OnChange example_file;
       config.Debounce := "250ms";
       config.MaxConcurrency := 2 |} in
  Forall (fun a => main.is_config a = false) example_args
  /\ main.cfgFile (main.run_flags example_args) = "gowatch.yaml"
  /\ main.runWatch_config (runner.GOOS example_linux)
       (runner.ParseDuration example_linux) inl example_stat example_viper
       (main.run_flags example_args)
     = inl loaded
  /\ main.cfgFile (main.run_flags example_args_no_file) = ""
  /\ main.command (main.run_flags example_args_no_file) <> ""
  /\ main.dryRun (main.run_flags example_args_no_file) = false
  /\ main.runWatch_config (runner.GOOS example_linux)
       (runner.ParseDuration example_linux) inl example_stat example_viper
       (main.run_flags example_args_no_file)
     = inl cfg
  /\ configfile.Validate (runner.ParseDuration example_linux) inl example_stat cfg
     = None.
Proof.
  intros cfg loaded.
  pose proof (runWatch_command_line example_linux inl example_stat example_viper
                example_args) as (Hdefault & Hload & _).
  pose proof (runWatch_command_line example_linux inl example_stat example_viper
                example_args_no_file) as (_ & _ & Hline).
  assert (Hargs : Forall (fun a => main.is_config a = false) example_args)
    by (repeat constructor).
  assert (Hfile : main.cfgFile (main.run_flags example_args_no_file) = "")
    by reflexivity.
  assert (Hne : main.command (main.run_flags example_args_no_file) <> "")
    by discriminate.
  assert (Hdry : main.dryRun (main.run_flags example_args_no_file) = false)
    by reflexivity.
  assert (Hcfg : main.runWatch_config (runner.GOOS example_linux)
                   (runner.ParseDuration example_linux) inl example_stat example_viper
                   (main.run_flags example_args_no_file)
                 = inl cfg) by (vm_compute; reflexivity).
  split; [exact Hargs |]. split; [exact (Hdefault Hargs) |].
  split.
  { rewrite Hload; [vm_compute; reflexivity |]. rewrite (Hdefault Hargs). discriminate. }
  split; [exact Hfile |]. split; [exact Hne |]. split; [exact Hdry |].
  split; [exact Hcfg |].
  exact (proj1 (Hline cfg "/srv/app/a.go" "WRITE" example_world Hfile Hne Hdry Hcfg)).
Defined.

(** ** The ignore patterns *)

Section IgnoreFacts.

Import strings config.

Lemma slice_to_append (s t : string) : slice_to (String.length s) (s +:+ t) = s.
Proof.
  induction s as [|c s IH]; [by destruct t |].
  rewrite append_cons. simpl. by rewrite IH.
Qed.

Lemma HasSuffix_append (s suf : string) : HasSuffix (s +:+ suf) suf = true.
Proof.
  unfold HasSuffix. rewrite length_append.
  replace (String.length s + String.length suf - String.length suf)
    with (String.length s) by lia.
  rewrite slice_from_append, String.eqb_refl.
  apply andb_true_iff. split; [| done]. apply Nat.leb_le. lia.
Qed.

Lemma TrimSuffix_append (s suf : string) : TrimSuffix (s +:+ suf) suf = s.
Proof.
  unfold TrimSuffix. rewrite HasSuffix_append, length_append.
  replace (String.length s + String.length suf - String.length suf)
    with (String.length s) by lia.
  apply slice_to_append.
Qed.

Lemma Contains_append_r (z y sub : string) :
  Contains y sub = true -> Contains (z +:+ y) sub = true.
Proof.
  intros H. induction z as [|c z IH]; [done |].
  rewrite append_cons. simpl. rewrite IH. apply orb_true_r.
Qed.

Lemma slice_from_append_short (n : nat) (a y : string) :
  n <= String.length a ->
  slice_from n (a +:+ y) = slice_from n a +:+ y.
Proof.
  revert a; induction n as [|n IH]; intros a Hn; [done |].
  destruct a as [|c a]; simpl in Hn; [lia |].
  rewrite append_cons. simpl. apply IH. lia.
Qed.

Section Split.

Variable sep : string.
Hypothesis sep_not_empty : sep <> "".

Lemma split_scan_length (s : string) :
  forall skip cur, 1 <= length (split_scan sep s skip cur).
Proof.
  induction s as [|c s IH]; intros skip cur; simpl; [lia |].
  destruct skip as [|k]; [| apply IH].
  destruct (HasPrefix (String c s) sep); [simpl; lia | apply IH].
Qed.

Lemma Contains_empty : Contains "" sep = false.
Proof. by destruct sep. Qed.

(** An occurrence of the separator in what is left to scan gives a second
    part. *)
Lemma split_scan_occurrence (s : string) :
  forall skip cur,
    Contains (slice_from skip s) sep = true ->
    2 <= length (split_scan sep s skip cur).
Proof.
  induction s as [|c s IH]; intros skip cur H.
  - replace (slice_from skip "") with "" in H by (by destruct skip).
    by rewrite Contains_empty in H.
  - destruct skip as [|k]; [| by apply IH].
    change (slice_from 0 (String c s)) with (String c s) in H.
    change (split_scan sep (String c s) 0 cur)
      with (if HasPrefix (String c s) sep
            then cur :: split_scan sep s (String.length sep - 1) EmptyString
            else split_scan sep s 0 (cur +:+ String c EmptyString)).
    destruct (HasPrefix (String c s) sep) eqn:Hp.
    + simpl. pose proof (split_scan_length s (String.length sep - 1) EmptyString).
      lia.
    + apply IH. simpl in H. by rewrite Hp in H.
Qed.

(** Two occurrences, the second after the end of the first, give a third
    part. *)
Lemma split_scan_two_occurrences (s : string) :
  forall skip cur x y,
    slice_from skip s = x +:+ sep +:+ y ->
    Contains y sep = true ->
    3 <= length (split_scan sep s skip cur).
Proof.
  induction s as [|c s IH]; intros skip cur x y Hs Hy.
  - assert (H : "" = x +:+ sep +:+ y) by (by destruct skip).
    destruct x; [| done]. rewrite append_nil_l in H. by destruct sep.
  - destruct skip as [|k]; [| by apply (IH k cur x y)].
    change (slice_from 0 (String c s)) with (String c s) in Hs.
    change (split_scan sep (String c s) 0 cur)
      with (if HasPrefix (String c s) sep
            then cur :: split_scan sep s (String.length sep - 1) EmptyString
            else split_scan sep s 0 (cur +:+ String c EmptyString)).
    destruct (HasPrefix (String c s) sep) eqn:Hp.
    + cut (2 <= length (split_scan sep s (String.length sep - 1) EmptyString));
        [simpl; lia |].
      apply split_scan_occurrence.
      assert (Hrest : slice_from (String.length sep - 1) s
                      = slice_from (String.length sep) (String c s)).
      { destruct sep as [|b sep']; [done |]. simpl. by rewrite Nat.sub_0_r. }
      rewrite Hrest, Hs, <- append_assoc.
      rewrite slice_from_append_short by (rewrite length_append; lia).
      by apply Contains_append_r.
    + destruct x as [|a x].
      * rewrite append_nil_l in Hs. rewrite Hs, HasPrefix_append in Hp. done.
      * rewrite append_cons in Hs. injection Hs as -> Hs.
        by apply (IH 0 _ x y).
Qed.

End Split.

End IgnoreFacts.

(** X13.  The ignore patterns of a configuration are one list: the
    answer of [ShouldIgnore] depends on the patterns of all the watch
    paths taken together, and neither on the watch path a pattern was
    written under nor on the watch path the candidate lies below. *)
Theorem ShouldIgnore_patterns_are_global
        (pf : filepath.Platform) (c : config.Config) (path : string) :
  let p := filepath.ToSlash pf path in
  config.ShouldIgnore pf c path
  = existsb (config.pattern_ignores pf p (filepath.Base pf p))
            (concat (map config.Ignore (config.Watch c)))
  /\ forall c' : config.Config,
      concat (map config.Ignore (config.Watch c'))
      = concat (map config.Ignore (config.Watch c)) ->
      config.ShouldIgnore pf c' path = config.ShouldIgnore pf c path.
Proof.
  intros p.
  assert (H : forall c0 : config.Config,
             config.ShouldIgnore pf c0 path
             = existsb (config.pattern_ignores pf p (filepath.Base pf p))
                       (concat (map config.Ignore (config.Watch c0)))).
  { intros c0. unfold config.ShouldIgnore. fold p.
    induction (config.Watch c0) as [|w ws IH]; [done |].
    simpl. by rewrite existsb_app, IH. }
  split; [apply H |]. intros c' Heq. by rewrite !H, Heq.
Qed.

(** X14.  A pattern that ends in a slash is a directory pattern: its rule
    holds of the directory named and of every path that starts with the
    pattern, and of nothing else; so on a platform whose separator is the
    slash such a pattern ignores the directory and what lies below it when
    the path is written from that directory on. *)
Theorem directory_pattern_ignores (dir path : string) :
  (config.directory_rule (dir +:+ "/") path = true
   <-> path = dir \/ exists rest, path = dir +:+ "/" +:+ rest)
  /\ forall (c : config.Config) (wp : config.WatchPath),
      In wp (config.Watch c) ->
      In (dir +:+ "/") (config.Ignore wp) ->
      config.ShouldIgnore filepath.unix c dir = true
      /\ forall rest,
          config.ShouldIgnore filepath.unix c (dir +:+ "/" +:+ rest) = true.
Proof.
  assert (Hrule : config.directory_rule (dir +:+ "/") path = true
                  <-> path = dir \/ exists rest, path = dir +:+ "/" +:+ rest).
  { unfold config.directory_rule.
    rewrite HasSuffix_append, TrimSuffix_append, orb_true_iff.
    rewrite (reflect_iff _ _ (String.eqb_spec path dir)). split.
    - intros [Hp | ->]; [right | by left].
      exists (strings.slice_from (String.length (dir +:+ "/")) path).
      rewrite <- append_assoc. by apply HasPrefix_inv.
    - intros [-> | [rest ->]]; [by right | left].
      rewrite <- append_assoc. apply HasPrefix_append. }
  split; [exact Hrule |].
  intros c wp Hwp Hpat.
  assert (Hpath : forall p,
             config.directory_rule (dir +:+ "/") p = true ->
             config.ShouldIgnore filepath.unix c p = true).
  { intros p Hp. unfold config.ShouldIgnore.
    apply existsb_exists. exists wp. split; [done |].
    apply existsb_exists. exists (dir +:+ "/"). split; [done |].
    unfold config.pattern_ignores.
    change (filepath.ToSlash filepath.unix (dir +:+ "/")) with (dir +:+ "/").
    change (filepath.ToSlash filepath.unix p) with p.
    rewrite Hp.
    destruct (config.matches _ _ _); [reflexivity |].
    destruct (config.matches _ _ _); [reflexivity |].
    by destruct (config.doublestar_rule _ _). }
  split.
  - apply Hpath. unfold config.directory_rule.
    rewrite HasSuffix_append, TrimSuffix_append, String.eqb_refl.
    apply orb_true_r.
  - intros rest. apply Hpath. unfold config.directory_rule.
    rewrite HasSuffix_append, TrimSuffix_append, <- append_assoc, HasPrefix_append.
    done.
Qed.

(** X15.  The rule for [**] reads patterns in which [**] occurs once
    only: a pattern with a second occurrence after the first, such as the
    [**/name/**] of the configuration templates, is cut into three parts or
    more and the rule is false of every path; what such a pattern ignores
    is left to [filepath.Match], in which no star crosses a slash. *)
Theorem doublestar_rule_reads_one_doublestar (x y path : string) :
  strings.Contains y "**" = true ->
  config.doublestar_rule (x +:+ "**" +:+ y) path = false
  /\ forall name, config.doublestar_rule ("**/" +:+ name +:+ "/**") path = false.
Proof.
  assert (H : forall x0 y0,
             strings.Contains y0 "**" = true ->
             config.doublestar_rule (x0 +:+ "**" +:+ y0) path = false).
  { intros x0 y0 Hy. unfold config.doublestar_rule.
    destruct (strings.Contains (x0 +:+ "**" +:+ y0) "**"); [| done].
    pose proof (split_scan_two_occurrences "**" ltac:(done)
                  (x0 +:+ "**" +:+ y0) 0 EmptyString x0 y0 eq_refl Hy) as Hlen.
    change (strings.Split (x0 +:+ "**" +:+ y0) "**")
      with (strings.split_scan "**" (x0 +:+ "**" +:+ y0) 0 EmptyString).
    destruct (strings.split_scan "**" (x0 +:+ "**" +:+ y0) 0 EmptyString)
      as [|p0 [|p1 [|p2 ps]]]; simpl in Hlen; try lia; done. }
  intros Hy. split; [by apply H |].
  intros name. apply (H "" ("/" +:+ name +:+ "/**")).
  rewrite <- append_assoc. apply Contains_append_r. reflexivity.
Qed.

Lemma doublestar_rule_reads_one_doublestar_witness :
  strings.Contains "/*.tmp/**" "**" = true
  /\ config.doublestar_rule ("build" +:+ "**" +:+ "/*.tmp/**") "build/x.tmp/y" = false.
Proof.
  split; [reflexivity |].
  exact (proj1 (doublestar_rule_reads_one_doublestar "build" "/*.tmp/**"
                  "build/x.tmp/y" eq_refl)).
Defined.

(** ** The registrations of the watcher *)

Section Preserved.

Import strings config watcher.

(** A property of watchers that [addSingle] keeps, and that depends
    neither on the debouncer nor on the notification facility being
    closed, is kept by every operation: they change the watcher through
    [addSingle] only. *)
Variable Q : Watcher -> Prop.

Hypothesis Q_addSingle : forall sys path w, Q w -> Q (addSingle sys path w).2.

Hypothesis Q_rest :
  forall w closed d,
    Q w ->
    Q {| cfg := cfg w; watched := watched w; fs_adds := fs_adds w;
         fs_closed := closed; debouncer := d |}.

Lemma walkFn_preserves (sys : Sys) (path : string) (info : option FileInfo)
      (err : option string) (w : Watcher) :
  Q w -> Q (walkFn sys path info err w).2.
Proof.
  intros HQ. unfold walkFn. destruct err; [done |].
  destruct info as [info|]; [| done].
  destruct (negb (IsDir info)); [done |].
  destruct (shouldIgnore (pf sys) (cfg w) path); [done |].
  pose proof (Q_addSingle sys path w HQ) as H.
  by destruct (addSingle sys path w).
Qed.

Lemma walk_preserves (sys : Sys) (t : Tree) :
  forall (path : string) (w : Watcher), Q w -> Q (walk sys path t w).2.
Proof.
  revert t.
  apply (Tree_mut
           (fun t => forall path w, Q w -> Q (walk sys path t w).2)
           (fun entries => forall path w, Q w -> Q (walk_entries sys path entries w).2)).
  - intros path w HQ. by apply walkFn_preserves.
  - intros readErr entries IHentries path w HQ. simpl.
    pose proof (walkFn_preserves sys path (Some {| IsDir := true |}) readErr w HQ) as H.
    destruct (walkFn sys path (Some {| IsDir := true |}) readErr w) as [err1 w1].
    simpl in H. destruct (_ || _); [done |]. by apply IHentries.
  - intros cause path w HQ. by apply walkFn_preserves.
  - by intros path w HQ.
  - intros name t IHt rest IHrest path w HQ. simpl.
    set (filename := Join2 sys path name).
    pose proof (IHt filename w HQ) as Hwalk.
    destruct t as [| readErr entries | cause].
    + destruct (walk sys filename File w) as [[[] |] w1]; simpl in *; auto.
    + destruct (walk sys filename (Dir readErr entries) w) as [[[] |] w1];
        simpl in *; auto.
    + done.
Qed.

Lemma addRecursive_preserves (sys : Sys) (root : string) (w : Watcher) :
  Q w -> Q (addRecursive sys root w).2.
Proof.
  intros HQ. unfold addRecursive, Walk.
  pose proof (walk_preserves sys (Lstat sys root) root w HQ) as H.
  by destruct (walk sys root (Lstat sys root) w) as [[[] |] w1].
Qed.

Lemma addPath_preserves (sys : Sys) (wp : WatchPath) (w : Watcher) :
  Q w -> Q (addPath sys wp w).2.
Proof.
  intros HQ. unfold addPath.
  destruct (Abs sys (Path wp)) as [absPath |]; [| done].
  destruct (Stat sys absPath) as [info |]; [| done].
  destruct (IsDir info), (Recursive wp);
    auto using addRecursive_preserves.
Qed.

Lemma add_paths_preserves (sys : Sys) (wps : list WatchPath) :
  forall w, Q w -> Q (add_paths sys wps w).2.
Proof.
  induction wps as [|wp wps IH]; intros w HQ; simpl; [done |].
  pose proof (addPath_preserves sys wp w HQ) as H.
  destruct (addPath sys wp w) as [[e|] w1]; simpl in H; [done |].
  by apply IH.
Qed.

Lemma watch_new_directory_preserves (sys : Sys) (event : FsEvent)
      (wps : list WatchPath) :
  forall w, Q w -> Q (watch_new_directory sys event wps w).
Proof.
  induction wps as [|wp wps IH]; intros w HQ; simpl; [done |].
  destruct (_ && _); [| by apply IH].
  apply IH. by apply Q_addSingle.
Qed.

Lemma handle_event_preserves (sys : Sys) (t : Z) (event : FsEvent) (w : Watcher) :
  Q w -> Q (handle_event sys t event w).
Proof.
  intros HQ. unfold handle_event.
  destruct (shouldIgnore _ _ _); [done |].
  destruct (has_op (Op event) Chmod); [done |].
  apply Q_rest.
  destruct (has_op (Op event) Create); [| done].
  destruct (Stat sys (Name event)) as [info |]; [| done].
  destruct (IsDir info); [| done].
  by apply watch_new_directory_preserves.
Qed.

Lemma perform_preserves (op : Operation) (w : Watcher) : Q w -> Q (perform op w).
Proof.
  intros HQ. destruct op; simpl.
  - by apply add_paths_preserves.
  - by apply Q_addSingle.
  - by apply addRecursive_preserves.
  - by apply addPath_preserves.
  - by apply handle_event_preserves.
  - done.
  - destruct (dstep _ _); [by apply Q_rest | done].
  - by apply Q_rest.
Qed.

Lemma perform_all_preserves (ops : list Operation) :
  forall w, Q w -> Q (perform_all ops w).
Proof.
  induction ops as [|op ops IH]; intros w HQ; [done |].
  apply IH. by apply perform_preserves.
Qed.

End Preserved.

Section RegistrationFacts.

Import strings config watcher.

Lemma addSingle_cfg (sys : Sys) (path : string) (w : Watcher) :
  cfg (addSingle sys path w).2 = cfg w.
Proof.
  unfold addSingle. destruct (default false _); [done |].
  by destruct (fsnotify_Add sys path (fs_adds w)).
Qed.

Lemma addSingle_new (sys : Sys) (path : string) (w : Watcher) (p : string) :
  is_watched (addSingle sys path w).2 p -> is_watched w p \/ p = path.
Proof.
  unfold is_watched. destruct (addSingle_watched sys path w) as [-> | ->]; [by left |].
  destruct (decide (path = p)) as [-> | Hne]; [by right |].
  rewrite lookup_insert_ne by done. by left.
Qed.

Lemma addSingle_done (sys : Sys) (path : string) (w : Watcher) :
  (addSingle sys path w).1 = None -> is_watched (addSingle sys path w).2 path.
Proof.
  unfold addSingle, is_watched.
  destruct (watched w !! path) as [[]|] eqn:Hp; simpl; try done.
  - destruct (fsnotify_Add sys path (fs_adds w)); [done |].
    intros _. simpl. by rewrite lookup_insert_eq.
  - destruct (fsnotify_Add sys path (fs_adds w)); [done |].
    intros _. simpl. by rewrite lookup_insert_eq.
Qed.

Lemma addSingle_registered (sys : Sys) (path : string) (w : Watcher) :
  reach.registered w -> reach.registered (addSingle sys path w).2.
Proof.
  intros Hreg. unfold addSingle.
  destruct (default false (watched w !! path)); [done |].
  destruct (fsnotify_Add sys path (fs_adds w)); intros p b Hp; simpl in *.
  - destruct (Hreg p b Hp) as [-> Hin]. split; [done |].
    apply in_or_app. by left.
  - destruct (decide (path = p)) as [-> | Hne].
    + rewrite lookup_insert_eq in Hp. injection Hp as <-.
      split; [done |]. apply in_or_app. right. by left.
    + rewrite lookup_insert_ne in Hp by done.
      destruct (Hreg p b Hp) as [-> Hin]. split; [done |].
      apply in_or_app. by left.
Qed.

Lemma walk_reached (sys : Sys) (t : Tree) :
  forall (path : string) (w : Watcher),
    reach.walk_ok w (reach.reached sys (cfg w) path t) (walk sys path t w)
    /\ (is_dir t = false -> (walk sys path t w).1 <> Some SkipDir).
Proof.
  revert t.
  apply (Tree_mut
           (fun t => forall path w,
                reach.walk_ok w (reach.reached sys (cfg w) path t) (walk sys path t w)
                /\ (is_dir t = false -> (walk sys path t w).1 <> Some SkipDir))
           (fun entries => forall path w,
                reach.walk_ok w (reach.reached_entries sys (cfg w) path entries)
                        (walk_entries sys path entries w)
                /\ (walk_entries sys path entries w).1 <> Some SkipDir)).
  - intros path w. simpl. unfold walkFn. simpl.
    split; [| done]. repeat split; auto using grows_refl. by intros _ p [].
  - intros readErr entries IHentries path w. split; [| done]. simpl.
    destruct readErr as [cause|]; simpl.
    { repeat split; auto using grows_refl. by intros [|]. }
    destruct (shouldIgnore (pf sys) (cfg w) path) eqn:Hign; simpl.
    { repeat split; auto using grows_refl. by intros _ p []. }
    pose proof (addSingle_cfg sys path w) as Hcfg.
    pose proof (addSingle_grows sys path w) as Hgrow.
    pose proof (addSingle_new sys path w) as Hnew.
    pose proof (addSingle_done sys path w) as Hdone.
    destruct (addSingle sys path w) as [[e|] w1]; simpl in *.
    { repeat split; auto.
      - intros p Hp. destruct (Hnew p Hp) as [? | ->]; [by left | right; by left].
      - by intros [|]. }
    destruct (IHentries path w1) as [(Hc & Hg & Hs & Hcomplete) Hskip].
    rewrite Hcfg in Hs, Hcomplete.
    repeat split.
    + congruence.
    + by eapply grows_trans.
    + intros p Hp. destruct (Hs p Hp) as [Hw1 | Hin]; [| right; by right].
      destruct (Hnew p Hw1) as [? | ->]; [by left | right; by left].
    + intros Herr p [<- | Hin].
      * apply Hg. by apply Hdone.
      * by apply Hcomplete.
  - intros cause path w. simpl. unfold walkFn. split; [| done].
    repeat split; auto using grows_refl. by intros [|].
  - intros path w. simpl. split; [| done].
    repeat split; auto using grows_refl. by intros _ p [].
  - intros name t IHt rest IHrest path w.
    set (filename := Join2 sys path name).
    assert (Hcont : forall w1,
               reach.walk_ok w (reach.reached sys (cfg w) filename t) (None, w1) ->
               reach.walk_ok w
                 (reach.reached sys (cfg w) filename t
                  ++ reach.reached_entries sys (cfg w) path rest)
                 (walk_entries sys path rest w1)
               /\ (walk_entries sys path rest w1).1 <> Some SkipDir).
    { intros w1 (Hc1 & Hg1 & Hs1 & Hcomplete1). simpl in *.
      destruct (IHrest path w1) as [(Hc & Hg & Hs & Hcomplete) Hskip].
      rewrite Hc1 in Hs, Hcomplete.
      split; [| done]. repeat split.
      - congruence.
      - by eapply grows_trans.
      - intros p Hp. destruct (Hs p Hp) as [Hw1 | Hin].
        + destruct (Hs1 p Hw1) as [? | ?]; [by left | right].
          apply in_or_app. by left.
        + right. apply in_or_app. by right.
      - intros Herr p [Hin | Hin]%in_app_or.
        + apply Hg. apply Hcomplete1; [by left | done].
        + by apply Hcomplete. }
    assert (Hstop : forall e w1,
               reach.walk_ok w (reach.reached sys (cfg w) filename t) (Some (Failed e), w1) ->
               reach.walk_ok w
                 (reach.reached sys (cfg w) filename t
                  ++ reach.reached_entries sys (cfg w) path rest)
                 (Some (Failed e), w1)).
    { intros e w1 (Hc1 & Hg1 & Hs1 & _). simpl in *. repeat split; try done.
      - intros p Hp. destruct (Hs1 p Hp) as [? | ?]; [by left | right].
        apply in_or_app. by left.
      - by intros [|]. }
    change (reach.reached_entries sys (cfg w) path (Entry name t rest))
      with (reach.reached sys (cfg w) filename t
            ++ reach.reached_entries sys (cfg w) path rest).
    destruct (IHt filename w) as [Hok Hfile].
    destruct t as [| readErr entries | cause].
    + change (walk_entries sys path (Entry name File rest) w)
        with (walk_entries sys path rest w).
      apply Hcont. exact Hok.
    + change (walk_entries sys path (Entry name (Dir readErr entries) rest) w)
        with (let '(err, w') := walk sys filename (Dir readErr entries) w in
              match err with
              | None => walk_entries sys path rest w'
              | Some SkipDir => walk_entries sys path rest w'
              | Some (Failed e) => (err, w')
              end).
      destruct (walk sys filename (Dir readErr entries) w) as [[[|e]|] w1].
      * apply Hcont. destruct Hok as (Hc1 & Hg1 & Hs1 & Hcomplete1).
        repeat split; try done. intros _. apply Hcomplete1. by right.
      * split; [| done]. by apply Hstop.
      * by apply Hcont.
    + change (walk_entries sys path (Entry name (Broken cause) rest) w)
        with (Some (Failed (ErrWalk cause)), w).
      split; [| done]. apply Hstop. exact Hok.
Qed.

Lemma reached_not_ignored (sys : Sys) (c : Config) (t : Tree) :
  forall path p, In p (reach.reached sys c path t) -> shouldIgnore (pf sys) c p = false.
Proof.
  revert t.
  apply (Tree_mut
           (fun t => forall path p,
                In p (reach.reached sys c path t) -> shouldIgnore (pf sys) c p = false)
           (fun entries => forall path p,
                In p (reach.reached_entries sys c path entries) ->
                shouldIgnore (pf sys) c p = false)).
  - by intros path p [].
  - intros readErr entries IH path p. simpl.
    destruct readErr as [cause|]; [by intros [] |].
    destruct (shouldIgnore (pf sys) c path) eqn:Hign; [by intros [] |].
    intros [<- | Hin]; [done | by eapply IH].
  - by intros cause path p [].
  - by intros path p [].
  - intros name t IHt rest IHrest path p. simpl.
    intros [Hin | Hin]%in_app_or; [by eapply IHt | by eapply IHrest].
Qed.

Lemma addRecursive_ok (sys : Sys) (root : string) (w : Watcher) :
  cfg (addRecursive sys root w).2 = cfg w
  /\ (forall p, is_watched (addRecursive sys root w).2 p ->
                is_watched w p
                \/ In p (reach.reached sys (cfg w) root (Lstat sys root)))
  /\ ((addRecursive sys root w).1 = None ->
      forall p, In p (reach.reached sys (cfg w) root (Lstat sys root)) ->
                is_watched (addRecursive sys root w).2 p).
Proof.
  unfold addRecursive, Walk.
  destruct (walk_reached sys (Lstat sys root) root w) as [(Hc & Hg & Hs & Hcomplete) _].
  destruct (walk sys root (Lstat sys root) w) as [[[|e]|] w1]; simpl in *;
    repeat split; auto. done.
Qed.

End RegistrationFacts.

(** X16.  A recursive registration watches the directories it reaches and
    nothing else: a path that is watched after [addRecursive] was watched
    before or is a directory reached from the root through directories
    that are not ignored; and when [addRecursive] returns no error, every
    such directory is watched. *)
Theorem addRecursive_watches_reached
        (sys : watcher.Sys) (root : string) (w : watcher.Watcher) :
  let reached := reach.reached sys (watcher.cfg w) root (watcher.Lstat sys root) in
  let result := watcher.addRecursive sys root w in
  (forall p, watcher.is_watched result.2 p ->
             watcher.is_watched w p \/ In p reached)
  /\ (result.1 = None ->
      forall p, watcher.is_watched result.2 p
                <-> watcher.is_watched w p \/ In p reached).
Proof.
  intros reached result.
  destruct (addRecursive_ok sys root w) as (_ & Hs & Hcomplete).
  split; [exact Hs |]. intros Hnone p. split; [apply Hs |].
  intros [Hw | Hin].
  - by apply addRecursive_grows.
  - by apply Hcomplete.
Qed.

(** X17.  A recursive registration never watches what the watcher
    ignores: every path it adds to the watched set is one [shouldIgnore]
    is false of, whether the walk ends with an error or not. *)
Theorem addRecursive_never_watches_ignored
        (sys : watcher.Sys) (root : string) (w : watcher.Watcher) (p : string) :
  watcher.is_watched (watcher.addRecursive sys root w).2 p ->
  ~ watcher.is_watched w p ->
  watcher.shouldIgnore (watcher.pf sys) (watcher.cfg w) p = false.
Proof.
  intros Hp Hnew.
  destruct (addRecursive_ok sys root w) as (_ & Hs & _).
  destruct (Hs p Hp) as [? | Hin]; [done |].
  by eapply reached_not_ignored.
Qed.

Lemma addRecursive_never_watches_ignored_witness :
  let w := watcher.New (example_watch_config ["*.tmp"]) 100 in
  watcher.is_watched (watcher.addRecursive example_sys "/srv/app" w).2 "/srv/app"
  /\ ~ watcher.is_watched w "/srv/app"
  /\ watcher.shouldIgnore (watcher.pf example_sys) (watcher.cfg w) "/srv/app" = false.
Proof.
  intros w.
  assert (H1 : watcher.is_watched (watcher.addRecursive example_sys "/srv/app" w).2
                 "/srv/app") by reflexivity.
  assert (H2 : ~ watcher.is_watched w "/srv/app") by discriminate.
  split; [exact H1 |]. split; [exact H2 |].
  exact (addRecursive_never_watches_ignored example_sys "/srv/app" w "/srv/app" H1 H2).
Defined.

(** X18.  A recursive registration of a root that is itself ignored, a
    directory whose name starts with a dot for one, registers nothing and
    reports no error: the walk is told to skip the root, and
    [filepath.Walk] takes that for a success. *)
Theorem addRecursive_ignored_root
        (sys : watcher.Sys) (root : string) (w : watcher.Watcher)
        (entries : watcher.Entries) :
  watcher.Lstat sys root = watcher.Dir None entries ->
  watcher.shouldIgnore (watcher.pf sys) (watcher.cfg w) root = true ->
  watcher.addRecursive sys root w = (None, w)
  /\ forall wp info,
      config.Recursive wp = true ->
      watcher.Abs sys (config.Path wp) = inl root ->
      watcher.Stat sys root = inl info ->
      watcher.IsDir info = true ->
      watcher.addPath sys wp w = (None, w).
Proof.
  intros Htree Hign.
  assert (H : watcher.addRecursive sys root w = (None, w)).
  { unfold watcher.addRecursive, watcher.Walk. rewrite Htree. simpl.
    by rewrite Hign. }
  split; [exact H |].
  intros wp info Hrec Habs Hstat Hdir. unfold watcher.addPath.
  by rewrite Habs, Hstat, Hdir, Hrec.
Qed.

Lemma addRecursive_ignored_root_witness :
  let w := watcher.New (example_watch_config []) 100 in
  watcher.Lstat example_sys "/home/dev/.dotfiles" = watcher.Dir None watcher.NoEntry
  /\ watcher.shouldIgnore (watcher.pf example_sys) (watcher.cfg w) "/home/dev/.dotfiles"
     = true
  /\ watcher.addRecursive example_sys "/home/dev/.dotfiles" w = (None, w).
Proof.
  intros w.
  assert (H : watcher.shouldIgnore (watcher.pf example_sys) (watcher.cfg w)
                "/home/dev/.dotfiles" = true) by (vm_compute; reflexivity).
  split; [reflexivity |]. split; [exact H |].
  exact (proj1 (addRecursive_ignored_root example_sys "/home/dev/.dotfiles" w
                  watcher.NoEntry eq_refl H)).
Defined.

Section StartFacts.

Import strings config watcher.

Lemma addPath_ok (sys : Sys) (wp : WatchPath) (w : Watcher) :
  cfg (addPath sys wp w).2 = cfg w
  /\ ((addPath sys wp w).1 = None ->
      exists absPath info,
        Abs sys (Path wp) = inl absPath
        /\ Stat sys absPath = inl info
        /\ forall p, In p (reach.wanted sys (cfg w) absPath info wp) ->
                     is_watched (addPath sys wp w).2 p).
Proof.
  unfold addPath, reach.wanted.
  destruct (Abs sys (Path wp)) as [absPath | cause]; [| done].
  destruct (Stat sys absPath) as [info | cause] eqn:Hstat; [| done].
  assert (Hsingle :
    cfg (addSingle sys absPath w).2 = cfg w
    /\ ((addSingle sys absPath w).1 = None ->
        forall p, In p [absPath] -> is_watched (addSingle sys absPath w).2 p)).
  { split; [apply addSingle_cfg |].
    intros Hnone p [<- | []]. by apply addSingle_done. }
  destruct Hsingle as [Hc1 Hw1].
  destruct (addRecursive_ok sys absPath w) as (Hc & _ & Hcomplete).
  destruct (IsDir info) eqn:Hdir, (Recursive wp) eqn:Hrec;
    (split; [done |]); intros Hnone; exists absPath, info;
    (split; [done |]); (split; [done |]); rewrite Hdir; cbn [andb]; auto.
Qed.

Lemma add_paths_ok (sys : Sys) (wps : list WatchPath) :
  forall w,
    cfg (add_paths sys wps w).2 = cfg w
    /\ ((add_paths sys wps w).1 = None ->
        forall wp, In wp wps ->
          exists absPath info,
            Abs sys (Path wp) = inl absPath
            /\ Stat sys absPath = inl info
            /\ forall p, In p (reach.wanted sys (cfg w) absPath info wp) ->
                         is_watched (add_paths sys wps w).2 p).
Proof.
  induction wps as [|wp0 wps IH]; intros w; simpl; [by split |].
  destruct (addPath_ok sys wp0 w) as [Hc0 H0].
  pose proof (add_paths_grows sys wps) as Hgrows.
  destruct (addPath sys wp0 w) as [[e|] w1]; simpl in *; [by split |].
  destruct (IH w1) as [Hc Hrest]. rewrite Hc0 in Hrest.
  split; [congruence |].
  intros Hnone wp [<- | Hin].
  - destruct (H0 eq_refl) as (absPath & info & Ha & Hs & Hw).
    exists absPath, info. split; [done |]. split; [done |].
    intros p Hp. apply Hgrows. by apply Hw.
  - by apply Hrest.
Qed.

Lemma add_paths_app (sys : Sys) (before after : list WatchPath) (w : Watcher) :
  add_paths sys (before ++ after) w
  = match add_paths sys before w with
    | (Some e, w1) => (Some e, w1)
    | (None, w1) => add_paths sys after w1
    end.
Proof.
  revert w. induction before as [|wp before IH]; intros w; simpl; [done |].
  destruct (addPath sys wp w) as [[e|] w1]; [done | apply IH].
Qed.

End StartFacts.

(** X19.  When [Start] returns no error, every configured watch path
    resolves and exists, and all it stands for is watched: the directories
    reached from it when it is a directory watched recursively, the path
    itself otherwise. *)
Theorem Start_watches_configured_paths
        (sys : watcher.Sys) (w : watcher.Watcher) (wp : config.WatchPath) :
  (watcher.Start sys w).1 = None ->
  In wp (config.Watch (watcher.cfg w)) ->
  exists absPath info,
    watcher.Abs sys (config.Path wp) = inl absPath
    /\ watcher.Stat sys absPath = inl info
    /\ forall p, In p (reach.wanted sys (watcher.cfg w) absPath info wp) ->
                 watcher.is_watched (watcher.Start sys w).2 p.
Proof.
  intros Hnone Hin. unfold watcher.Start in *.
  destruct (add_paths_ok sys (config.Watch (watcher.cfg w)) w) as [_ H].
  by apply H.
Qed.

Lemma Start_watches_configured_paths_witness :
  let w := watcher.New (example_watch_config ["*.tmp"; "vendor/**"; ".git/**"]) 100 in
  let wp := {| config.Path := "/srv/app"; config.Recursive := true;
               config.Ignore := ["*.tmp"; "vendor/**"; ".git/**"] |} in
  (watcher.Start example_sys w).1 = None
  /\ In wp (config.Watch (watcher.cfg w))
  /\ exists absPath info,
      watcher.Abs example_sys (config.Path wp) = inl absPath
      /\ watcher.Stat example_sys absPath = inl info
      /\ forall p, In p (reach.wanted example_sys (watcher.cfg w) absPath info wp) ->
                   watcher.is_watched (watcher.Start example_sys w).2 p.
Proof.
  intros w wp.
  assert (H1 : (watcher.Start example_sys w).1 = None) by reflexivity.
  assert (H2 : In wp (config.Watch (watcher.cfg w))) by (by left).
  split; [exact H1 |]. split; [exact H2 |].
  exact (Start_watches_configured_paths example_sys w wp H1 H2).
Defined.

(** X20.  [Start] gives up at the first watch path that cannot be
    registered: it returns the error of that path, keeps what was
    registered before it, and does not come to the paths after it. *)
Theorem Start_stops_at_first_error
        (sys : watcher.Sys) (w w1 w2 : watcher.Watcher)
        (before after : list config.WatchPath) (wp : config.WatchPath)
        (e : watcher.error) :
  config.Watch (watcher.cfg w) = before ++ wp :: after ->
  watcher.add_paths sys before w = (None, w1) ->
  watcher.addPath sys wp w1 = (Some e, w2) ->
  watcher.Start sys w = (Some e, w2)
  /\ watcher.grows w w2.
Proof.
  intros Hwatch Hbefore Hwp.
  assert (HStart : watcher.Start sys w = (Some e, w2)).
  { unfold watcher.Start. rewrite Hwatch, add_paths_app, Hbefore. simpl.
    by rewrite Hwp. }
  split; [exact HStart |].
  pose proof (add_paths_grows sys (config.Watch (watcher.cfg w)) w) as H.
  fold (watcher.Start sys w) in H. by rewrite HStart in H.
Qed.

Lemma Start_stops_at_first_error_witness :
  let sys :=
    {| watcher.pf := filepath.unix;
       watcher.Abs := fun p => inl p;
       watcher.Clean := fun p => p;
       watcher.Join2 := fun dir name => dir +:+ "/" +:+ name;
       watcher.Stat := fun p =>
         if String.eqb p "/srv/gone" then inr "no such file or directory"
         else inl {| watcher.IsDir := false |};
       watcher.Lstat := fun _ => watcher.File;
       watcher.fsnotify_Add := fun _ _ => None |} in
  let first := {| config.Path := "/srv/a.txt"; config.Recursive := false;
                  config.Ignore := [] |} in
  let second := {| config.Path := "/srv/gone"; config.Recursive := false;
                   config.Ignore := [] |} in
  let third := {| config.Path := "/srv/b.txt"; config.Recursive := false;
                  config.Ignore := [] |} in
  let w :=
    watcher.New
      {| config.Watch := [first; second; third];
         config.Config_OnChange := {| config.Commands := [] |};
         config.Debounce := "100ms"; config.MaxConcurrency := 1 |} 100 in
  let w1 := (watcher.addSingle sys "/srv/a.txt" w).2 in
  config.Watch (watcher.cfg w) = [first] ++ second :: [third]
  /\ watcher.add_paths sys [first] w = (None, w1)
  /\ watcher.addPath sys second w1
     = (Some (watcher.ErrStat "/srv/gone" "no such file or directory"), w1)
  /\ watcher.Start sys w
     = (Some (watcher.ErrStat "/srv/gone" "no such file or directory"), w1).
Proof.
  intros sys first second third w w1.
  split; [reflexivity |]. split; [reflexivity |]. split; [reflexivity |].
  exact (proj1 (Start_stops_at_first_error sys w w1 w1 [first] [third] second
                  (watcher.ErrStat "/srv/gone" "no such file or directory")
                  eq_refl eq_refl eq_refl)).
Defined.

(** X21.  Whatever the manager does from its creation on, a path is in
    the map of watched paths only with the value true and only after the
    notification facility was asked to watch it. *)
Theorem watched_paths_were_registered
        (cfg : config.Config) (debounce : Z) (ops : list watcher.Operation)
        (path : string) (b : bool) :
  watcher.watched (watcher.perform_all ops (watcher.New cfg debounce)) !! path = Some b ->
  b = true
  /\ In path (watcher.fs_adds (watcher.perform_all ops (watcher.New cfg debounce))).
Proof.
  revert path b. change (reach.registered
                           (watcher.perform_all ops (watcher.New cfg debounce))).
  apply (perform_all_preserves reach.registered).
  - apply addSingle_registered.
  - by intros w closed d Hw.
  - by intros path b.
Qed.

Lemma watched_paths_were_registered_witness :
  let ops := [watcher.OpStart example_sys;
              watcher.OpEvent example_sys 5
                {| watcher.Name := "/srv/app/new"; watcher.Op := watcher.Create |}] in
  let w := watcher.perform_all ops
             (watcher.New (example_watch_config ["*.tmp"]) 100) in
  watcher.watched w !! "/srv/app/new" = Some true
  /\ In "/srv/app/new" (watcher.fs_adds w).
Proof.
  intros ops w.
  assert (H : watcher.watched w !! "/srv/app/new" = Some true)
    by (vm_compute; reflexivity).
  split; [exact H |].
  exact (proj2 (watched_paths_were_registered (example_watch_config ["*.tmp"]) 100
                  ops "/srv/app/new" true H)).
Defined.

Section EventFacts.

Import strings config watcher.

(** The absolute path [processEvents] compares: the error of
    [filepath.Abs] is dropped, which leaves the empty path. *)
Local Abbreviation abs_of sys path :=
  (match Abs sys path with inl p => p | inr _ => EmptyString end).

Lemma watch_new_directory_new (sys : Sys) (event : FsEvent) (wps : list WatchPath) :
  forall w p,
    is_watched (watch_new_directory sys event wps w) p ->
    is_watched w p
    \/ (p = Name event
        /\ exists wp, In wp wps /\ Recursive wp = true
                      /\ HasPrefix (Clean sys (abs_of sys (Name event)))
                                   (Clean sys (abs_of sys (Path wp))) = true).
Proof.
  induction wps as [|wp wps IH]; intros w p; simpl; [by left |].
  destruct (Recursive wp) eqn:Hrec; simpl.
  2: { intros [? | (-> & wp' & Hin & H)]%IH; [by left | right].
       split; [done |]. exists wp'. by auto. }
  destruct (HasPrefix _ _) eqn:Hpre.
  2: { intros [? | (-> & wp' & Hin & H)]%IH; [by left | right].
       split; [done |]. exists wp'. by auto. }
  intros [Hw1 | (-> & wp' & Hin & H)]%IH.
  - destruct (addSingle_new sys (Name event) w p Hw1) as [? | ->]; [by left | right].
    split; [done |]. exists wp. by auto.
  - right. split; [done |]. exists wp'. by auto.
Qed.

Lemma watch_new_directory_done (sys : Sys) (event : FsEvent) (wps : list WatchPath) :
  forall w wp,
    In wp wps -> Recursive wp = true ->
    HasPrefix (Clean sys (abs_of sys (Name event)))
              (Clean sys (abs_of sys (Path wp))) = true ->
    fsnotify_Add sys (Name event) (fs_adds w) = None ->
    is_watched (watch_new_directory sys event wps w) (Name event).
Proof.
  induction wps as [|wp0 wps IH]; intros w wp Hin Hrec Hpre Hadd; [done |].
  simpl.
  destruct (Recursive wp0 && HasPrefix _ _) eqn:Hthis.
  - apply watch_new_directory_grows. apply addSingle_done.
    unfold addSingle. destruct (default false _); [done |]. by rewrite Hadd.
  - destruct Hin as [-> | Hin]; [| by eapply IH].
    by rewrite Hrec, Hpre in Hthis.
Qed.

Lemma has_op_lor (op flag : Z) : has_op (Z.lor op flag) flag = true.
Proof.
  unfold has_op. apply Z.eqb_eq. apply Z.bits_inj'. intros n Hn.
  rewrite Z.land_spec, Z.lor_spec.
  by destruct (Z.testbit op n), (Z.testbit flag n).
Qed.

End EventFacts.

(** X22.  The handling of a notification adds at most one path to the
    watched set, the name of the notification, and only for a creation,
    without a permission change, of what is a directory that is not
    ignored, when the cleaned absolute path of a recursive watch path is a
    prefix, as a string, of its own (so that a directory beside a watch
    root whose name starts with the root's name passes too).  Under these
    conditions the path is watched after the handling whenever the
    notification facility accepts it. *)
Theorem handle_event_registration
        (sys : watcher.Sys) (t : Z) (event : watcher.FsEvent) (w : watcher.Watcher) :
  let abs_of path :=
    match watcher.Abs sys path with inl p => p | inr _ => EmptyString end in
  let created :=
    watcher.shouldIgnore (watcher.pf sys) (watcher.cfg w) (watcher.Name event) = false
    /\ watcher.has_op (watcher.Op event) watcher.Chmod = false
    /\ watcher.has_op (watcher.Op event) watcher.Create = true
    /\ (exists info, watcher.Stat sys (watcher.Name event) = inl info
                     /\ watcher.IsDir info = true)
    /\ exists wp,
        In wp (config.Watch (watcher.cfg w)) /\ config.Recursive wp = true
        /\ strings.HasPrefix (watcher.Clean sys (abs_of (watcher.Name event)))
                             (watcher.Clean sys (abs_of (config.Path wp))) = true in
  (forall p, watcher.is_watched (watcher.handle_event sys t event w) p ->
             watcher.is_watched w p \/ (p = watcher.Name event /\ created))
  /\ (created ->
      watcher.fsnotify_Add sys (watcher.Name event) (watcher.fs_adds w) = None ->
      watcher.is_watched (watcher.handle_event sys t event w) (watcher.Name event)).
Proof.
  intros abs_of created. subst created abs_of. unfold watcher.handle_event. split.
  - intros p.
    destruct (watcher.shouldIgnore _ _ _) eqn:Hign; [by left |].
    destruct (watcher.has_op (watcher.Op event) watcher.Chmod) eqn:Hchmod; [by left |].
    unfold watcher.is_watched. simpl.
    destruct (watcher.has_op (watcher.Op event) watcher.Create) eqn:Hcreate;
      [| by left].
    destruct (watcher.Stat sys (watcher.Name event)) as [info | cause] eqn:Hstat;
      [| by left].
    destruct (watcher.IsDir info) eqn:Hdir; [| by left].
    intros [? | (-> & wp & Hin & Hrec & Hpre)]%watch_new_directory_new; [by left |].
    right. split; [done |]. repeat split; try done.
    + by exists info.
    + by exists wp.
  - intros (Hign & Hchmod & Hcreate & (info & Hstat & Hdir) & wp & Hin & Hrec & Hpre)
           Hadd.
    rewrite Hign, Hchmod, Hcreate, Hstat, Hdir.
    unfold watcher.is_watched. simpl.
    by eapply watch_new_directory_done.
Qed.

(** A notification whose operation includes a permission change is
    dropped whole, whatever else the operation includes (a write reported
    together with a permission change, for one): the watcher is left as it
    was, and nothing is handed to the debouncer. *)
Lemma handle_event_drops_chmod
        (sys : watcher.Sys) (t : Z) (name : string) (op : Z) (w : watcher.Watcher) :
  watcher.has_op (Z.lor op watcher.Chmod) watcher.Chmod = true
  /\ watcher.handle_event sys t
       {| watcher.Name := name; watcher.Op := Z.lor op watcher.Chmod |} w
     = w.
Proof.
  split; [apply has_op_lor |].
  unfold watcher.handle_event. simpl. rewrite has_op_lor.
  by destruct (watcher.shouldIgnore _ _ _).
Qed.

(** ** The tables of the debouncer *)

Section TablesFacts.

Import watcher debounce.

Context {A : Type}.

Implicit Types (d : Debouncer A) (e : DEvent A) (key : string).

Lemma tables_ok_new (delay : Z) : tables_ok (NewDebouncer (A := A) delay).
Proof.
  split; simpl.
  - intros key. rewrite !lookup_empty. by split; intros [? ?].
  - intros key. rewrite lookup_empty. by intros [? ?].
Qed.

Lemma tables_ok_step d e d' :
  timers_ok d -> tables_ok d -> dstep d e = Some d' -> tables_ok d'.
Proof.
  intros [Htab Hf1 Hf2 Hf3 Hdis] [Hsame Hlive] Hstep.
  destruct e as [t key fn | t timer | t timer].
  - apply dstep_add in Hstep as [_ ->]. split; simpl.
    + intros k. destruct (decide (key = k)) as [<- | Hne].
      * rewrite !lookup_insert_eq. by split; intros _; eexists.
      * rewrite !lookup_insert_ne by done. apply Hsame.
    + intros k Hk. destruct (decide (key = k)) as [<- | Hne].
      * left. exists (next_timer d). eexists. simpl.
        rewrite lookup_insert_eq. by split.
      * rewrite lookup_insert_ne in Hk by done.
        destruct (Hlive k Hk) as [(timer & tm & Ha & Hkey) | [timer Hs]].
        -- left. exists timer, tm. simpl. split; [| done].
           assert (timer <> next_timer d).
           { pose proof (Hf2 _ _ Ha). lia. }
           rewrite lookup_insert_ne by done.
           destruct (timers d !! key) as [old|] eqn:Hold; [| done].
           unfold Stop. rewrite lookup_delete_ne; [done |].
           intros <-. destruct (armed d !! old) as [tm'|] eqn:Hold'; [| done].
           pose proof (Htab _ _ _ Hold Hold'). simplify_eq.
        -- right. by exists timer.
  - apply dstep_expire in Hstep as (_ & tm & Htm & _ & ->). split; simpl; [done |].
    intros k Hk.
    destruct (Hlive k Hk) as [(timer0 & tm0 & Ha & Hkey) | [timer0 Hs]].
    + destruct (decide (timer = timer0)) as [<- | Hne].
      * right. exists timer. unfold started_for. simpl.
        rewrite lookup_insert_eq. by simplify_eq.
      * left. exists timer0, tm0. simpl. by rewrite lookup_delete_ne.
    + right. exists timer0. unfold started_for in *. simpl.
      destruct (decide (timer = timer0)) as [<- | Hne].
      * pose proof (Hdis _ _ Htm). congruence.
      * by rewrite lookup_insert_ne.
  - apply dstep_run in Hstep as (_ & key & Hkey & ->). split; simpl.
    + intros k. destruct (decide (key = k)) as [<- | Hne].
      * rewrite !lookup_delete_eq. by split; intros [? ?].
      * rewrite !lookup_delete_ne by done. apply Hsame.
    + intros k Hk. destruct (decide (key = k)) as [<- | Hne].
      * rewrite lookup_delete_eq in Hk. by destruct Hk.
      * rewrite lookup_delete_ne in Hk by done.
        destruct (Hlive k Hk) as [(timer0 & tm0 & Ha & Hk0) | [timer0 Hs]].
        -- left. by exists timer0, tm0.
        -- right. exists timer0. unfold started_for in *. simpl.
           rewrite lookup_delete_ne; [done |]. intros <-. congruence.
Qed.

Lemma drun_tables_ok (trace : list (DEvent A)) :
  forall d d',
    timers_ok d -> tables_ok d -> drun d trace = Some d' ->
    timers_ok d' /\ tables_ok d'.
Proof.
  induction trace as [|e trace IH]; intros d d' Hok Htab Hrun; simpl in Hrun.
  - by simplify_eq.
  - destruct (dstep d e) as [d1|] eqn:Hstep; [| done].
    apply (IH d1 d'); [by eapply timers_ok_step | by eapply tables_ok_step | done].
Qed.

Lemma calls_ok_step key d e d' (added : list A) :
  calls_ok key d added -> dstep d e = Some d' ->
  calls_ok key d' (added ++ map snd (adds_of key [e])).
Proof.
  unfold calls_ok. intros Hinv Hstep.
  destruct e as [t k fn | t timer | t timer].
  - apply dstep_add in Hstep as [_ ->]. simpl.
    change (executed_for key (Add (set_clock d t) k fn)) with (executed_for key d).
    destruct (String.eqb_spec k key) as [-> | Hne]; simpl.
    + rewrite lookup_insert_eq. exists added. split; [done |].
      destruct (pending d !! key) as [f0|]; [| done].
      destruct Hinv as (before & -> & Hsub). by apply sublist_inserts_r.
    + rewrite lookup_insert_ne by done. by rewrite app_nil_r.
  - apply dstep_expire in Hstep as (_ & tm & _ & _ & ->). simpl.
    by rewrite app_nil_r.
  - apply dstep_run in Hstep as (_ & k & _ & ->). simpl. rewrite app_nil_r.
    unfold executed_for, timer_func in *. simpl in *.
    destruct (decide (k = key)) as [-> | Hne].
    + rewrite lookup_delete_eq.
      destruct (pending d !! key) as [f0|]; [| done].
      destruct Hinv as (before & -> & Hsub).
      rewrite executed_for_snoc, decide_True by done.
      by apply sublist_app.
    + rewrite lookup_delete_ne by done.
      destruct (pending d !! k) as [f0|]; [| done].
      by rewrite executed_for_snoc, decide_False, app_nil_r by done.
Qed.

Lemma drun_calls_ok key (trace : list (DEvent A)) :
  forall d d' (added : list A),
    calls_ok key d added -> drun d trace = Some d' ->
    calls_ok key d' (added ++ map snd (adds_of key trace)).
Proof.
  induction trace as [|e trace IH]; intros d d' added Hinv Hrun; simpl in Hrun.
  - simplify_eq. by rewrite app_nil_r.
  - destruct (dstep d e) as [d1|] eqn:Hstep; [| done].
    rewrite adds_of_cons, map_app, app_assoc.
    apply (IH d1 d'); [by eapply calls_ok_step | done].
Qed.

(** *** The calls *)

Lemma taken_by_executed d e d' :
  dstep d e = Some d' -> executed d' = executed d ++ taken_by d e.
Proof.
  intros Hstep. destruct e as [t key fn | t timer | t timer].
  - apply dstep_add in Hstep as [_ ->]. simpl. by rewrite app_nil_r.
  - apply dstep_expire in Hstep as (_ & tm & _ & _ & ->). simpl. by rewrite app_nil_r.
  - apply dstep_run in Hstep as (_ & key & Hkey & ->). simpl. rewrite Hkey.
    destruct (pending d !! key); simpl; [done | by rewrite app_nil_r].
Qed.

Lemma for_key_app key (l l' : list (string * A)) :
  for_key key (l ++ l') = for_key key l ++ for_key key l'.
Proof. unfold for_key. by rewrite filter_app, map_app. Qed.

Lemma for_key_Permutation key (l l' : list (string * A)) :
  l ≡ₚ l' -> for_key key l ≡ₚ for_key key l'.
Proof. intros H. unfold for_key. apply Permutation_map. by rewrite H. Qed.

(** What timer functions have taken has been called or is still held. *)
Lemma cstep_taken (c : Calls A) (e : CEvent A) (c' : Calls A) :
  executed (deb c) ≡ₚ called c ++ holding c ->
  cstep c e = Some c' ->
  executed (deb c') ≡ₚ called c' ++ holding c'.
Proof.
  intros Hinv Hstep. destruct e as [e | i]; simpl in Hstep.
  - destruct (dstep (deb c) e) as [d|] eqn:Hd; [| done].
    injection Hstep as <-. simpl.
    rewrite (taken_by_executed _ _ _ Hd), Hinv. by rewrite app_assoc.
  - destruct (holding c !! i) as [a|] eqn:Ha; [| done].
    injection Hstep as <-. simpl.
    rewrite Hinv, <- app_assoc. apply Permutation_app_head. simpl.
    exact (delete_Permutation (holding c) i a Ha).
Qed.

Lemma crun_taken (es : list (CEvent A)) :
  forall c c',
    executed (deb c) ≡ₚ called c ++ holding c ->
    crun c es = Some c' ->
    executed (deb c') ≡ₚ called c' ++ holding c'.
Proof.
  induction es as [|e es IH]; intros c c' Hinv Hrun; simpl in Hrun.
  - by simplify_eq.
  - destruct (cstep c e) as [c1|] eqn:Hstep; [| done].
    apply (IH c1 c'); [by eapply cstep_taken | done].
Qed.

Lemma crun_debouncer (es : list (CEvent A)) :
  forall c c',
    crun c es = Some c' -> drun (deb c) (debouncer_events es) = Some (deb c').
Proof.
  induction es as [|e es IH]; intros c c' Hrun; simpl in Hrun.
  - by simplify_eq.
  - destruct (cstep c e) as [c1|] eqn:Hstep; [| done].
    destruct e as [e | i]; simpl in *.
    + destruct (dstep (deb c) e) as [d|] eqn:Hd; [| done].
      injection Hstep as <-. exact (IH _ c' Hrun).
    + destruct (holding c !! i) as [a|]; [| done].
      injection Hstep as <-. exact (IH _ c' Hrun).
Qed.

Lemma crun_step (c c1 : Calls A) (e : CEvent A) (es : list (CEvent A)) :
  cstep c e = Some c1 -> crun c (e :: es) = crun c1 es.
Proof. intros H. simpl. by rewrite H. Qed.

Lemma cstep_debouncer (c : Calls A) e d :
  dstep (deb c) e = Some d ->
  cstep c (CDebouncer e)
  = Some {| deb := d; holding := holding c ++ taken_by (deb c) e;
            called := called c |}.
Proof. intros H. simpl. by rewrite H. Qed.

Lemma cstep_call (c : Calls A) (i : nat) (a : string * A) :
  holding c !! i = Some a ->
  cstep c (CCall i)
  = Some {| deb := deb c; holding := delete i (holding c);
            called := called c ++ [a] |}.
Proof. intros H. simpl. by rewrite H. Qed.

(** Two actions added for a key one after the other, each taken by the
    function of its own timer, and called in the other order. *)
Lemma crun_calls_swapped (delay : Z) key (f1 f2 : A) :
  (0 <= delay)%Z ->
  let es :=
    [CDebouncer (EvAdd 0 key f1);
     CDebouncer (EvExpire delay 0); CDebouncer (EvRun delay 0);
     CDebouncer (EvAdd delay key f2);
     CDebouncer (EvExpire (delay + delay) 1); CDebouncer (EvRun (delay + delay) 1);
     CCall 1; CCall 0] in
  exists c,
    crun (NewCalls delay) es = Some c
    /\ map snd (adds_of key (debouncer_events es)) = [f1; f2]
    /\ for_key key (called c) = [f2; f1].
Proof.
  intros Hdelay es. subst es. eexists. split; [| split].
  - erewrite crun_step;
      [| apply cstep_debouncer, dstep_add_ok; simpl; lia].
    erewrite crun_step;
      [| apply cstep_debouncer; eapply dstep_expire_ok;
         [simpl; lia | simpl; apply lookup_insert_eq | simpl; lia]].
    erewrite crun_step;
      [| apply cstep_debouncer; eapply dstep_run_ok;
         [simpl; lia | simpl; apply lookup_insert_eq]].
    erewrite crun_step;
      [| apply cstep_debouncer, dstep_add_ok; simpl; lia].
    erewrite crun_step;
      [| apply cstep_debouncer; eapply dstep_expire_ok;
         [simpl; lia | simpl; apply lookup_insert_eq | simpl; lia]].
    erewrite crun_step;
      [| apply cstep_debouncer; eapply dstep_run_ok;
         [simpl; lia | simpl; apply lookup_insert_eq]].
    simpl. repeat (rewrite lookup_insert_eq; simpl). reflexivity.
  - simpl. by rewrite String.eqb_refl.
  - unfold for_key. simpl. by rewrite !filter_cons_True by done.
Qed.

End TablesFacts.

(** X23.  In every state a debouncer comes to, its two maps hold the same
    keys, and a key they hold still has a timer that waits or a function
    that was started; so once no timer waits and no function is left to
    run, both maps are empty: nothing stays behind in them. *)
Theorem debouncer_tables_agree
        {A : Type} (delay : Z) (trace : list (watcher.DEvent A))
        (d : watcher.Debouncer A) :
  watcher.drun (watcher.NewDebouncer delay) trace = Some d ->
  (forall key, is_Some (watcher.timers d !! key) <-> is_Some (watcher.pending d !! key))
  /\ (watcher.armed d = ∅ -> watcher.started d = ∅ ->
      watcher.timers d = ∅ /\ watcher.pending d = ∅).
Proof.
  intros Hrun.
  destruct (drun_tables_ok trace (watcher.NewDebouncer delay) d)
    as [_ [Hsame Hlive]]; [apply timers_ok_new | apply tables_ok_new | done |].
  split; [exact Hsame |]. intros Harmed Hstarted.
  assert (Hnone : forall key, watcher.timers d !! key = None).
  { intros key. destruct (watcher.timers d !! key) as [timer|] eqn:Hk; [| done].
    destruct (Hlive key) as [(timer0 & tm & Ha & _) | [timer0 Hs]].
    - by rewrite Hk.
    - by rewrite Harmed, lookup_empty in Ha.
    - unfold watcher.started_for in Hs. by rewrite Hstarted, lookup_empty in Hs. }
  split; apply map_empty; [exact Hnone |].
  intros key. destruct (watcher.pending d !! key) as [fn|] eqn:Hp; [| done].
  destruct (proj2 (Hsame key)) as [timer Ht]; [by rewrite Hp |].
  by rewrite Hnone in Ht.
Qed.

Lemma debouncer_tables_agree_witness :
  watcher.drun (watcher.NewDebouncer 100) example_trace = Some example_debounced
  /\ (forall key, is_Some (watcher.timers example_debounced !! key)
                  <-> is_Some (watcher.pending example_debounced !! key)).
Proof.
  assert (Hrun : watcher.drun (watcher.NewDebouncer 100) example_trace
                 = Some example_debounced) by (vm_compute; reflexivity).
  split; [exact Hrun |].
  exact (proj1 (debouncer_tables_agree 100 example_trace example_debounced Hrun)).
Defined.

(** X24.  Whatever the timing, the actions a debouncer calls for a key
    are among those added for it, none called more often than it was
    added.  The timer functions take them, under the lock, in the order
    they were added; each calls what it has taken after it has released the
    lock, so that the calls themselves can come in another order: of two
    actions added one after the other and both taken, the second can be
    called first. *)
Theorem debouncer_calls_what_was_added
        {A : Type} (delay : Z) (key : string) (es : list (debounce.CEvent A))
        (c : debounce.Calls A) :
  debounce.crun (debounce.NewCalls delay) es = Some c ->
  let added := map snd (watcher.adds_of key (debounce.debouncer_events es)) in
  sublist (watcher.executed_for key (debounce.deb c)) added
  /\ debounce.for_key key (debounce.called c) ⊆+ added
  /\ debounce.for_key key (debounce.called c) ++ debounce.for_key key (debounce.holding c)
     ≡ₚ watcher.executed_for key (debounce.deb c)
  /\ ((0 <= delay)%Z ->
      forall f1 f2 : A,
        exists es' c',
          debounce.crun (debounce.NewCalls delay) es' = Some c'
          /\ map snd (watcher.adds_of key (debounce.debouncer_events es')) = [f1; f2]
          /\ debounce.for_key key (debounce.called c') = [f2; f1]).
Proof.
  intros Hrun added.
  pose proof (crun_debouncer es _ c Hrun) as Hd. simpl in Hd.
  assert (Hsub : sublist (watcher.executed_for key (debounce.deb c)) added).
  { pose proof (drun_calls_ok key (debounce.debouncer_events es)
                  (watcher.NewDebouncer delay) (debounce.deb c) []) as H.
    specialize (H ltac:(unfold debounce.calls_ok; simpl; by rewrite lookup_empty) Hd).
    simpl in H. unfold debounce.calls_ok in H. subst added.
    destruct (watcher.pending (debounce.deb c) !! key) as [fn|]; [| done].
    destruct H as (before & -> & Hsub). by apply sublist_inserts_r. }
  assert (Hperm : debounce.for_key key (debounce.called c)
                  ++ debounce.for_key key (debounce.holding c)
                  ≡ₚ watcher.executed_for key (debounce.deb c)).
  { rewrite <- for_key_app. symmetry. apply for_key_Permutation.
    by apply (crun_taken es (debounce.NewCalls delay) c). }
  split; [exact Hsub |]. split; [| split; [exact Hperm |]].
  - transitivity (watcher.executed_for key (debounce.deb c));
      [| by apply sublist_submseteq].
    rewrite <- Hperm. by apply submseteq_inserts_r.
  - intros Hdelay f1 f2.
    destruct (crun_calls_swapped delay key f1 f2 Hdelay) as (c' & H).
    by eexists _, c'.
Qed.

Lemma debouncer_calls_what_was_added_witness :
  let es := map debounce.CDebouncer example_trace ++ [debounce.CCall 1; debounce.CCall 0] in
  let c := default (debounce.NewCalls 100) (debounce.crun (debounce.NewCalls 100) es) in
  debounce.crun (debounce.NewCalls 100) es = Some c
  /\ debounce.for_key "k" (debounce.called c) = [3]
  /\ map snd (watcher.adds_of "k" (debounce.debouncer_events es)) = [1; 2; 3]
  /\ debounce.for_key "k" (debounce.called c)
     ⊆+ map snd (watcher.adds_of "k" (debounce.debouncer_events es)).
Proof.
  intros es c.
  assert (Hrun : debounce.crun (debounce.NewCalls 100) es = Some c)
    by (vm_compute; reflexivity).
  split; [exact Hrun |]. split; [vm_compute; reflexivity |].
  split; [vm_compute; reflexivity |].
  exact (proj1 (proj2 (debouncer_calls_what_was_added 100 "k" es c Hrun))).
Defined.

(** X25.  The delay is not always waited for: when the timer of a key has
    expired and its function has not run yet, an action added for the key
    at that moment is the one the function takes, so that it is called at
    once, its own delay not elapsed; the timer made for it is left
    waiting with nothing pending for the key. *)
Theorem debouncer_call_can_come_early
        {A : Type} (d : watcher.Debouncer A) (timer : nat) (key : string)
        (fn : A) (t : Z) :
  watcher.started d !! timer = Some key ->
  (watcher.clock d <= t)%Z ->
  exists d',
    watcher.drun d [watcher.EvAdd t key fn; watcher.EvRun t timer] = Some d'
    /\ watcher.executed d' = watcher.executed d ++ [(key, fn)]
    /\ watcher.clock d' = t
    /\ watcher.pending d' !! key = None
    /\ watcher.armed d' !! watcher.next_timer d
       = Some {| watcher.timer_key := key;
                 watcher.expiry := (t + watcher.delay d)%Z |}.
Proof.
  intros Hstarted Hclock. eexists. split.
  - simpl. unfold watcher.dstep. simpl.
    destruct (Z.ltb_spec t (watcher.clock d)) as [|_]; [lia |].
    simpl. destruct (Z.ltb_spec t t) as [|_]; [lia |].
    simpl. rewrite Hstarted. reflexivity.
  - simpl. rewrite lookup_insert_eq, lookup_delete_eq, lookup_insert_eq. done.
Qed.

Lemma debouncer_call_can_come_early_witness :
  let d :=
    default (watcher.NewDebouncer 100)
            (watcher.drun (watcher.NewDebouncer 100)
               [watcher.EvAdd 0 "k" 1; watcher.EvExpire 100 0]) in
  watcher.started d !! 0 = Some "k"
  /\ (watcher.clock d <= 100)%Z
  /\ exists d',
      watcher.drun d [watcher.EvAdd 100 "k" 2; watcher.EvRun 100 0] = Some d'
      /\ watcher.executed d' = watcher.executed d ++ [("k", 2)]
      /\ watcher.clock d' = 100%Z
      /\ watcher.pending d' !! "k" = None
      /\ watcher.armed d' !! watcher.next_timer d
         = Some {| watcher.timer_key := "k";
                   watcher.expiry := (100 + watcher.delay d)%Z |}.
Proof.
  intros d.
  assert (H1 : watcher.started d !! 0 = Some "k") by (vm_compute; reflexivity).
  assert (H2 : (watcher.clock d <= 100)%Z) by (vm_compute; discriminate).
  split; [exact H1 |]. split; [exact H2 |].
  exact (debouncer_call_can_come_early d 0 "k" 2 100 H1 H2).
Defined.

(** ** The files of [init] *)

Section FilesFacts.

Import detect.

Variable os : Os.

(** A write to a path at which [os.Stat] finds nothing leaves every file
    that exists as it is, whether the write succeeds or not. *)
Lemma WriteFile_keeps (path data : string) (files : Files) (p content : string) :
  Stat os files path = false ->
  files !! p = Some content ->
  (WriteFile os path data files).2 !! p = Some content.
Proof.
  unfold Stat, WriteFile. intros Hstat Hp.
  destruct (unreachable os path); [done |].
  apply bool_decide_eq_false in Hstat.
  assert (Hne : resolve os path <> p).
  { intros <-. apply Hstat. by rewrite Hp. }
  destruct (write os path data files); simpl;
    try rewrite lookup_insert_ne by done; done.
Qed.

Lemma WriteTemplateForProject_keeps (path : string) (files : Files)
      (p content : string) :
  files !! p = Some content ->
  (WriteTemplateForProject os path files).2 !! p = Some content.
Proof.
  intros Hp. unfold WriteTemplateForProject.
  destruct (Stat os files (Join os path "gowatch.yaml")) eqn:Hstat; [done |].
  pose proof (WriteFile_keeps (Join os path "gowatch.yaml")
                (GetTemplateForType (DetectProjectType os files path))
                files p content Hstat Hp) as H.
  by destruct (WriteFile os _ _ files) as [[cause|] files'].
Qed.

End FilesFacts.

(** X26.  [WriteTemplateForProject] never overwrites: it leaves every
    file that exists as it is, whether it succeeds or fails; when the
    configuration file exists it returns the error for that and changes
    nothing; and when it succeeds, the one file it has made holds the
    template of the detected project type, so that a second call is
    refused. *)
Theorem WriteTemplateForProject_never_overwrites
        (os : detect.Os) (path : string) (files : detect.Files) :
  let configPath := detect.Join os path "gowatch.yaml" in
  let result := detect.WriteTemplateForProject os path files in
  (forall p content, files !! p = Some content -> result.2 !! p = Some content)
  /\ (detect.Stat os files configPath = true ->
      result = (Some (detect.ErrExists configPath), files))
  /\ (result.1 = None ->
      result.2
      = <[detect.resolve os configPath :=
            detect.GetTemplateForType (detect.DetectProjectType os files path)]> files
      /\ detect.Stat os result.2 configPath = true
      /\ detect.WriteTemplateForProject os path result.2
         = (Some (detect.ErrExists configPath), result.2)).
Proof.
  intros configPath result. split; [| split].
  - intros p content. apply WriteTemplateForProject_keeps.
  - intros Hstat. subst result. unfold detect.WriteTemplateForProject.
    fold configPath. by rewrite Hstat.
  - subst result. unfold detect.WriteTemplateForProject. fold configPath.
    destruct (detect.Stat os files configPath) eqn:Hstat; [done |].
    unfold detect.WriteFile.
    destruct (detect.unreachable os configPath) as [cause|] eqn:Hreach; [done |].
    destruct (detect.write os configPath _ files); try done.
    simpl. intros _.
    assert (Hnow : detect.Stat os
                     (<[detect.resolve os configPath :=
                          detect.GetTemplateForType
                            (detect.DetectProjectType os files path)]> files)
                     configPath = true).
    { unfold detect.Stat. rewrite Hreach, lookup_insert_eq.
      apply bool_decide_eq_true. by eexists. }
    split; [done |]. split; [done |]. by rewrite Hnow.
Qed.

(** X27.  [init] changes no file that exists: whatever it writes, it
    writes to paths at which it found nothing, so that every file that was
    there before is there after it with the content it had; and when both
    the configuration file and the ignore file exist, it writes nothing and
    succeeds. *)
Theorem initConfig_keeps_existing_files (os : detect.Os) (files : detect.Files) :
  let result := main.initConfig os files in
  (forall p content, files !! p = Some content -> result.2 !! p = Some content)
  /\ (detect.Stat os files "gowatch.yaml" = true ->
      detect.Stat os files ".gowatchignore" = true ->
      result = (None, files)).
Proof.
  intros result. subst result. unfold main.initConfig. split.
  - intros p content Hp.
    assert (H1 : (if negb (detect.Stat os files "gowatch.yaml")
                  then detect.WriteTemplateForProject os (detect.Getwd os) files
                  else (None, files)).2 !! p = Some content).
    { destruct (detect.Stat os files "gowatch.yaml"); simpl; [done |].
      by apply WriteTemplateForProject_keeps. }
    destruct (if negb (detect.Stat os files "gowatch.yaml") then _ else _)
      as [[e|] files1]; simpl in H1; [done |].
    destruct (detect.Stat os files ".gowatchignore") eqn:Hign; simpl; [done |].
    unfold detect.WriteExampleIgnore.
    set (data := if String.eqb (detect.GOOS os) "windows" then _ else _).
    assert (H2 : (detect.WriteFile os ".gowatchignore" data files1).2 !! p
                 = Some content).
    { unfold detect.Stat, detect.WriteFile in *.
      destruct (detect.unreachable os ".gowatchignore"); [done |].
      apply bool_decide_eq_false in Hign.
      assert (Hne : detect.resolve os ".gowatchignore" <> p).
      { intros <-. apply Hign. by rewrite Hp. }
      destruct (detect.write os ".gowatchignore" data files1); simpl;
        try rewrite lookup_insert_ne by done; done. }
    by destruct (detect.WriteFile os ".gowatchignore" data files1) as [[cause|] files2].
  - intros -> ->. done.
Qed.

Example init_example :
  detect.DetectProjectType example_files_os example_files "/srv/app" = detect.ProjectGo
  /\ detect.WriteTemplateForProject example_files_os "/srv/app" example_files
     = (Some (detect.ErrExists "/srv/app/gowatch.yaml"), example_files)
  /\ main.initConfig example_files_os example_files
     = (None, <["/srv/app/.gowatchignore" := detect.exampleIgnore]> example_files)
  /\ strings.HasPrefix detect.goTemplate "# GoWatch Configuration for Go Project" = true
  /\ strings.Contains detect.defaultTemplate
       (detect.requoted "cmd: ['echo', 'File changed: {path}']") = true.
Proof. repeat split; vm_compute; reflexivity. Qed.

(** ** Validation and the start of the watcher *)

Section StartErrors.

Import strings config watcher.

(** The errors a registration can end with once the path is resolved and
    examined: the notification facility refuses a path, or the walk meets
    an error. *)
Local Abbreviation late e :=
  ((exists path cause, e = ErrWatch path cause) \/ (exists cause, e = ErrWalk cause)).

Lemma addSingle_error (sys : Sys) (path : string) (w : Watcher) (e : error) :
  (addSingle sys path w).1 = Some e -> late e.
Proof.
  unfold addSingle. destruct (default false _); [done |].
  destruct (fsnotify_Add sys path (fs_adds w)) as [cause|]; [| done].
  intros [= <-]. left. by eexists _, _.
Qed.

Lemma walkFn_error (sys : Sys) (path : string) (info : option FileInfo)
      (err : option string) (w : Watcher) (e : error) :
  (walkFn sys path info err w).1 = Some (Failed e) -> late e.
Proof.
  unfold walkFn. destruct err as [cause|].
  { intros [= <-]. right. by eexists. }
  destruct info as [info|]; [| done].
  destruct (negb (IsDir info)); [done |].
  destruct (shouldIgnore (pf sys) (cfg w) path); [done |].
  pose proof (addSingle_error sys path w) as H.
  destruct (addSingle sys path w) as [[e'|] w1]; simpl in *; [| done].
  intros [= <-]. by apply H.
Qed.

Lemma walk_error (sys : Sys) (t : Tree) :
  forall (path : string) (w : Watcher) (e : error),
    (walk sys path t w).1 = Some (Failed e) -> late e.
Proof.
  revert t.
  apply (Tree_mut
           (fun t => forall path w e,
                (walk sys path t w).1 = Some (Failed e) -> late e)
           (fun entries => forall path w e,
                (walk_entries sys path entries w).1 = Some (Failed e) -> late e)).
  - intros path w e. apply walkFn_error.
  - intros readErr entries IHentries path w e. simpl.
    pose proof (walkFn_error sys path (Some {| IsDir := true |}) readErr w e) as H.
    destruct (walkFn sys path (Some {| IsDir := true |}) readErr w) as [err1 w1].
    simpl in H. destruct (_ || _); [done | apply IHentries].
  - intros cause path w e. apply walkFn_error.
  - by intros path w e.
  - intros name t IHt rest IHrest path w e. simpl.
    set (filename := Join2 sys path name).
    pose proof (IHt filename w) as Hwalk.
    destruct t as [| readErr entries | cause].
    + destruct (walk sys filename File w) as [[[|e'] |] w1]; simpl in *;
        try apply IHrest; try done.
      intros [= <-]. by apply Hwalk.
    + destruct (walk sys filename (Dir readErr entries) w) as [[[|e'] |] w1];
        simpl in *; try apply IHrest.
      intros [= <-]. by apply Hwalk.
    + simpl. intros [= <-]. right. by eexists.
Qed.

Lemma addPath_error (sys : Sys) (wp : WatchPath) (w : Watcher) (e : error) :
  configfile.watch_ok (Abs sys) (Stat sys) wp ->
  (addPath sys wp w).1 = Some e -> late e.
Proof.
  intros (_ & absPath & info & Habs & Hstat). unfold addPath.
  rewrite Habs, Hstat.
  assert (Hrec : (addRecursive sys absPath w).1 = Some e -> late e).
  { unfold addRecursive, Walk.
    pose proof (walk_error sys (Lstat sys absPath) absPath w) as H.
    destruct (walk sys absPath (Lstat sys absPath) w) as [[[|e'] |] w1];
      simpl in *; try done.
    intros [= <-]. by apply H. }
  destruct (IsDir info), (Recursive wp);
    first [exact Hrec | apply addSingle_error].
Qed.

Lemma add_paths_error (sys : Sys) (wps : list WatchPath) :
  forall (w : Watcher) (e : error),
    Forall (configfile.watch_ok (Abs sys) (Stat sys)) wps ->
    (add_paths sys wps w).1 = Some e -> late e.
Proof.
  induction wps as [|wp wps IH]; intros w e Hok; simpl; [done |].
  apply Forall_cons in Hok as [Hwp Hok].
  pose proof (addPath_error sys wp w) as H.
  destruct (addPath sys wp w) as [[e'|] w1]; simpl in *.
  - intros [= <-]. by apply H.
  - by apply IH.
Qed.

End StartErrors.

(** X28.  Once [Validate] has accepted the configuration on the file
    system the watcher starts on, [Start] cannot fail on a watch path that
    does not resolve or does not exist: the only errors left to it are a
    path the notification facility refuses and an error met during a
    walk. *)
Theorem Start_after_Validate
        (parse : string -> option Z) (sys : watcher.Sys) (w : watcher.Watcher)
        (e : watcher.error) :
  configfile.Validate parse (watcher.Abs sys) (watcher.Stat sys) (watcher.cfg w) = None ->
  (watcher.Start sys w).1 = Some e ->
  (exists path cause, e = watcher.ErrWatch path cause)
  \/ (exists cause, e = watcher.ErrWalk cause).
Proof.
  intros (_ & _ & Hok & _)%Validate_passed Herr.
  by eapply add_paths_error.
Qed.

Lemma Start_after_Validate_witness :
  let sys :=
    {| watcher.pf := filepath.unix;
       watcher.Abs := fun p => inl p;
       watcher.Clean := fun p => p;
       watcher.Join2 := fun dir name => dir +:+ "/" +:+ name;
       watcher.Stat := fun _ => inl {| watcher.IsDir := true |};
       watcher.Lstat := fun _ => watcher.Dir None watcher.NoEntry;
       watcher.fsnotify_Add := fun _ _ => Some "too many open files" |} in
  let cfg :=
    {| config.Watch :=
         [{| config.Path := "/srv/app"; config.Recursive := true; config.Ignore := [] |}];
       config.Config_OnChange :=
         {| config.Commands :=
              [{| config.Cmd := ["go"; "test"]; config.Run := ""; config.Timeout := "" |}] |};
       config.Debounce := "250ms";
       config.MaxConcurrency := 2 |} in
  let w := watcher.New cfg 250000000 in
  configfile.Validate example_parse (watcher.Abs sys) (watcher.Stat sys) (watcher.cfg w)
  = None
  /\ (watcher.Start sys w).1
     = Some (watcher.ErrWatch "/srv/app" "too many open files")
  /\ ((exists path cause,
          watcher.ErrWatch "/srv/app" "too many open files"
          = watcher.ErrWatch path cause)
      \/ (exists cause,
            watcher.ErrWatch "/srv/app" "too many open files" = watcher.ErrWalk cause)).
Proof.
  intros sys cfg w.
  assert (H1 : configfile.Validate example_parse (watcher.Abs sys) (watcher.Stat sys)
                 (watcher.cfg w) = None) by reflexivity.
  assert (H2 : (watcher.Start sys w).1
               = Some (watcher.ErrWatch "/srv/app" "too many open files"))
    by reflexivity.
  split; [exact H1 |]. split; [exact H2 |].
  exact (Start_after_Validate example_parse sys w _ H1 H2).
Defined.

(** ** From notifications to the events sent *)

Section EmitFacts.

Import strings config watcher debounce.

Lemma perform_all_snoc (ops : list Operation) (op : Operation) (w : Watcher) :
  perform_all (ops ++ [op]) w = perform op (perform_all ops w).
Proof. unfold perform_all. by rewrite foldl_app. Qed.

Lemma accepted_more (c : Config) (ops : list Operation) (op : Operation)
      (key : string) (a : Action) :
  accepted c ops key a -> accepted c (ops ++ [op]) key a.
Proof.
  intros (sys & t & event & Hin & H). exists sys, t, event.
  split; [| done]. apply in_or_app. by left.
Qed.

(** The registrations leave the configuration and the debouncer alone. *)
Lemma addSingle_keeps (c : Config) (d : Debouncer Action)
      (sys : Sys) (path : string) (w : Watcher) :
  cfg w = c /\ debouncer w = d ->
  cfg (addSingle sys path w).2 = c /\ debouncer (addSingle sys path w).2 = d.
Proof.
  intros H. unfold addSingle. destruct (default false _); [done |].
  by destruct (fsnotify_Add sys path (fs_adds w)).
Qed.

Lemma emits_ok_same (c : Config) (ops : list Operation) (op : Operation)
      (w w' : Watcher) :
  emits_ok c ops w ->
  cfg w' = cfg w /\ debouncer w' = debouncer w ->
  emits_ok c (ops ++ [op]) w'.
Proof.
  intros (Hc & Hp & He) [Hcfg Hd]. unfold emits_ok. rewrite Hcfg, Hd.
  split; [done |]. split; intros key a H; apply accepted_more; auto.
Qed.

Lemma emits_ok_step (c : Config) (ops : list Operation) (op : Operation)
      (w : Watcher) :
  add_by_event op -> emits_ok c ops w -> emits_ok c (ops ++ [op]) (perform op w).
Proof.
  intros Hop Hinv.
  pose proof (addSingle_keeps (cfg w) (debouncer w)) as Hsingle.
  destruct op as [sys | sys path | sys root | sys wp | sys t event | cause | e |];
    simpl.
  - apply (emits_ok_same c ops _ w); [done |].
    by apply (add_paths_preserves
                (fun w0 => cfg w0 = cfg w /\ debouncer w0 = debouncer w) Hsingle).
  - apply (emits_ok_same c ops _ w); [done |]. by apply Hsingle.
  - apply (emits_ok_same c ops _ w); [done |].
    by apply (addRecursive_preserves
                (fun w0 => cfg w0 = cfg w /\ debouncer w0 = debouncer w) Hsingle).
  - apply (emits_ok_same c ops _ w); [done |].
    by apply (addPath_preserves
                (fun w0 => cfg w0 = cfg w /\ debouncer w0 = debouncer w) Hsingle).
  - unfold handle_event.
    destruct (shouldIgnore (pf sys) (cfg w) (Name event)) eqn:Hign;
      [by apply (emits_ok_same c ops _ w) |].
    destruct (has_op (Op event) Chmod) eqn:Hchmod; [by apply (emits_ok_same c ops _ w) |].
    set (w1 := if has_op (Op event) Create then _ else w).
    assert (H1 : cfg w1 = cfg w /\ debouncer w1 = debouncer w).
    { subst w1. destruct (has_op (Op event) Create); [| done].
      destruct (Stat sys (Name event)) as [info |]; [| done].
      destruct (IsDir info); [| done].
      by apply (watch_new_directory_preserves
                  (fun w0 => cfg w0 = cfg w /\ debouncer w0 = debouncer w) Hsingle). }
    destruct H1 as [Hc1 Hd1]. destruct Hinv as (Hc & Hp & He).
    unfold emits_ok. simpl. rewrite Hc1, Hd1.
    split; [done |]. split.
    + intros key a. destruct (decide (Name event = key)) as [<- | Hne].
      * rewrite lookup_insert_eq. intros [= <-].
        exists sys, t, event. split; [apply in_or_app; right; by left |].
        by rewrite <- Hc.
      * rewrite lookup_insert_ne by done. intros H. by apply accepted_more, Hp.
    + intros key a H. by apply accepted_more, He.
  - by apply (emits_ok_same c ops _ w).
  - destruct Hinv as (Hc & Hp & He).
    destruct (dstep (debouncer w) e) as [d'|] eqn:Hstep;
      [| apply (emits_ok_same c ops _ w); by repeat split].
    destruct e as [t key fn | t timer | t timer]; [done | |].
    + apply dstep_expire in Hstep as (_ & tm & _ & _ & ->).
      split; [done |]. split; simpl; intros key a H; apply accepted_more; auto.
    + apply dstep_run in Hstep as (_ & k & _ & ->).
      split; [done |]. split; simpl.
      * intros key a [_ H]%lookup_delete_Some. by apply accepted_more, Hp.
      * intros key a H.
        destruct (pending (debouncer w) !! k) as [f|] eqn:Hk;
          [| by apply accepted_more, He].
        apply in_app_or in H as [H | [[= <- <-] | []]];
          by apply accepted_more; auto.
  - by apply (emits_ok_same c ops _ w).
Qed.

Lemma perform_all_emits_ok (c : Config) (debounce : Z) (ops : list Operation) :
  Forall add_by_event ops -> emits_ok c ops (perform_all ops (New c debounce)).
Proof.
  induction ops as [|op ops IH] using rev_ind; intros Hops.
  - repeat split; simpl; [by intros key a; rewrite lookup_empty | by intros key a []].
  - apply Forall_app in Hops as [Hops Hop]. apply Forall_cons in Hop as [Hop _].
    rewrite perform_all_snoc. apply emits_ok_step; auto.
Qed.




(** *** The goroutines of the watcher *)














End EmitFacts.

(** X29.  A watcher sends only what it was notified of and accepted:
    every action its debouncer has called is the sending of a notification
    that was handled earlier in the run, under the key that is the name of
    that notification, which was not ignored and whose operation included
    no permission change. *)
Theorem watcher_sends_accepted_notifications
        (c : config.Config) (delay : Z) (ops : list watcher.Operation)
        (key : string) (a : watcher.Action) :
  Forall debounce.add_by_event ops ->
  In (key, a) (watcher.executed
                 (watcher.debouncer (watcher.perform_all ops (watcher.New c delay)))) ->
  exists sys t event,
    In (watcher.OpEvent sys t event) ops
    /\ a = watcher.Emit event
    /\ key = watcher.Name event
    /\ watcher.shouldIgnore (watcher.pf sys) c (watcher.Name event) = false
    /\ watcher.has_op (watcher.Op event) watcher.Chmod = false.
Proof.
  intros Hops Hin.
  destruct (perform_all_emits_ok c delay ops Hops) as (_ & _ & He).
  exact (He key a Hin).
Qed.

Lemma watcher_sends_accepted_notifications_witness :
  let write := {| watcher.Name := "/srv/app/main.go"; watcher.Op := watcher.Write |} in
  let ops :=
    [watcher.OpStart example_sys;
     watcher.OpEvent example_sys 0
       {| watcher.Name := "/srv/app/main.go"; watcher.Op := watcher.Create |};
     watcher.OpEvent example_sys 10
       {| watcher.Name := "/srv/app/main.go";
          watcher.Op := Z.lor watcher.Write watcher.Chmod |};
     watcher.OpEvent example_sys 20 write;
     watcher.OpTimer (watcher.EvExpire 120 1);
     watcher.OpTimer (watcher.EvRun 120 1)] in
  let c := example_watch_config ["*.tmp"] in
  Forall debounce.add_by_event ops
  /\ In ("/srv/app/main.go", watcher.Emit write)
        (watcher.executed
           (watcher.debouncer (watcher.perform_all ops (watcher.New c 100))))
  /\ exists sys t event,
      In (watcher.OpEvent sys t event) ops
      /\ watcher.Emit write = watcher.Emit event
      /\ "/srv/app/main.go" = watcher.Name event
      /\ watcher.shouldIgnore (watcher.pf sys) c (watcher.Name event) = false
      /\ watcher.has_op (watcher.Op event) watcher.Chmod = false.
Proof.
  intros write ops c.
  assert (H1 : Forall debounce.add_by_event ops) by (repeat constructor).
  assert (H2 : In ("/srv/app/main.go", watcher.Emit write)
                  (watcher.executed
                     (watcher.debouncer
                        (watcher.perform_all ops (watcher.New c 100)))))
    by (vm_compute; by left).
  split; [exact H1 |]. split; [exact H2 |].
  exact (watcher_sends_accepted_notifications c 100 ops "/srv/app/main.go"
           (watcher.Emit write) H1 H2).
Defined.


